(** * ingress2gateway: the aggregator of pkg/i2gw/aggregator.go

    A shallow embedding of the aggregation-and-translation engine that turns
    a list of Ingress objects into HTTPRoutes, Gateways and a list of
    translation errors, followed by the theorems that settle the properties
    stated about it.

    Conventions of the embedding.
    - Go strings are byte strings: [string] of [ascii].
    - Go maps are [gmap string _].  A [range] over a map visits its entries
      in an order the language leaves open; every [range] of the source
      takes a [Schedule], which picks the order of the keys.
    - A nil pointer is [None]; dereferencing it panics.  Functions that can
      panic return an [option], [None] standing for the panic.
    - [int32] values are integers of [Z] wrapped by [wrap32]; Go's [int] is
      taken to be 64 bits wide. *)

From Stdlib Require Import ZArith Lia Ascii.
From stdpp Require Import gmap strings list fin_maps.

Local Open Scope string_scope.
Local Open Scope list_scope.
Local Open Scope stdpp_scope.

(** ** Machine integers *)

Definition wrap32 (z : Z) : Z := ((z + 2 ^ 31) mod 2 ^ 32 - 2 ^ 31)%Z.

Definition add32 (a b : Z) : Z := wrap32 (a + b).
Definition sub32 (a b : Z) : Z := wrap32 (a - b).

(** Go's [/] on int32: truncated towards zero, a panic on a zero divisor. *)
Definition div32 (a b : Z) : option Z :=
  if (b =? 0)%Z then None else Some (wrap32 (Z.quot a b)).

Definition int32_range (z : Z) : Prop := (- 2 ^ 31 <= z < 2 ^ 31)%Z.

(** ** The pieces of the Go library the source calls *)

(** [fmt.Sprintf] with the two formats the keys are built with. *)
Definition Sprintf2 (a b : string) : string := a +:+ "/" +:+ b.
Definition Sprintf3 (a b c : string) : string := a +:+ "/" +:+ b +:+ "/" +:+ c.

(** [strings.Split s sep] for a separator of one byte. *)
Fixpoint Split (s : string) (sep : ascii) : list string :=
  match s with
  | EmptyString => [""]
  | String c s' =>
      if Ascii.eqb c sep then "" :: Split s' sep
      else match Split s' sep with
           | p :: ps => String c p :: ps
           | [] => [String c ""]
           end
  end.

Definition in_range (lo hi : nat) (c : ascii) : bool :=
  (lo <=? nat_of_ascii c)%nat && (nat_of_ascii c <=? hi)%nat.

Definition isDigit (c : ascii) : bool := in_range 48 57 c.

(** The character class [a-zA-Z0-9] and its complement [^a-zA-Z0-9]. *)
Definition isAlnum (c : ascii) : bool :=
  in_range 97 122 c || in_range 65 90 c || isDigit c.

Definition notAlnum (c : ascii) : bool := negb (isAlnum c).

(** The two regular expressions of the source have the shape [cls+],
    optionally anchored at the start of the text. *)
Inductive regexp : Type :=
  | ClassPlus (anchored : bool) (cls : ascii -> bool).

Fixpoint skipClass (cls : ascii -> bool) (s : string) : string :=
  match s with
  | EmptyString => ""
  | String c s' => if cls c then skipClass cls s' else s
  end.

(** Every maximal run of [cls] becomes [repl]; [inRun] says that the byte
    before [s] belonged to a run already replaced. *)
Fixpoint replaceRuns (cls : ascii -> bool) (repl : string) (inRun : bool)
    (s : string) : string :=
  match s with
  | EmptyString => ""
  | String c s' =>
      if cls c then
        if inRun then replaceRuns cls repl true s'
        else repl +:+ replaceRuns cls repl true s'
      else String c (replaceRuns cls repl false s')
  end.

(** [regexp.ReplaceAllString]: all leftmost, longest, non-overlapping
    matches are replaced. *)
Definition ReplaceAllString (re : regexp) (src repl : string) : string :=
  match re with
  | ClassPlus false cls => replaceRuns cls repl false src
  | ClassPlus true cls =>
      match src with
      | EmptyString => ""
      | String c _ => if cls c then repl +:+ skipClass cls src else src
      end
  end.

(** [strconv.Atoi] on a 64-bit platform.  The result is the pair of the
    value and of the error that comes with it, if any: as in Go, a syntax
    error comes with 0 and a range error with the nearest bound of int. *)
Definition maxUint64 : Z := (2 ^ 64 - 1)%Z.

Inductive NumError : Type :=
  | ErrSyntax
  | ErrRange.

Inductive parsed : Type :=
  | PSyntax
  | PRange
  | PVal (n : Z).

Definition digitVal (c : ascii) : Z := (Z.of_nat (nat_of_ascii c) - 48)%Z.

Fixpoint parseDigits (n : Z) (s : string) : parsed :=
  match s with
  | EmptyString => PVal n
  | String c s' =>
      if isDigit c then
        if (maxUint64 / 10 + 1 <=? n)%Z then PRange
        else
          let n1 := (n * 10 + digitVal c)%Z in
          if (maxUint64 <? n1)%Z then PRange else parseDigits n1 s'
      else PSyntax
  end.

Definition ParseUint (s : string) : parsed :=
  match s with
  | EmptyString => PSyntax
  | _ => parseDigits 0 s
  end.

Definition ParseInt (s : string) : Z * option NumError :=
  match s with
  | EmptyString => (0%Z, Some ErrSyntax)
  | String c s' =>
      let neg := Ascii.eqb c "-" in
      let digits := if Ascii.eqb c "+" || neg then s' else s in
      match ParseUint digits with
      | PSyntax => (0%Z, Some ErrSyntax)
      | PRange =>
          if neg then ((- 2 ^ 63)%Z, Some ErrRange) else ((2 ^ 63 - 1)%Z, Some ErrRange)
      | PVal un =>
          if negb neg && (2 ^ 63 <=? un)%Z then ((2 ^ 63 - 1)%Z, Some ErrRange)
          else if neg && (2 ^ 63 <? un)%Z then ((- 2 ^ 63)%Z, Some ErrRange)
          else (if neg then (- un)%Z else un, None)
      end
  end.

Definition Atoi (s : string) : Z * option NumError := ParseInt s.

(** ** The API types the aggregator reads and writes *)

Module networkingv1.

Record ServiceBackendPort : Type := mkServiceBackendPort {
  port_Name : string;
  port_Number : Z }.

Record IngressServiceBackend : Type := mkIngressServiceBackend {
  svc_Name : string;
  svc_Port : ServiceBackendPort }.

Record TypedLocalObjectReference : Type := mkTypedLocalObjectReference {
  res_APIGroup : option string;
  res_Kind : string;
  res_Name : string }.

Record IngressBackend : Type := mkIngressBackend {
  Service : option IngressServiceBackend;
  Resource : option TypedLocalObjectReference }.

Record HTTPIngressPath : Type := mkHTTPIngressPath {
  Path : string;
  PathType : option string;
  Backend : IngressBackend }.

Record HTTPIngressRuleValue : Type := mkHTTPIngressRuleValue {
  Paths : list HTTPIngressPath }.

Record IngressRule : Type := mkIngressRule {
  Host : string;
  HTTP : option HTTPIngressRuleValue }.

Record IngressTLS : Type := mkIngressTLS {
  Hosts : list string;
  SecretName : string }.

Record IngressSpec : Type := mkIngressSpec {
  IngressClassName : option string;
  DefaultBackend : option IngressBackend;
  TLS : list IngressTLS;
  Rules : list IngressRule }.

Record Ingress : Type := mkIngress {
  Name : string;
  Namespace : string;
  Annotations : gmap string string;
  Spec : IngressSpec }.

Definition PathTypePrefix : string := "Prefix".
Definition PathTypeExact : string := "Exact".

End networkingv1.

Definition AnnotationIngressClass : string := "kubernetes.io/ingress.class".

Module gatewayv1beta1.

Record GroupVersionKind : Type := mkGVK {
  gvk_Group : string;
  gvk_Version : string;
  gvk_Kind : string }.

Inductive PathMatchType : Type := PathMatchPathPrefix | PathMatchExact.
Inductive HeaderMatchType : Type := HeaderMatchExact | HeaderMatchRegularExpression.
Inductive ProtocolType : Type := HTTPProtocolType | HTTPSProtocolType.

Record HTTPPathMatch : Type := mkHTTPPathMatch {
  pm_Type : option PathMatchType;
  pm_Value : option string }.

Record HTTPHeaderMatch : Type := mkHTTPHeaderMatch {
  hm_Type : option HeaderMatchType;
  hm_Name : string;
  hm_Value : string }.

Record HTTPRouteMatch : Type := mkHTTPRouteMatch {
  m_Path : option HTTPPathMatch;
  m_Headers : list HTTPHeaderMatch }.

Record BackendRef : Type := mkBackendRef {
  br_Group : option string;
  br_Kind : option string;
  br_Name : string;
  br_Port : option Z;
  br_Weight : option Z }.

Record HTTPRouteRule : Type := mkHTTPRouteRule {
  Matches : list HTTPRouteMatch;
  BackendRefs : list BackendRef }.

(** The status of a route, which the source always sets to an empty list of
    parents, is left out. *)
Record HTTPRoute : Type := mkHTTPRoute {
  hr_GVK : GroupVersionKind;
  hr_Name : string;
  hr_Namespace : string;
  hr_ParentRefs : list string;
  hr_Hostnames : list string;
  hr_Rules : list HTTPRouteRule }.

Record GatewayTLSConfig : Type := mkGatewayTLSConfig {
  CertificateRefs : list string }.

Record Listener : Type := mkListener {
  l_Name : string;
  l_Hostname : option string;
  l_Port : Z;
  l_Protocol : option ProtocolType;
  l_TLS : option GatewayTLSConfig }.

Record Gateway : Type := mkGateway {
  gw_GVK : GroupVersionKind;
  gw_Namespace : string;
  gw_Name : string;
  gw_GatewayClassName : string;
  gw_Listeners : list Listener }.

End gatewayv1beta1.

Import networkingv1 gatewayv1beta1.

Definition gatewayGVK : GroupVersionKind :=
  mkGVK "gateway.networking.k8s.io" "v1beta1" "Gateway".

Definition httpRouteGVK : GroupVersionKind :=
  mkGVK "gateway.networking.k8s.io" "v1beta1" "HTTPRoute".

(** ** Errors *)

(** The three [fmt.Errorf] calls of the source, with the text each formats. *)
Inductive error : Type :=
  | UnsupportedPathType (pathType : string)
  | UnsupportedNamedPort (portName : string)
  | MalformedGatewayKey (gwKey : string).

Definition Error (e : error) : string :=
  match e with
  | UnsupportedPathType t => "Unsupported path match type: " +:+ t
  | UnsupportedNamedPort n => "Named ports not supported: " +:+ n
  | MalformedGatewayKey k => "Error generating Gateway listeners for key: " +:+ k
  end.

(** A Go result pair [(value, err)] of which exactly one part is set. *)
Inductive result (A : Type) : Type :=
  | Ok (a : A)
  | Err (e : error).
Arguments Ok {A} a.
Arguments Err {A} e.

(** ** The aggregator's own types *)

Abbreviation ruleGroupKey := string (only parsing).
Abbreviation pathMatchKey := string (only parsing).

Record canary : Type := mkCanary {
  enable : bool;
  headerKey : string;
  headerValue : string;
  headerRegexMatch : bool;
  weight : Z;
  weightTotal : Z }.

Record extra : Type := mkExtra {
  e_canary : option canary }.

Record ingressRule : Type := mkIngressRuleOf {
  ir_rule : IngressRule;
  ir_extra : option extra }.

Record ingressRuleGroup : Type := mkIngressRuleGroup {
  rg_namespace : string;
  rg_ingressClass : string;
  rg_host : string;
  rg_tls : list IngressTLS;
  rg_rules : list ingressRule }.

Record ingressDefaultBackend : Type := mkIngressDefaultBackend {
  db_name : string;
  db_namespace : string;
  db_ingressClass : string;
  db_backend : IngressBackend }.

Record ingressPath : Type := mkIngressPath {
  ip_path : HTTPIngressPath;
  ip_extra : option extra }.

Record ingressAggregator : Type := mkIngressAggregator {
  ruleGroups : gmap string ingressRuleGroup;
  defaultBackends : list ingressDefaultBackend }.

(** Modelled from the spec: the aggregator value that the caller of
    [addIngress], which is not part of the source file, constructs fresh for
    each run, with an empty map of rule groups and no default backend. *)
Definition emptyAggregator : ingressAggregator := mkIngressAggregator ∅ [].

(** ** Map iteration *)

(** The order in which one [range] statement visits the keys of a map. *)
Record Schedule : Type := mkSchedule {
  visit : list string -> list string;
  visit_perm : forall ks, visit ks ≡ₚ ks }.

Definition range {V : Type} (s : Schedule) (m : gmap string V) : list (string * V) :=
  omap (fun k => pair k <$> m !! k) (visit s (map_to_list m).*1).

(** The schedules of one run: of the rule groups, of the path partitions of
    each rule group, of the listeners by gateway key, of the gateways. *)
Record Oracle : Type := mkOracle {
  o_groups : Schedule;
  o_paths : ruleGroupKey -> Schedule;
  o_listeners : Schedule;
  o_gateways : Schedule }.

Definition inOrder : Schedule :=
  mkSchedule (fun ks => ks) (fun ks => Permutation_refl ks).

Definition reversed : Schedule :=
  mkSchedule (@rev string) (fun ks => Permutation_sym (Permutation_rev ks)).

Definition uniform (s : Schedule) : Oracle := mkOracle s (fun _ => s) s s.

(** Loops whose body can panic. *)
Fixpoint foldM {A B : Type} (f : B -> A -> option B) (b : B) (l : list A) : option B :=
  match l with
  | [] => Some b
  | x :: l' => match f b x with
               | Some b' => foldM f b' l'
               | None => None
               end
  end.

(** ** getExtra *)

Definition nonEmpty (s : string) : bool := negb (String.eqb s "").

(** [m[k]] on a map of strings: the empty string when the key is absent. *)
Definition annotation (ingress : Ingress) (k : string) : string :=
  default "" (Annotations ingress !! k).

Definition set_headerKey (v : string) (c : canary) : canary :=
  mkCanary (enable c) v (headerValue c) (headerRegexMatch c) (weight c) (weightTotal c).
Definition set_headerValue (v : string) (c : canary) : canary :=
  mkCanary (enable c) (headerKey c) v (headerRegexMatch c) (weight c) (weightTotal c).
Definition set_headerRegexMatch (v : bool) (c : canary) : canary :=
  mkCanary (enable c) (headerKey c) (headerValue c) v (weight c) (weightTotal c).
Definition set_weight (v : Z) (c : canary) : canary :=
  mkCanary (enable c) (headerKey c) (headerValue c) (headerRegexMatch c) v (weightTotal c).
Definition set_weightTotal (v : Z) (c : canary) : canary :=
  mkCanary (enable c) (headerKey c) (headerValue c) (headerRegexMatch c) (weight c) v.

Definition annCanary : string := "nginx.ingress.kubernetes.io/canary".
Definition annCanaryByHeader : string := "nginx.ingress.kubernetes.io/canary-by-header".
Definition annCanaryByHeaderValue : string := "nginx.ingress.kubernetes.io/canary-by-header-value".
Definition annCanaryByHeaderPattern : string :=
  "nginx.ingress.kubernetes.io/canary-by-header-pattern".
Definition annCanaryWeight : string := "nginx.ingress.kubernetes.io/canary-weight".
Definition annCanaryWeightTotal : string := "nginx.ingress.kubernetes.io/canary-weight-total".

Definition getExtra (ingress : Ingress) : extra :=
  let e := mkExtra None in
  if String.eqb (annotation ingress annCanary) "true" then
    let c := mkCanary true "" "" false 0 0 in
    let cHeader := annotation ingress annCanaryByHeader in
    let c := if nonEmpty cHeader
             then set_headerValue "always" (set_headerKey cHeader c) else c in
    let cHeaderVal := annotation ingress annCanaryByHeaderValue in
    let c := if nonEmpty cHeaderVal then set_headerValue cHeaderVal c else c in
    let cHeaderRegex := annotation ingress annCanaryByHeaderPattern in
    let c := if nonEmpty cHeaderRegex
             then set_headerRegexMatch true (set_headerValue cHeaderRegex c) else c in
    let cHeaderWeight := annotation ingress annCanaryWeight in
    let c := if nonEmpty cHeaderWeight
             then set_weightTotal 100 (set_weight (Atoi cHeaderWeight).1 c) else c in
    let cHeaderWeightTotal := annotation ingress annCanaryWeightTotal in
    let c := if nonEmpty cHeaderWeightTotal
             then set_weightTotal (Atoi cHeaderWeightTotal).1 c else c in
    mkExtra (Some c)
  else e.

(** ** addIngress and addIngressRule *)

Definition addIngressRule (a : ingressAggregator) (namespace ingressClass : string)
    (rule : IngressRule) (iSpec : IngressSpec) (e : option extra) : ingressAggregator :=
  let rgKey := Sprintf3 namespace ingressClass (Host rule) in
  let rg := match ruleGroups a !! rgKey with
            | Some rg => rg
            | None => mkIngressRuleGroup namespace ingressClass (Host rule) [] []
            end in
  let tls := if (0 <? length (TLS iSpec))%nat then rg_tls rg ++ TLS iSpec else rg_tls rg in
  let rg := mkIngressRuleGroup (rg_namespace rg) (rg_ingressClass rg) (rg_host rg) tls
              (rg_rules rg ++ [mkIngressRuleOf rule e]) in
  mkIngressAggregator (<[rgKey := rg]> (ruleGroups a)) (defaultBackends a).

(** The ingress class [addIngress] resolves for an Ingress. *)
Definition ingressClassOf (ingress : Ingress) : string :=
  match IngressClassName (Spec ingress) with
  | Some c =>
      if nonEmpty c then c
      else match Annotations ingress !! AnnotationIngressClass with
           | Some c' => c'
           | None => Name ingress
           end
  | None =>
      match Annotations ingress !! AnnotationIngressClass with
      | Some c' => c'
      | None => Name ingress
      end
  end.

Definition addIngress (a : ingressAggregator) (ingress : Ingress) : ingressAggregator :=
  let ingressClass := ingressClassOf ingress in
  let e := getExtra ingress in
  let a := foldl (fun a rule =>
                    addIngressRule a (Namespace ingress) ingressClass rule (Spec ingress) (Some e))
                 a (Rules (Spec ingress)) in
  match DefaultBackend (Spec ingress) with
  | Some backend =>
      mkIngressAggregator (ruleGroups a)
        (defaultBackends a ++
           [mkIngressDefaultBackend (Name ingress) (Namespace ingress) ingressClass backend])
  | None => a
  end.

(** Modelled from the spec: the loop of the caller, which is not part of the
    source file, that feeds the source objects to the aggregator one at a
    time, in the order of the input list. *)
Definition aggregate (ingresses : list Ingress) : ingressAggregator :=
  foldl addIngress emptyAggregator ingresses.

(** ** nameFromHost *)

Definition nameFromHost (host : string) : string :=
  let reg := ClassPlus false notAlnum in
  let step1 := ReplaceAllString reg host "-" in
  let reg2 := ClassPlus true notAlnum in
  let step2 := ReplaceAllString reg2 step1 "" in
  if (String.length host =? 0)%nat then "all-hosts" else step2.

(** ** toBackendRef, getPathMatchKey, toHTTPRouteMatch *)

Definition toBackendRef (ib : IngressBackend) : option (result BackendRef) :=
  match Service ib with
  | Some svc =>
      if nonEmpty (port_Name (svc_Port svc))
      then Some (Err (UnsupportedNamedPort (port_Name (svc_Port svc))))
      else Some (Ok (mkBackendRef None None (svc_Name svc)
                       (Some (port_Number (svc_Port svc))) None))
  | None =>
      match Resource ib with
      | Some res =>
          Some (Ok (mkBackendRef (res_APIGroup res) (Some (res_Kind res)) (res_Name res)
                      None None))
      | None => None
      end
  end.

Definition canaryOf (e : option extra) : option canary :=
  match e with
  | Some e => e_canary e
  | None => None
  end.

Definition getPathMatchKey (ip : ingressPath) : pathMatchKey :=
  let pathType := match PathType (ip_path ip) with
                  | Some t => t
                  | None => ""
                  end in
  let canaryHeaderKey := match canaryOf (ip_extra ip) with
                         | Some c => if nonEmpty (headerKey c) then headerKey c else ""
                         | None => ""
                         end in
  Sprintf3 pathType (Path (ip_path ip)) canaryHeaderKey.

Definition toHTTPRouteMatch (ip : ingressPath) : option (result HTTPRouteMatch) :=
  match PathType (ip_path ip) with
  | None => None
  | Some pathType =>
      let value := Some (Path (ip_path ip)) in
      let headers :=
        match canaryOf (ip_extra ip) with
        | Some c =>
            if nonEmpty (headerKey c) then
              [mkHTTPHeaderMatch
                 (Some (if headerRegexMatch c then HeaderMatchRegularExpression
                        else HeaderMatchExact))
                 (headerKey c) (headerValue c)]
            else []
        | None => []
        end in
      if String.eqb pathType PathTypePrefix then
        Some (Ok (mkHTTPRouteMatch
                    (Some (mkHTTPPathMatch (Some PathMatchPathPrefix) value)) headers))
      else if String.eqb pathType PathTypeExact then
        Some (Ok (mkHTTPRouteMatch
                    (Some (mkHTTPPathMatch (Some PathMatchExact) value)) headers))
      else Some (Err (UnsupportedPathType pathType))
  end.

(** ** toHTTPRoute *)

Definition set_br_Weight (w : option Z) (br : BackendRef) : BackendRef :=
  mkBackendRef (br_Group br) (br_Kind br) (br_Name br) (br_Port br) w.

(** The weight a path entry carries: [int32(path.extra.canary.weight)] when
    the extra, its canary and a non-zero weight are all there. *)
Definition canaryWeight (e : option extra) : option Z :=
  match canaryOf e with
  | Some c => if (weight c =? 0)%Z then None else Some (wrap32 (weight c))
  | None => None
  end.

(** The first loop of [toHTTPRoute]: one rule's paths filed under their
    path-match keys. *)
Definition addPath (e : option extra) (m : gmap string (list ingressPath))
    (path : HTTPIngressPath) : gmap string (list ingressPath) :=
  let ip := mkIngressPath path e in
  let pmKey := getPathMatchKey ip in
  <[pmKey := default [] (m !! pmKey) ++ [ip]]> m.

Definition collectPaths (m : gmap string (list ingressPath)) (ir : ingressRule)
    : option (gmap string (list ingressPath)) :=
  match HTTP (ir_rule ir) with
  | None => None
  | Some http => Some (foldl (addPath (ir_extra ir)) m (Paths http))
  end.

(** The loop over one partition's paths.  The state is the backend
    references so far, [numWeightedBackends], [totalWeightSet] and the
    errors. *)
Definition backendStep (st : list BackendRef * Z * Z * list error) (path : ingressPath)
    : option (list BackendRef * Z * Z * list error) :=
  let '(refs, numWeightedBackends, totalWeightSet, errors) := st in
  match toBackendRef (Backend (ip_path path)) with
  | None => None
  | Some (Err err) => Some (refs, numWeightedBackends, totalWeightSet, errors ++ [err])
  | Some (Ok backendRef) =>
      match canaryWeight (ip_extra path) with
      | Some weight =>
          Some (refs ++ [set_br_Weight (Some weight) backendRef],
                add32 numWeightedBackends 1, add32 totalWeightSet weight, errors)
      | None => Some (refs ++ [backendRef], numWeightedBackends, totalWeightSet, errors)
      end
  end.

Definition fillWeight (weightToSet : Z) (br : BackendRef) : BackendRef :=
  match br_Weight br with
  | None => set_br_Weight (Some weightToSet) br
  | Some _ => br
  end.

(** The redistribution that follows the loop over the paths. *)
Definition distribute (refs : list BackendRef) (numWeightedBackends totalWeightSet : Z)
    : option (list BackendRef) :=
  let len := wrap32 (Z.of_nat (length refs)) in
  if (0 <? numWeightedBackends)%Z && (numWeightedBackends <? len)%Z then
    match div32 (sub32 100 totalWeightSet) (sub32 len numWeightedBackends) with
    | Some weightToSet => Some (fillWeight weightToSet <$> refs)
    | None => None
    end
  else Some refs.

(** The body of the loop over the partitions.  The state is the errors and
    the rules of the route so far. *)
Definition ruleStep (st : list error * list HTTPRouteRule) (paths : list ingressPath)
    : option (list error * list HTTPRouteRule) :=
  let '(errors, rules) := st in
  match paths with
  | [] => None
  | first :: _ =>
      match toHTTPRouteMatch first with
      | None => None
      | Some (Err err) => Some (errors ++ [err], rules)
      | Some (Ok match_) =>
          match foldM backendStep ([], 0%Z, 0%Z, errors) paths with
          | None => None
          | Some (refs, numWeightedBackends, totalWeightSet, errors) =>
              match distribute refs numWeightedBackends totalWeightSet with
              | None => None
              | Some refs => Some (errors, rules ++ [mkHTTPRouteRule [match_] refs])
              end
          end
      end
  end.

Definition toHTTPRoute (s : Schedule) (rg : ingressRuleGroup)
    : option (HTTPRoute * list error) :=
  match foldM collectPaths ∅ (rg_rules rg) with
  | None => None
  | Some pathsByMatchGroup =>
      let parentRefs := if nonEmpty (rg_ingressClass rg) then [rg_ingressClass rg] else [] in
      let hostnames := if nonEmpty (rg_host rg) then [rg_host rg] else [] in
      match foldM ruleStep ([], []) (range s pathsByMatchGroup).*2 with
      | None => None
      | Some (errors, rules) =>
          Some (mkHTTPRoute httpRouteGVK (nameFromHost (rg_host rg)) (rg_namespace rg)
                  parentRefs hostnames rules, errors)
      end
  end.

(** ** toHTTPRoutesAndGateways *)

(** The listener a rule group contributes to its gateway. *)
Definition groupListener (rg : ingressRuleGroup) : option Listener :=
  let hostname :=
    if nonEmpty (rg_host rg) then Some (rg_host rg)
    else match rg_tls rg with
         | [tls0] => match Hosts tls0 with
                     | [h] => Some h
                     | _ => None
                     end
         | _ => None
         end in
  let tlsConfig := if (0 <? length (rg_tls rg))%nat then Some (mkGatewayTLSConfig []) else None in
  match foldM (fun (cfg : option GatewayTLSConfig) (tls : IngressTLS) =>
                 match cfg with
                 | Some c =>
                     Some (Some (mkGatewayTLSConfig (CertificateRefs c ++ [SecretName tls])))
                 | None => None
                 end) tlsConfig (rg_tls rg) with
  | Some tlsConfig => Some (mkListener "" hostname 0 None tlsConfig)
  | None => None
  end.

(** The body of the loop over the rule groups.  The route's errors go to
    the [errors] that [:=] declares inside the loop body; the [errors] of
    the function is not touched. *)
Definition groupStep (o : Oracle)
    (st : list HTTPRoute * list error * gmap string (list Listener))
    (entry : ruleGroupKey * ingressRuleGroup)
    : option (list HTTPRoute * list error * gmap string (list Listener)) :=
  let '(httpRoutes, errors, listenersByNamespacedGateway) := st in
  let rg := entry.2 in
  match groupListener rg with
  | None => None
  | Some listener =>
      let gwKey := Sprintf2 (rg_namespace rg) (rg_ingressClass rg) in
      let listenersByNamespacedGateway :=
        <[gwKey := default [] (listenersByNamespacedGateway !! gwKey) ++ [listener]]>
          listenersByNamespacedGateway in
      match toHTTPRoute (o_paths o entry.1) rg with
      | None => None
      | Some (httpRoute, errors_inner) =>
          let httpRoutes := httpRoutes ++ [httpRoute] in
          let errors_inner := errors_inner ++ errors_inner in
          Some (httpRoutes, errors, listenersByNamespacedGateway)
      end
  end.

(** The body of the loop over the default backends. *)
Definition defaultBackendStep (st : list HTTPRoute * list error) (db : ingressDefaultBackend)
    : option (list HTTPRoute * list error) :=
  let '(httpRoutes, errors) := st in
  let httpRoute (rules : list HTTPRouteRule) :=
    mkHTTPRoute httpRouteGVK (db_name db +:+ "-default-backend") (db_namespace db)
      [db_ingressClass db] [] rules in
  match toBackendRef (db_backend db) with
  | None => None
  | Some (Err err) => Some (httpRoutes ++ [httpRoute []], errors ++ [err])
  | Some (Ok backendRef) =>
      Some (httpRoutes ++ [httpRoute [mkHTTPRouteRule [] [backendRef]]], errors)
  end.

Definition set_gw_Listeners (ls : list Listener) (g : Gateway) : Gateway :=
  mkGateway (gw_GVK g) (gw_Namespace g) (gw_Name g) (gw_GatewayClassName g) ls.

(** The body of the loop over the listeners of one gateway key. *)
Definition listenerStep (gateway : Gateway) (listener : Listener) : Gateway :=
  let listenerNamePrefix :=
    match l_Hostname listener with
    | Some h => if nonEmpty h then nameFromHost h +:+ "-" else ""
    | None => ""
    end in
  let ls := gw_Listeners gateway ++
              [mkListener (listenerNamePrefix +:+ "http") (l_Hostname listener) 80
                 (Some HTTPProtocolType) None] in
  let ls := match l_TLS listener with
            | Some _ =>
                ls ++ [mkListener (listenerNamePrefix +:+ "https") (l_Hostname listener) 443
                         (Some HTTPSProtocolType) (l_TLS listener)]
            | None => ls
            end in
  set_gw_Listeners ls gateway.

(** The body of the loop over [listenersByNamespacedGateway]. *)
Definition gatewayStep (st : gmap string Gateway * list error)
    (entry : string * list Listener) : gmap string Gateway * list error :=
  let '(gatewaysByKey, errors) := st in
  let '(gwKey, listeners) := entry in
  match Split gwKey "/" with
  | [part0; part1] =>
      let gateway := match gatewaysByKey !! gwKey with
                     | Some gateway => gateway
                     | None => mkGateway gatewayGVK part0 part1 part1 []
                     end in
      let gateway := foldl listenerStep gateway listeners in
      (<[gwKey := gateway]> gatewaysByKey, errors)
  | _ => (gatewaysByKey, errors ++ [MalformedGatewayKey gwKey])
  end.

Definition toHTTPRoutesAndGateways (o : Oracle) (a : ingressAggregator)
    : option (list HTTPRoute * list Gateway * list error) :=
  match foldM (groupStep o) ([], [], ∅) (range (o_groups o) (ruleGroups a)) with
  | None => None
  | Some (httpRoutes, errors, listenersByNamespacedGateway) =>
      match foldM defaultBackendStep (httpRoutes, errors) (defaultBackends a) with
      | None => None
      | Some (httpRoutes, errors) =>
          let '(gatewaysByKey, errors) :=
            foldl gatewayStep (∅, errors)
              (range (o_listeners o) listenersByNamespacedGateway) in
          let gateways := (range (o_gateways o) gatewaysByKey).*2 in
          Some (httpRoutes, gateways, errors)
      end
  end.

(** Modelled from the spec: the full transformation as the caller, which is
    not part of the source file, runs it: once all source objects are
    consumed, [toHTTPRoutesAndGateways] on the aggregator. *)
Definition transform (o : Oracle) (ingresses : list Ingress)
    : option (list HTTPRoute * list Gateway * list error) :=
  toHTTPRoutesAndGateways o (aggregate ingresses).

(** * Definitions the statements are written with *)

(** ** The name sanitizer, as it is described *)

Definition joinStrings (l : list string) : string := foldr String.append "" l.

(** The maximal runs of a text, each with whether it is a separator run,
    that is, a run of characters outside [a-zA-Z0-9]. *)
Fixpoint runs (s : string) : list (bool * string) :=
  match s with
  | EmptyString => []
  | String c s' =>
      let sep := notAlnum c in
      match runs s' with
      | (b, r) :: rest =>
          if Bool.eqb b sep then (b, String c r) :: rest
          else (sep, String c "") :: (b, r) :: rest
      | [] => [(sep, String c "")]
      end
  end.

Fixpoint alternate (l : list (bool * string)) : Prop :=
  match l with
  | r1 :: (r2 :: _) as l' => r1.1 <> r2.1 /\ alternate l'
  | _ => True
  end.

Definition replaceRun (run : bool * string) : string :=
  if run.1 then "-" else run.2.

Definition stripLeadingRun (s : string) : string :=
  match runs s with
  | (true, _) :: rest => joinStrings rest.*2
  | _ => s
  end.

Definition allHosts : string := "all-hosts".

Definition sanitize_spec (host : string) : string :=
  if decide (host = "") then allHosts
  else stripLeadingRun (joinStrings (replaceRun <$> runs host)).

(** ** Sample source objects *)

Definition serviceBackend (name : string) (port : Z) : IngressBackend :=
  mkIngressBackend (Some (mkIngressServiceBackend name (mkServiceBackendPort "" port))) None.

Definition namedPortBackend (name portName : string) : IngressBackend :=
  mkIngressBackend (Some (mkIngressServiceBackend name (mkServiceBackendPort portName 0))) None.

Definition httpPath (path pathType : string) (backend : IngressBackend) : HTTPIngressPath :=
  mkHTTPIngressPath path (Some pathType) backend.

Definition httpRule (host : string) (paths : list HTTPIngressPath) : IngressRule :=
  mkIngressRule host (Some (mkHTTPIngressRuleValue paths)).

Definition ingressOf (name namespace class : string) (annotations : gmap string string)
    (rules : list IngressRule) : Ingress :=
  mkIngress name namespace annotations (mkIngressSpec (Some class) None [] rules).

(** An Ingress whose only canary annotation is the one that enables it. *)
Definition canaryOnly : Ingress :=
  ingressOf "web-canary" "default" "nginx" {[ annCanary := "true" ]}
    [httpRule "example.com" [httpPath "/" "Prefix" (serviceBackend "web-v2" 80)]].

(** An Ingress whose canary weight does not fit in a 64-bit int. *)
Definition canaryHugeWeight : Ingress :=
  ingressOf "web-canary" "default" "nginx"
    (<[ annCanary := "true" ]> (<[ annCanaryWeight := "99999999999999999999" ]> ∅))
    [httpRule "example.com" [httpPath "/" "Prefix" (serviceBackend "web-v2" 80)]].

(** An Ingress with every canary annotation set. *)
Definition canaryFull : Ingress :=
  ingressOf "web-canary" "default" "nginx"
    (<[ annCanary := "true" ]>
     (<[ annCanaryByHeader := "X-Canary" ]>
      (<[ annCanaryByHeaderValue := "yes" ]>
       (<[ annCanaryByHeaderPattern := "y.*" ]>
        (<[ annCanaryWeight := "30" ]>
         (<[ annCanaryWeightTotal := "200" ]> ∅))))))
    [httpRule "example.com" [httpPath "/" "Prefix" (serviceBackend "web-v2" 80)]].

(** ** Weights of the backends of one route rule *)

(** The entries of a partition whose backend resolves, each with the backend
    reference and the explicit weight it carries, in the order of the
    partition. *)
Definition resolved (paths : list ingressPath) : list (BackendRef * option Z) :=
  omap (fun p => match toBackendRef (Backend (ip_path p)) with
                 | Some (Ok br) => Some (br, canaryWeight (ip_extra p))
                 | _ => None
                 end) paths.

Definition explicitWeights (paths : list ingressPath) : list Z :=
  omap snd (resolved paths).

Definition sumZ (ws : list Z) : Z := foldr Z.add 0%Z ws.

(** A backend reference with its explicit weight, or with [w] without one. *)
Definition weighted (w : option Z) (entry : BackendRef * option Z) : BackendRef :=
  set_br_Weight (match entry.2 with
                 | Some x => Some x
                 | None => w
                 end) entry.1.

(** The weights of the backends of the rule built from one partition. *)
Definition weightsOf (paths : list ingressPath) : option (list (option Z)) :=
  match ruleStep ([], []) paths with
  | Some (_, [rule]) => Some (br_Weight <$> BackendRefs rule)
  | _ => None
  end.

Definition canaryWithWeight (w : Z) : option extra :=
  Some (mkExtra (Some (mkCanary true "" "" false w 100))).

(** A path entry for "/" with the canary weight [w] of its source object. *)
Definition weightedPath (service : string) (w : Z) : ingressPath :=
  mkIngressPath (httpPath "/" "Prefix" (serviceBackend service 80)) (canaryWithWeight w).

(** A path entry for "/" of a source object without canary annotations. *)
Definition plainPath (service : string) : ingressPath :=
  mkIngressPath (httpPath "/" "Prefix" (serviceBackend service 80)) (Some (mkExtra None)).

(** ** Source objects whose translation reports an error *)

(** One rule, one path of a path type that is neither Prefix nor Exact. *)
Definition unsupportedPathIngress : Ingress :=
  ingressOf "web" "default" "nginx" ∅
    [httpRule "example.com"
       [httpPath "/" "ImplementationSpecific" (serviceBackend "web" 80)]].

(** One rule, two paths of one partition, the first with a named port. *)
Definition namedPortIngress : Ingress :=
  ingressOf "web" "default" "nginx" ∅
    [httpRule "example.com"
       [httpPath "/" "Prefix" (namedPortBackend "web" "http");
        httpPath "/" "Prefix" (serviceBackend "web-b" 80)]].

(** Where an error of the returned list can come from: the key of a gateway
    or the backend of a default backend. *)
Definition returnedErrorOrigin (a : ingressAggregator) (e : error) : Prop :=
  (exists gwKey, e = MalformedGatewayKey gwKey) \/
  (exists db, db ∈ defaultBackends a /\ toBackendRef (db_backend db) = Some (Err e)).

(** ** The partitions of a rule group *)

(** The path entries of a rule group by path-match key: what the first loop
    of [toHTTPRoute] leaves in [pathsByMatchGroup]. *)
Definition partitions (rg : ingressRuleGroup) : option (gmap string (list ingressPath)) :=
  foldM collectPaths ∅ (rg_rules rg).

(** A rule group with one rule, which has no HTTP section. *)
Definition groupWithoutHTTP : ingressRuleGroup :=
  mkIngressRuleGroup "default" "nginx" "example.com" []
    [mkIngressRuleOf (mkIngressRule "example.com" None) (Some (mkExtra None))].

(** A rule group with one rule, whose one path has no path type. *)
Definition groupWithoutPathType : ingressRuleGroup :=
  mkIngressRuleGroup "default" "nginx" "example.com" []
    [mkIngressRuleOf
       (httpRule "example.com" [mkHTTPIngressPath "/" None (serviceBackend "web" 80)])
       (Some (mkExtra None))].

(** ** Source rules and the groups they are placed in *)

(** One rule of one source object, with what [addIngress] hands to
    [addIngressRule] for it. *)
Record sourceRule : Type := mkSourceRule {
  sr_namespace : string;
  sr_ingressClass : string;
  sr_rule : IngressRule;
  sr_spec : IngressSpec;
  sr_extra : option extra }.

Definition sourceRulesOf (ingress : Ingress) : list sourceRule :=
  (fun rule => mkSourceRule (Namespace ingress) (ingressClassOf ingress) rule (Spec ingress)
                 (Some (getExtra ingress))) <$> Rules (Spec ingress).

(** The source rules of a run, in the order they are ingested. *)
Definition sourceRules (ingresses : list Ingress) : list sourceRule :=
  ingresses ≫= sourceRulesOf.

(** The (namespace, ingress-class, host) tuple of a source rule and the
    grouping key [addIngressRule] computes from it. *)
Definition tupleOf (sr : sourceRule) : string * string * string :=
  (sr_namespace sr, sr_ingressClass sr, Host (sr_rule sr)).

Definition keyOf (sr : sourceRule) : ruleGroupKey :=
  Sprintf3 (sr_namespace sr) (sr_ingressClass sr) (Host (sr_rule sr)).

Definition entryOf (sr : sourceRule) : ingressRule :=
  mkIngressRuleOf (sr_rule sr) (sr_extra sr).

Definition addSourceRule (a : ingressAggregator) (sr : sourceRule) : ingressAggregator :=
  addIngressRule a (sr_namespace sr) (sr_ingressClass sr) (sr_rule sr) (sr_spec sr)
    (sr_extra sr).

(** The rules of the rule group found under a key, none without a group. *)
Definition rulesAt (a : ingressAggregator) (k : ruleGroupKey) : list ingressRule :=
  match ruleGroups a !! k with
  | Some rg => rg_rules rg
  | None => []
  end.

(** A source rule of a run: rule [j] of source object [n]. *)
Definition sourceRuleAt (ingresses : list Ingress) (n j : nat) : option sourceRule :=
  ingresses !! n ≫= fun ingress => sourceRulesOf ingress !! j.

(** The aggregator when the run comes to that rule: after [addIngress] for
    the source objects before [n] and, in the loop of [addIngress] for
    object [n], after [addIngressRule] for the rules before [j]. *)
Definition stateBefore (ingresses : list Ingress) (n j : nat) : ingressAggregator :=
  foldl addSourceRule (aggregate (take n ingresses))
    (take j (default [] (sourceRulesOf <$> ingresses !! n))).

(** The rule is placed in the rule group of key [k] when the call of
    [addIngressRule] for it appends its entry to the rules found under [k],
    and the run ends with the entry at that place of the group.  The key
    is read off what the call does to the aggregator, not computed from the
    rule. *)
Definition placedIn (ingresses : list Ingress) (n j : nat) (k : ruleGroupKey) : Prop :=
  exists sr, sourceRuleAt ingresses n j = Some sr /\
    let a := stateBefore ingresses n j in
    rulesAt (addSourceRule a sr) k = rulesAt a k ++ [entryOf sr] /\
    rulesAt (aggregate ingresses) k !! length (rulesAt a k) = Some (entryOf sr).

Definition sameGroup (ingresses : list Ingress) (n1 j1 n2 j2 : nat) : Prop :=
  exists k, placedIn ingresses n1 j1 k /\ placedIn ingresses n2 j2 k.

Fixpoint hasSlash (s : string) : bool :=
  match s with
  | EmptyString => false
  | String c s' => Ascii.eqb c "/" || hasSlash s'
  end.

(** Neither the namespace nor the ingress class has a slash in it. *)
Definition slashFree (sr : sourceRule) : Prop :=
  hasSlash (sr_namespace sr) = false /\ hasSlash (sr_ingressClass sr) = false.

(** The group [addIngressRule] leaves under the key of a source rule. *)
Definition extend (og : option ingressRuleGroup) (sr : sourceRule) : ingressRuleGroup :=
  let rg := default (mkIngressRuleGroup (sr_namespace sr) (sr_ingressClass sr)
                       (Host (sr_rule sr)) [] []) og in
  mkIngressRuleGroup (rg_namespace rg) (rg_ingressClass rg) (rg_host rg)
    (rg_tls rg ++ TLS (sr_spec sr)) (rg_rules rg ++ [entryOf sr]).

(** The rule group that a non-empty list of source rules of one key builds. *)
Definition groupOf (srs : list sourceRule) : option ingressRuleGroup :=
  match srs with
  | [] => None
  | sr :: _ =>
      Some (mkIngressRuleGroup (sr_namespace sr) (sr_ingressClass sr) (Host (sr_rule sr))
              (srs ≫= (fun sr => TLS (sr_spec sr))) (entryOf <$> srs))
  end.

(** Two source objects whose tuples differ and whose keys are the same. *)
Definition slashInNamespace : Ingress :=
  ingressOf "shop" "team/blue" "nginx" ∅
    [httpRule "example.com" [httpPath "/" "Prefix" (serviceBackend "shop" 80)]].

Definition slashInClass : Ingress :=
  ingressOf "blog" "team" "blue/nginx" ∅
    [httpRule "example.com" [httpPath "/blog" "Prefix" (serviceBackend "blog" 80)]].

Definition tupleOfGroup (rg : ingressRuleGroup) : string * string * string :=
  (rg_namespace rg, rg_ingressClass rg, rg_host rg).

(** ** Listeners and gateways *)

Definition gwKeyOf (rg : ingressRuleGroup) : string :=
  Sprintf2 (rg_namespace rg) (rg_ingressClass rg).

(** The hostname of the listener of a rule group: its host, or the one host
    of its one TLS entry when the host is empty. *)
Definition hostnameOf (rg : ingressRuleGroup) : option string :=
  if nonEmpty (rg_host rg) then Some (rg_host rg)
  else match rg_tls rg with
       | [tls0] => match Hosts tls0 with
                   | [h] => Some h
                   | _ => None
                   end
       | _ => None
       end.

(** The TLS configuration of the listener of a rule group: one certificate
    reference for each TLS entry, none when the group has no TLS entry. *)
Definition tlsConfigOf (rg : ingressRuleGroup) : option GatewayTLSConfig :=
  match rg_tls rg with
  | [] => None
  | tls => Some (mkGatewayTLSConfig (SecretName <$> tls))
  end.

Definition listenerOf (rg : ingressRuleGroup) : Listener :=
  mkListener "" (hostnameOf rg) 0 None (tlsConfigOf rg).

Definition listenerNamePrefix (hostname : option string) : string :=
  match hostname with
  | Some h => if nonEmpty h then nameFromHost h +:+ "-" else ""
  | None => ""
  end.

(** The listeners of a gateway that one accumulated listener expands to:
    the HTTP listener on port 80 and, with a TLS configuration, the HTTPS
    listener on port 443 that carries it. *)
Definition expandListener (l : Listener) : list Listener :=
  mkListener (listenerNamePrefix (l_Hostname l) +:+ "http") (l_Hostname l) 80
    (Some HTTPProtocolType) None ::
  match l_TLS l with
  | Some _ => [mkListener (listenerNamePrefix (l_Hostname l) +:+ "https") (l_Hostname l) 443
                 (Some HTTPSProtocolType) (l_TLS l)]
  | None => []
  end.

(** The listeners a rule group contributes to its gateway. *)
Definition listenersOfGroup (rg : ingressRuleGroup) : list Listener :=
  mkListener (listenerNamePrefix (hostnameOf rg) +:+ "http") (hostnameOf rg) 80
    (Some HTTPProtocolType) None ::
  match rg_tls rg with
  | [] => []
  | tls => [mkListener (listenerNamePrefix (hostnameOf rg) +:+ "https") (hostnameOf rg) 443
              (Some HTTPSProtocolType) (Some (mkGatewayTLSConfig (SecretName <$> tls)))]
  end.

(** The update of [listenersByNamespacedGateway] in the loop over the rule
    groups. *)
Definition addListener (m : gmap string (list Listener)) (entry : string * Listener)
    : gmap string (list Listener) :=
  <[entry.1 := default [] (m !! entry.1) ++ [entry.2]]> m.

(** The gateway built for one gateway key, when the key has two parts. *)
Definition gatewayFor (gwKey : string) (listeners : list Listener) : option Gateway :=
  match Split gwKey "/" with
  | [part0; part1] =>
      Some (mkGateway gatewayGVK part0 part1 part1 (listeners ≫= expandListener))
  | _ => None
  end.

(** The rule groups of a run, in the order the loop over them visits
    them. *)
Definition visitedGroups (o : Oracle) (a : ingressAggregator) : list ingressRuleGroup :=
  (range (o_groups o) (ruleGroups a)).*2.

(** Those of them that belong to a gateway. *)
Definition groupsOfGateway (o : Oracle) (a : ingressAggregator) (g : Gateway)
    : list ingressRuleGroup :=
  filter (fun rg => (rg_namespace rg, rg_ingressClass rg) = (gw_Namespace g, gw_Name g))
    (visitedGroups o a).

(** Two source objects of one namespace and ingress class and of two
    hosts. *)
Definition shopIngress : Ingress :=
  ingressOf "shop" "default" "nginx" ∅
    [httpRule "shop.example.com" [httpPath "/" "Prefix" (serviceBackend "shop" 80)]].

Definition blogIngress : Ingress :=
  ingressOf "blog" "default" "nginx" ∅
    [httpRule "blog.example.com" [httpPath "/" "Prefix" (serviceBackend "blog" 80)]].

(** ** Outputs up to order *)

(** Two lists with the same elements up to [R] and up to their order. *)
Definition permUpTo {A : Type} (R : relation A) (l1 l2 : list A) : Prop :=
  exists l, l1 ≡ₚ l /\ Forall2 R l l2.

(** The same route up to the order of its rules. *)
Definition routeUpToOrder (r1 r2 : HTTPRoute) : Prop :=
  hr_GVK r1 = hr_GVK r2 /\ hr_Name r1 = hr_Name r2 /\ hr_Namespace r1 = hr_Namespace r2 /\
  hr_ParentRefs r1 = hr_ParentRefs r2 /\ hr_Hostnames r1 = hr_Hostnames r2 /\
  hr_Rules r1 ≡ₚ hr_Rules r2.

(** The same gateway up to the order of its listeners. *)
Definition gatewayUpToOrder (g1 g2 : Gateway) : Prop :=
  gw_GVK g1 = gw_GVK g2 /\ gw_Namespace g1 = gw_Namespace g2 /\ gw_Name g1 = gw_Name g2 /\
  gw_GatewayClassName g1 = gw_GatewayClassName g2 /\
  gw_Listeners g1 ≡ₚ gw_Listeners g2.

(** What one iteration of the loop over the rule groups adds: the route of
    the group, and its listener under the key of its gateway. *)
Definition groupOutput (o : Oracle) (entry : ruleGroupKey * ingressRuleGroup)
    : option (HTTPRoute * (string * Listener)) :=
  match toHTTPRoute (o_paths o entry.1) entry.2 with
  | Some (route, _) => Some (route, (gwKeyOf entry.2, listenerOf entry.2))
  | None => None
  end.

(** What one iteration of the loop over the default backends adds. *)
Definition defaultBackendOutput (db : ingressDefaultBackend)
    : option (list HTTPRoute * list error) :=
  defaultBackendStep ([], []) db.

(** Whether a gateway key splits in two parts. *)
Definition twoParts (gwKey : string) : bool :=
  match Split gwKey "/" with
  | [_; _] => true
  | _ => false
  end.

(** The listeners by gateway key that the loop over the rule groups leaves,
    for the rule groups in the order they were visited. *)
Definition listenersByKey (rgs : list ingressRuleGroup) : gmap string (list Listener) :=
  foldl addListener ∅ ((fun rg => (gwKeyOf rg, listenerOf rg)) <$> rgs).

(** The transformation, loop by loop. *)
Definition transformOutputs (o : Oracle) (a : ingressAggregator)
    : option (list HTTPRoute * list Gateway * list error) :=
  let G := range (o_groups o) (ruleGroups a) in
  match mapM (groupOutput o) G with
  | None => None
  | Some outs =>
      match mapM defaultBackendOutput (defaultBackends a) with
      | None => None
      | Some douts =>
          let r := foldl gatewayStep (∅, concat douts.*2)
                     (range (o_listeners o) (listenersByKey G.*2)) in
          Some (outs.*1 ++ concat douts.*1, (range (o_gateways o) r.1).*2, r.2)
      end
  end.

(** The gateway of a gateway key, for the rule groups in the order they
    were visited. *)
Definition gatewayAt (rgs : list ingressRuleGroup) (k : string) : option Gateway :=
  match filter (fun rg => gwKeyOf rg = k) rgs with
  | [] => None
  | rg :: rest => gatewayFor k (listenerOf <$> rg :: rest)
  end.

(** Two runs agree up to the order of the routes and of their rules, of the
    gateways and of their listeners, and of the errors. *)
Definition agreeUpToOrder (r1 r2 : list HTTPRoute * list Gateway * list error) : Prop :=
  permUpTo routeUpToOrder r1.1.1 r2.1.1 /\
  permUpTo gatewayUpToOrder r1.1.2 r2.1.2 /\
  r1.2 ≡ₚ r2.2.

(** ** Source objects on which the transformation does not panic *)

Definition resolvable (b : IngressBackend) : Prop :=
  is_Some (Service b) \/ is_Some (Resource b).

Definition completePath (p : HTTPIngressPath) : Prop :=
  is_Some (PathType p) /\ resolvable (Backend p).

Definition completeRule (r : IngressRule) : Prop :=
  exists http, HTTP r = Some http /\ Forall completePath (Paths http).

Definition completeIngress (i : Ingress) : Prop :=
  Forall completeRule (Rules (Spec i)) /\
  (forall b, DefaultBackend (Spec i) = Some b -> resolvable b).

(** Every partition has an entry, and every entry a path type and a
    backend that resolves. *)
Definition completePartitions (m : gmap string (list ingressPath)) : Prop :=
  map_Forall (fun _ paths => paths <> [] /\
                Forall (fun ip => completePath (ip_path ip)) paths) m.

(** * Definitions for further properties of the code *)

(** ** Shape of a sanitized name *)

Fixpoint allChars (P : ascii -> bool) (s : string) : bool :=
  match s with
  | EmptyString => true
  | String c s' => P c && allChars P s'
  end.

Definition isDash (c : ascii) : bool := Ascii.eqb c "-".

(** The characters of a sanitized name: [a-zA-Z0-9] and the dash. *)
Definition nameChar (c : ascii) : bool := isAlnum c || isDash c.

Definition startsWithDash (s : string) : bool :=
  match s with
  | EmptyString => false
  | String c _ => isDash c
  end.

(** Whether two dashes follow each other somewhere in the text. *)
Fixpoint hasDoubleDash (s : string) : bool :=
  match s with
  | EmptyString => false
  | String c s' => (isDash c && startsWithDash s') || hasDoubleDash s'
  end.

(** ** The aggregator between two calls *)

(** Every rule group is filed under the key of its own namespace, ingress
    class and host, and has at least one rule. *)
Definition groupInvariant (a : ingressAggregator) : Prop :=
  map_Forall (fun k rg =>
                rg_rules rg <> [] /\
                Sprintf3 (rg_namespace rg) (rg_ingressClass rg) (rg_host rg) = k)
             (ruleGroups a).

(** The rules and the TLS entries of all rule groups together. *)
Definition allRules (a : ingressAggregator) : list ingressRule :=
  (map_to_list (ruleGroups a)).*2 ≫= rg_rules.

Definition allTLS (a : ingressAggregator) : list IngressTLS :=
  (map_to_list (ruleGroups a)).*2 ≫= rg_tls.

(** The default backend entry that [addIngress] appends for an Ingress. *)
Definition defaultBackendOf (ingress : Ingress) : option ingressDefaultBackend :=
  mkIngressDefaultBackend (Name ingress) (Namespace ingress) (ingressClassOf ingress)
    <$> DefaultBackend (Spec ingress).

(** Two source objects of one host, the first with a TLS entry and a
    default backend. *)
Definition tlsIngress : Ingress :=
  mkIngress "shop" "default" ∅
    (mkIngressSpec (Some "nginx") (Some (serviceBackend "fallback" 8080))
       [mkIngressTLS ["shop.example.com"] "shop-cert"]
       [httpRule "shop.example.com" [httpPath "/" "Prefix" (serviceBackend "shop" 80)];
        httpRule "shop.example.com" [httpPath "/cart" "Exact" (serviceBackend "cart" 80)]]).

(** ** Path entries and partitions *)

(** The path entries that the first loop of [toHTTPRoute] builds from one
    rule of a group, and from all its rules, in the order it meets them. *)
Definition pathEntriesOf (ir : ingressRule) : list ingressPath :=
  match HTTP (ir_rule ir) with
  | Some http => (fun path => mkIngressPath path (ir_extra ir)) <$> Paths http
  | None => []
  end.

Definition pathEntries (rg : ingressRuleGroup) : list ingressPath :=
  rg_rules rg ≫= pathEntriesOf.

(** What a map of lists holds under a key once [l] was appended there
    entry by entry. *)
Definition appendTo {A : Type} (o : option (list A)) (l : list A) : option (list A) :=
  match l with
  | [] => o
  | _ :: _ => Some (default [] o ++ l)
  end.

(** The error [toBackendRef] reports for the backend of a path entry. *)
Definition backendError (ip : ingressPath) : option error :=
  match toBackendRef (Backend (ip_path ip)) with
  | Some (Err e) => Some e
  | _ => None
  end.

Definition isPathTypeError (e : error) : bool :=
  match e with
  | UnsupportedPathType _ => true
  | _ => false
  end.

(** The path types [toHTTPRouteMatch] translates. *)
Definition supported (pathType : string) : bool :=
  String.eqb pathType PathTypePrefix || String.eqb pathType PathTypeExact.

(** What the body of the loop over the partitions needs of a partition: a
    first entry with a path type and, when that path type is translated,
    backends that are a service or a resource. *)
Definition servable (paths : list ingressPath) : Prop :=
  exists first rest pathType,
    paths = first :: rest /\ PathType (ip_path first) = Some pathType /\
    (supported pathType = true ->
     Forall (fun ip => resolvable (Backend (ip_path ip))) paths).

(** A rule group of two source objects: the stable one with two paths, and
    a canary with the weight 30 for the first of them. *)
Definition canaryGroup : ingressRuleGroup :=
  mkIngressRuleGroup "default" "nginx" "example.com" []
    [mkIngressRuleOf
       (httpRule "example.com"
          [httpPath "/" "Prefix" (serviceBackend "web" 80);
           httpPath "/api" "Exact" (serviceBackend "api" 8080)])
       (Some (mkExtra None));
     mkIngressRuleOf
       (httpRule "example.com" [httpPath "/" "Prefix" (serviceBackend "web-canary" 80)])
       (canaryWithWeight 30)].

(** ** What a path-match key stands for *)

(** The header name that [getPathMatchKey] and [toHTTPRouteMatch] read off
    a path entry. *)
Definition canaryHeaderKeyOf (ip : ingressPath) : string :=
  match canaryOf (ip_extra ip) with
  | Some c => headerKey c
  | None => ""
  end.

Definition pathTuple (ip : ingressPath) : string * string * string :=
  (default "" (PathType (ip_path ip)), Path (ip_path ip), canaryHeaderKeyOf ip).

(** Neither the path type nor the canary header name has a slash in it. *)
Definition plainKeyParts (ip : ingressPath) : Prop :=
  hasSlash (default "" (PathType (ip_path ip))) = false /\
  hasSlash (canaryHeaderKeyOf ip) = false.

(** The header match that the canary annotations of a source object ask
    for. *)
Definition canaryHeaderMatches (ingress : Ingress) : list HTTPHeaderMatch :=
  if String.eqb (annotation ingress annCanary) "true"
     && nonEmpty (annotation ingress annCanaryByHeader)
  then [mkHTTPHeaderMatch
          (Some (if nonEmpty (annotation ingress annCanaryByHeaderPattern)
                 then HeaderMatchRegularExpression else HeaderMatchExact))
          (annotation ingress annCanaryByHeader)
          (if nonEmpty (annotation ingress annCanaryByHeaderPattern)
           then annotation ingress annCanaryByHeaderPattern
           else if nonEmpty (annotation ingress annCanaryByHeaderValue)
           then annotation ingress annCanaryByHeaderValue
           else "always")]
  else [].

(** ** The canary fields that the route builder reads *)

(** An extra with its [enable] and [weightTotal] reset. *)
Definition readFields (e : option extra) : option extra :=
  match e with
  | Some (mkExtra (Some c)) =>
      Some (mkExtra (Some (mkCanary false (headerKey c) (headerValue c)
                             (headerRegexMatch c) (weight c) 0)))
  | _ => e
  end.

Definition readFieldsOfRule (ir : ingressRule) : ingressRule :=
  mkIngressRuleOf (ir_rule ir) (readFields (ir_extra ir)).

Definition readFieldsOfPath (ip : ingressPath) : ingressPath :=
  mkIngressPath (ip_path ip) (readFields (ip_extra ip)).

Definition readFieldsOfGroup (rg : ingressRuleGroup) : ingressRuleGroup :=
  mkIngressRuleGroup (rg_namespace rg) (rg_ingressClass rg) (rg_host rg) (rg_tls rg)
    (readFieldsOfRule <$> rg_rules rg).

(** The group [canaryGroup] of a canary with another weight total. *)
Definition canaryGroupOfTotal (total : Z) : ingressRuleGroup :=
  mkIngressRuleGroup "default" "nginx" "example.com" []
    [mkIngressRuleOf
       (httpRule "example.com"
          [httpPath "/" "Prefix" (serviceBackend "web" 80);
           httpPath "/api" "Exact" (serviceBackend "api" 8080)])
       (Some (mkExtra None));
     mkIngressRuleOf
       (httpRule "example.com" [httpPath "/" "Prefix" (serviceBackend "web-canary" 80)])
       (Some (mkExtra (Some (mkCanary true "" "" false 30 total))))].

(** A canary by header: requests with the header go to the canary. *)
Definition canaryByHeader : Ingress :=
  ingressOf "web-canary" "default" "nginx"
    {[ annCanary := "true"; annCanaryByHeader := "X-Canary" ]}
    [httpRule "example.com" [httpPath "/" "Prefix" (serviceBackend "web-v2" 80)]].

(** ** The outputs of a run *)

(** The error [toBackendRef] reports for a default backend. *)
Definition defaultBackendError (db : ingressDefaultBackend) : option error :=
  match toBackendRef (db_backend db) with
  | Some (Err e) => Some e
  | _ => None
  end.

(** The namespace, the name and the parent references of a route, and what
    they are for the route of a rule group and of a default backend. *)
Definition routeMeta (r : HTTPRoute) : string * string * list string :=
  (hr_Namespace r, hr_Name r, hr_ParentRefs r).

Definition groupRouteMeta (rg : ingressRuleGroup) : string * string * list string :=
  (rg_namespace rg, nameFromHost (rg_host rg),
   if nonEmpty (rg_ingressClass rg) then [rg_ingressClass rg] else []).

Definition defaultRouteMeta (db : ingressDefaultBackend) : string * string * list string :=
  (db_namespace db, db_name db +:+ "-default-backend", [db_ingressClass db]).

(** The prefix of the listener names of a rule group. *)
Definition listenerPrefixOf (rg : ingressRuleGroup) : string :=
  listenerNamePrefix (hostnameOf rg).

(** A source object with nothing but a default backend, on a named port. *)
Definition defaultOnlyIngress : Ingress :=
  mkIngress "fallback" "default" ∅
    (mkIngressSpec (Some "nginx") (Some (namedPortBackend "fallback" "http")) [] []).

(** * Loops and map iteration *)

Section Range.

Context {V : Type}.
Implicit Types (s : Schedule) (m : gmap string V).

Lemma omap_lookup_keys m (l : list (string * V)) :
  (forall k v, (k, v) ∈ l -> m !! k = Some v) ->
  omap (fun k => pair k <$> m !! k) l.*1 = l.
Proof.
  induction l as [|[k v] l IH]; intros Hl; [done|].
  cbn [fmap list_fmap omap list_omap fst].
  rewrite (Hl k v) by constructor. cbn [fmap option_fmap option_map].
  f_equal. apply IH. intros k' v' Hin. apply Hl. by constructor.
Qed.

(** Whatever the schedule, a [range] visits every entry exactly once. *)
Lemma range_perm s m : range s m ≡ₚ map_to_list m.
Proof.
  unfold range. rewrite (visit_perm s).
  rewrite omap_lookup_keys; [done|].
  intros k v. apply elem_of_map_to_list.
Qed.

Lemma elem_of_range s m k v : (k, v) ∈ range s m <-> m !! k = Some v.
Proof. rewrite range_perm. apply elem_of_map_to_list. Qed.

Lemma NoDup_range_keys s m : NoDup (range s m).*1.
Proof. rewrite range_perm. apply NoDup_fst_map_to_list. Qed.

Lemma range_empty s : range s (∅ : gmap string V) = [].
Proof. apply Permutation_nil_r. rewrite range_perm. by rewrite map_to_list_empty. Qed.

Lemma range_schedules s1 s2 m : range s1 m ≡ₚ range s2 m.
Proof. by rewrite !range_perm. Qed.

End Range.

Section FoldM.

Context {A B : Type}.
Implicit Types (f : B -> A -> option B) (l : list A).

Lemma foldM_app f b l1 l2 :
  foldM f b (l1 ++ l2) =
  match foldM f b l1 with
  | Some b' => foldM f b' l2
  | None => None
  end.
Proof.
  revert b. induction l1 as [|x l1 IH]; intros b; [done|].
  simpl. destruct (f b x); [apply IH|done].
Qed.

(** A loop that ends has passed every iteration. *)
Lemma foldM_Some_steps f b l r :
  foldM f b l = Some r -> Forall (fun x => exists b', is_Some (f b' x)) l.
Proof.
  revert b. induction l as [|x l IH]; intros b H; [constructor|].
  simpl in H. destruct (f b x) as [b'|] eqn:E; [|done].
  constructor; [by exists b; eexists|by eapply IH].
Qed.

(** A loop one of whose iterations panics whatever the state panics. *)
Lemma foldM_None_step f b l x :
  x ∈ l -> (forall b', f b' x = None) -> foldM f b l = None.
Proof.
  intros Hx Hf. destruct (foldM f b l) eqn:E; [|done].
  apply foldM_Some_steps in E.
  apply (proj1 (Forall_forall _ _) E) in Hx as [b' [y Hy]].
  by rewrite Hf in Hy.
Qed.

End FoldM.

Section Accumulate.

(** Loops that only append to two lists. *)
Context {A X Y : Type} (g : A -> option (list X * list Y)).
Context (f : list X * list Y -> A -> option (list X * list Y)).
Hypothesis f_appends : forall st x,
  f st x = (fun d => (st.1 ++ d.1, st.2 ++ d.2)) <$> g x.

Lemma foldM_appends st (l : list A) :
  foldM f st l =
  (fun ds => (st.1 ++ concat ds.*1, st.2 ++ concat ds.*2)) <$> mapM g l.
Proof.
  revert st. induction l as [|x l IH]; intros [xs ys].
  - simpl. by rewrite !app_nil_r.
  - cbn [foldM mapM]. rewrite f_appends.
    destruct (g x) as [[dx dy]|]; [|done].
    cbn [fmap option_fmap option_map mbind option_bind]. rewrite IH.
    destruct (mapM g l) as [ds|]; [|done].
    cbn [fmap option_fmap option_map mbind option_bind mret option_ret
         list_fmap fst snd concat].
    by rewrite !app_assoc.
Qed.

End Accumulate.

Section MapM.

Context {A B : Type} (g : A -> option B).

Lemma mapM_None_perm (l1 l2 : list A) :
  l1 ≡ₚ l2 -> mapM g l1 = None -> mapM g l2 = None.
Proof.
  intros Hp H1. destruct (mapM g l2) as [k|] eqn:E; [|done].
  assert (Hall : Forall (fun x => is_Some (g x)) l2).
  { apply mapM_is_Some. by eexists. }
  rewrite <- Hp in Hall. apply mapM_is_Some in Hall as [? ?]. congruence.
Qed.

Lemma mapM_Some_omap (l : list A) (k : list B) :
  mapM g l = Some k -> omap g l = k.
Proof.
  intros H. apply mapM_Some_1 in H.
  induction H as [|x y l k Hxy _ IH]; [done|].
  cbn [omap list_omap]. by rewrite Hxy, IH.
Qed.

Lemma mapM_Some_perm (l1 l2 : list A) (k1 k2 : list B) :
  l1 ≡ₚ l2 -> mapM g l1 = Some k1 -> mapM g l2 = Some k2 -> k1 ≡ₚ k2.
Proof.
  intros Hp H1 H2. apply mapM_Some_omap in H1, H2. subst.
  by apply omap_Permutation.
Qed.

End MapM.

(** * The name sanitizer *)

Section Sanitizer.

Implicit Types (s r : string) (c : ascii).

Lemma joinStrings_cons s (l : list string) :
  joinStrings (s :: l) = s +:+ joinStrings l.
Proof. reflexivity. Qed.

Lemma runs_nil s : runs s = [] -> s = "".
Proof.
  destruct s as [|c s]; [done|]. simpl.
  destruct (runs s) as [|[b r] rest]; [done|].
  by destruct (Bool.eqb b (notAlnum c)).
Qed.

(** The runs of a text, put back together, are the text. *)
Lemma runs_join s : joinStrings (runs s).*2 = s.
Proof.
  induction s as [|c s IH]; [done|]. simpl.
  destruct (runs s) as [|[b r] rest] eqn:E.
  - apply runs_nil in E. by subst.
  - destruct (Bool.eqb b (notAlnum c)); cbn in *; by rewrite <- IH.
Qed.

(** Every run is non-empty and made of one kind of character only. *)
Lemma runs_homogeneous s :
  Forall (fun run => run.2 <> "" /\
                     Forall (fun c => notAlnum c = run.1) (String.list_ascii_of_string run.2))
         (runs s).
Proof.
  induction s as [|c s IH]; [constructor|]. simpl.
  destruct (runs s) as [|[b r] rest].
  - repeat constructor; done.
  - destruct (Bool.eqb b (notAlnum c)) eqn:E.
    + apply Bool.eqb_prop in E. subst b.
      inversion_clear IH as [|? ? [_ Hr] Hrest].
      constructor; [|done]. split; [done|]. simpl. by constructor.
    + constructor; [|done]. split; [done|]. simpl. by repeat constructor.
  Qed.

(** Runs are maximal: two runs that follow each other differ in kind. *)
Lemma runs_alternate s : alternate (runs s).
Proof.
  induction s as [|c s IH]; [done|]. simpl.
  destruct (runs s) as [|[b r] rest]; [done|].
  destruct (Bool.eqb b (notAlnum c)) eqn:E.
  - destruct rest; [done|]. apply IH.
  - split; [|done]. simpl. apply Bool.eqb_false_iff in E. congruence.
Qed.

(** Step 1 of the source on the runs: a separator run gives one dash. *)
Lemma replaceRuns_runs (inRun : bool) s :
  replaceRuns notAlnum "-" inRun s =
  match runs s with
  | (true, _) :: rest =>
      (if inRun then "" else "-") +:+ joinStrings (replaceRun <$> rest)
  | l => joinStrings (replaceRun <$> l)
  end.
Proof.
  revert inRun. induction s as [|c s IH]; intros inRun; [done|]. simpl.
  destruct (notAlnum c) eqn:Hc.
  - rewrite !IH. destruct (runs s) as [|[[] r] rest]; simpl.
    + by destruct inRun.
    + by destruct inRun.
    + by destruct inRun.
  - rewrite IH. destruct (runs s) as [|[[] r] rest]; simpl; try done.
Qed.

(** Step 2 of the source strips the separator run the text starts with. *)
Lemma skipClass_runs s : skipClass notAlnum s = stripLeadingRun s.
Proof.
  unfold stripLeadingRun.
  induction s as [|c s IH]; [done|]. simpl.
  destruct (notAlnum c) eqn:Hc.
  - rewrite IH. destruct (runs s) as [|[[] r] rest] eqn:E; simpl.
    + apply runs_nil in E. by subst.
    + done.
    + rewrite <- (runs_join s) at 1. by rewrite E.
  - destruct (runs s) as [|[[] r] rest]; simpl; done.
Qed.

Lemma anchored_replace_skip s :
  ReplaceAllString (ClassPlus true notAlnum) s "" = skipClass notAlnum s.
Proof. destruct s as [|c s]; [done|]. simpl. by destruct (notAlnum c). Qed.

Lemma length_zero_empty s : (String.length s =? 0)%nat = bool_decide (s = "").
Proof. by destruct s. Qed.

End Sanitizer.

(** C9, as the code has it: the sanitizer returns the token for all hosts
    when the host is empty, and otherwise the host with every maximal run
    of characters outside [a-zA-Z0-9] replaced by one dash and the
    separator run at the start of that text stripped; in particular
    "foo.bar.com" gives "foo-bar-com", the empty host gives "all-hosts" and
    "-abc.de" gives "abc-de". *)
Theorem nameFromHost_sanitize :
  (forall host, nameFromHost host = sanitize_spec host) /\
  nameFromHost "foo.bar.com" = "foo-bar-com" /\
  nameFromHost "" = "all-hosts" /\
  nameFromHost "-abc.de" = "abc-de".
Proof.
  split; [|by vm_compute].
  intros host. unfold nameFromHost, sanitize_spec.
  rewrite length_zero_empty. destruct (decide (host = "")) as [->|Hne].
  - done.
  - rewrite bool_decide_eq_false_2 by done.
    rewrite anchored_replace_skip, skipClass_runs. f_equal.
    simpl. rewrite replaceRuns_runs.
    destruct (runs host) as [|[[] r] rest]; done.
Qed.

(** C9, as it is stated, fails: the host "all.hosts" is not empty and its
    sanitized name is the token for all hosts. *)
Lemma nameFromHost_token_of_nonempty_host :
  ~ (nameFromHost "all.hosts" = allHosts <-> "all.hosts" = "").
Proof. intros [H _]. by specialize (H eq_refl). Qed.

(** * The annotation extractor *)

Section Atoi.

Lemma ParseInt_error_value s :
  ((ParseInt s).2 = Some ErrSyntax -> (ParseInt s).1 = 0%Z) /\
  ((ParseInt s).2 = Some ErrRange ->
   (ParseInt s).1 = (2 ^ 63 - 1)%Z \/ (ParseInt s).1 = (- 2 ^ 63)%Z).
Proof.
  destruct s as [|c s]; [by split|]. unfold ParseInt.
  destruct (ParseUint _) as [| |un].
  - by split.
  - destruct (Ascii.eqb c "-"); simpl; split; by auto.
  - destruct (Ascii.eqb c "-"); simpl.
    + destruct (2 ^ 63 <? un)%Z; simpl; split; by auto.
    + destruct (2 ^ 63 <=? un)%Z; simpl; split; by auto.
Qed.

(** The value that comes with an error of [Atoi]: 0 with a syntax error, a
    bound of the 64-bit int with a range error. *)
Lemma Atoi_error_value s :
  ((Atoi s).2 = Some ErrSyntax -> (Atoi s).1 = 0%Z) /\
  ((Atoi s).2 = Some ErrRange ->
   (Atoi s).1 = (2 ^ 63 - 1)%Z \/ (Atoi s).1 = (- 2 ^ 63)%Z).
Proof. apply ParseInt_error_value. Qed.

Example Atoi_decimal : Atoi "30" = (30%Z, None) /\ Atoi "-12" = ((-12)%Z, None).
Proof. by vm_compute. Qed.

Example Atoi_syntax_error :
  Atoi "thirty" = (0%Z, Some ErrSyntax) /\ Atoi "" = (0%Z, Some ErrSyntax) /\
  Atoi "1_0" = (0%Z, Some ErrSyntax).
Proof. by vm_compute. Qed.

Example Atoi_range_error :
  Atoi "99999999999999999999" = ((2 ^ 63 - 1)%Z, Some ErrRange) /\
  Atoi "-99999999999999999999" = ((- 2 ^ 63)%Z, Some ErrRange).
Proof. by vm_compute. Qed.

End Atoi.

(** C7, as the code has it: for a source object whose canary annotation is
    "true" the extracted canary is enabled; its header key is the header-name
    annotation; its header value is the pattern annotation when that is
    non-empty, else the header-value annotation when that is non-empty, else
    "always" when the header-name annotation is non-empty; it matches by
    regular expression exactly when the pattern annotation is non-empty; its
    weight is the value Atoi returns for a non-empty weight annotation and 0
    without one, which is 0 when Atoi reports a syntax error and a bound of
    the 64-bit int when it reports a range error; its weight total is the
    value Atoi returns for a non-empty weight-total annotation, else 100
    when the weight annotation is non-empty, else 0. *)
Theorem getExtra_canary (ingress : Ingress) :
  annotation ingress annCanary = "true" ->
  exists c : canary,
    getExtra ingress = mkExtra (Some c) /\
    enable c = true /\
    headerKey c = annotation ingress annCanaryByHeader /\
    headerValue c =
      (if nonEmpty (annotation ingress annCanaryByHeaderPattern)
       then annotation ingress annCanaryByHeaderPattern
       else if nonEmpty (annotation ingress annCanaryByHeaderValue)
       then annotation ingress annCanaryByHeaderValue
       else if nonEmpty (annotation ingress annCanaryByHeader) then "always" else "") /\
    headerRegexMatch c = nonEmpty (annotation ingress annCanaryByHeaderPattern) /\
    weight c =
      (if nonEmpty (annotation ingress annCanaryWeight)
       then (Atoi (annotation ingress annCanaryWeight)).1 else 0%Z) /\
    ((Atoi (annotation ingress annCanaryWeight)).2 = Some ErrSyntax -> weight c = 0%Z) /\
    ((Atoi (annotation ingress annCanaryWeight)).2 = Some ErrRange ->
     nonEmpty (annotation ingress annCanaryWeight) = true /\
     (weight c = (2 ^ 63 - 1)%Z \/ weight c = (- 2 ^ 63)%Z)) /\
    weightTotal c =
      (if nonEmpty (annotation ingress annCanaryWeightTotal)
       then (Atoi (annotation ingress annCanaryWeightTotal)).1
       else if nonEmpty (annotation ingress annCanaryWeight) then 100%Z else 0%Z).
Proof.
  intros Hc. unfold getExtra. rewrite Hc. simpl String.eqb. cbv iota.
  eexists. split; [reflexivity|].
  assert (Hk : forall s, nonEmpty s = false -> s = "").
  { intros s Hs. unfold nonEmpty in Hs. apply negb_false_iff in Hs.
    by apply String.eqb_eq in Hs. }
  destruct (nonEmpty (annotation ingress annCanaryByHeader)) eqn:E1;
    destruct (nonEmpty (annotation ingress annCanaryByHeaderValue)) eqn:E2;
    destruct (nonEmpty (annotation ingress annCanaryByHeaderPattern)) eqn:E3;
    destruct (nonEmpty (annotation ingress annCanaryWeight)) eqn:E4;
    destruct (nonEmpty (annotation ingress annCanaryWeightTotal)) eqn:E5;
    cbn [enable headerKey headerValue headerRegexMatch weight weightTotal
         set_headerKey set_headerValue set_headerRegexMatch set_weight set_weightTotal];
    repeat split; try done;
    try (by symmetry; apply Hk);
    try (by apply Atoi_error_value);
    try (by intros Hrange; split; [done|apply Atoi_error_value]);
    try (by intros Hrange; apply Hk in E4; rewrite E4 in Hrange; vm_compute in Hrange).
  all: exfalso; apply Hk in E4;
    match goal with
    | Hrange : (Atoi _).2 = Some ErrRange |- _ => rewrite E4 in Hrange; by vm_compute in Hrange
    end.
Qed.

Lemma getExtra_canary_witness :
  exists c : canary,
    getExtra canaryFull = mkExtra (Some c) /\
    headerKey c = "X-Canary" /\ headerValue c = "y.*" /\ headerRegexMatch c = true /\
    weight c = 30%Z /\ weightTotal c = 200%Z.
Proof.
  destruct (getExtra_canary canaryFull) as (c & Hc & _ & Hk & Hv & Hr & Hw & _ & _ & Ht).
  - by vm_compute.
  - exists c. split; [exact Hc|].
    split; [rewrite Hk; by vm_compute|].
    split; [rewrite Hv; by vm_compute|].
    split; [rewrite Hr; by vm_compute|].
    split; [rewrite Hw; by vm_compute|].
    rewrite Ht; by vm_compute.
Defined.

(** C7, as it is stated, fails: with the canary enabled and neither the
    weight nor the weight-total annotation present, the weight total is 0,
    not 100; and a weight annotation that Atoi fails to parse for being out
    of range gives the weight 9223372036854775807, not 0. *)
Lemma getExtra_weightTotal_not_defaulted :
  (Annotations canaryOnly !! annCanary = Some "true" /\
   Annotations canaryOnly !! annCanaryWeightTotal = None /\
   ~ (weightTotal <$> e_canary (getExtra canaryOnly) = Some 100%Z)) /\
  (Annotations canaryHugeWeight !! annCanary = Some "true" /\
   (Atoi (annotation canaryHugeWeight annCanaryWeight)).2 = Some ErrRange /\
   ~ (weight <$> e_canary (getExtra canaryHugeWeight) = Some 0%Z)).
Proof. repeat split; by vm_compute. Qed.

(** * Weight distribution *)

Section Int32.

Local Open Scope Z_scope.

Lemma wrap32_range z : int32_range (wrap32 z).
Proof.
  unfold int32_range, wrap32.
  pose proof (Z.mod_pos_bound (z + 2 ^ 31) (2 ^ 32) ltac:(lia)). lia.
Qed.

Lemma wrap32_id z : int32_range z -> wrap32 z = z.
Proof.
  unfold int32_range, wrap32. intros H.
  rewrite Z.mod_small by lia. lia.
Qed.

Lemma wrap32_add_l a b : wrap32 (wrap32 a + b) = wrap32 (a + b).
Proof.
  unfold wrap32. f_equal.
  replace ((a + 2 ^ 31) mod 2 ^ 32 - 2 ^ 31 + b + 2 ^ 31)
    with ((a + 2 ^ 31) mod 2 ^ 32 + b) by lia.
  rewrite Zplus_mod_idemp_l. f_equal. lia.
Qed.

Lemma quot_range a b : int32_range a -> 0 < b -> int32_range (a ÷ b).
Proof.
  unfold int32_range. intros Ha Hb.
  destruct (Z.le_gt_cases 0 a) as [H0|H0].
  - pose proof (Z.quot_pos a b H0 ltac:(lia)).
    pose proof (Z.quot_le_upper_bound a b a ltac:(lia) ltac:(nia)). lia.
  - assert (Hq : a ÷ b = - ((- a) ÷ b)) by (rewrite Z.quot_opp_l by lia; lia).
    pose proof (Z.quot_pos (- a) b ltac:(lia) ltac:(lia)).
    pose proof (Z.quot_le_upper_bound (- a) b (- a) ltac:(lia) ltac:(nia)). lia.
Qed.

End Int32.

Section Weights.

Local Open Scope Z_scope.

(** The redistribution never divides by zero. *)
Lemma distribute_total refs num total : is_Some (distribute refs num total).
Proof.
  unfold distribute.
  destruct (0 <? num) eqn:H0; [|by eexists].
  destruct (num <? _) eqn:H1; [|by eexists]. simpl.
  apply Z.ltb_lt in H0, H1. unfold div32.
  pose proof (wrap32_range (Z.of_nat (length refs))) as Hr. unfold int32_range in Hr.
  unfold sub32. rewrite (wrap32_id (_ - num)) by (unfold int32_range; lia).
  destruct (_ =? 0) eqn:E; [apply Z.eqb_eq in E; lia|]. by eexists.
Qed.

Lemma resolved_cons p paths :
  resolved (p :: paths) =
  match toBackendRef (Backend (ip_path p)) with
  | Some (Ok br) => (br, canaryWeight (ip_extra p)) :: resolved paths
  | _ => resolved paths
  end.
Proof.
  unfold resolved. simpl.
  by destruct (toBackendRef (Backend (ip_path p))) as [[br|err]|].
Qed.

Lemma toBackendRef_unweighted ib br :
  toBackendRef ib = Some (Ok br) -> br_Weight br = None.
Proof.
  unfold toBackendRef. intros H.
  destruct (Service ib); [destruct (nonEmpty _)|destruct (Resource ib)];
    by simplify_eq.
Qed.

Lemma set_br_Weight_id br : set_br_Weight (br_Weight br) br = br.
Proof. by destruct br. Qed.

(** What the loop over the paths of a partition leaves behind. *)
Lemma backend_loop paths : forall refs0 a b errs0 refs num total errs,
  foldM backendStep (refs0, wrap32 a, wrap32 b, errs0) paths = Some (refs, num, total, errs) ->
  refs = refs0 ++ (weighted None <$> resolved paths) /\
  num = wrap32 (a + Z.of_nat (length (explicitWeights paths))) /\
  total = wrap32 (b + sumZ (explicitWeights paths)).
Proof.
  unfold explicitWeights.
  induction paths as [|p paths IH]; intros refs0 a b errs0 refs num total errs H.
  - simpl in H. injection H as <- <- <- <-. simpl.
    rewrite app_nil_r, !Z.add_0_r. done.
  - rewrite resolved_cons. simpl in H.
    destruct (toBackendRef (Backend (ip_path p))) as [[br|err]|] eqn:Hb; [| |done].
    + destruct (canaryWeight (ip_extra p)) as [w|] eqn:Hw.
      * unfold add32 in H. rewrite !wrap32_add_l in H.
        apply IH in H as (-> & -> & ->).
        rewrite <- app_assoc. split; [reflexivity|].
        cbn [omap list_omap snd length sumZ foldr].
        unfold sumZ. split; f_equal; lia.
      * apply IH in H as (-> & -> & ->).
        rewrite <- app_assoc. split; [|done].
        cbn [fmap list_fmap].
        change (weighted None (br, None)) with (set_br_Weight None br).
        pose proof (set_br_Weight_id br) as E.
        rewrite (toBackendRef_unweighted _ _ Hb) in E. by rewrite E.
    + apply IH in H as (-> & -> & ->). done.
Qed.

Lemma weighted_None_fst (rs : list (BackendRef * option Z)) :
  Forall (fun e => br_Weight e.1 = None) rs ->
  omap snd rs = [] -> weighted None <$> rs = rs.*1.
Proof.
  induction rs as [|[br [w|]] rs IH]; intros Hall Hnil; [done|done|].
  inversion_clear Hall as [|? ? Hbr Hrs].
  cbn [fmap list_fmap fst]. rewrite <- IH by done. f_equal.
  change (weighted None (br, None)) with (set_br_Weight None br).
  cbn [fst] in Hbr. rewrite <- Hbr. apply set_br_Weight_id.
Qed.

Lemma resolved_unweighted paths :
  Forall (fun e => br_Weight e.1 = None) (resolved paths).
Proof.
  unfold resolved. induction paths as [|p paths IH]; [constructor|].
  simpl. destruct (toBackendRef _) as [[br|err]|] eqn:Hb; try done.
  constructor; [|done]. simpl. by eapply toBackendRef_unweighted.
Qed.

Lemma fillWeight_weighted q (rs : list (BackendRef * option Z)) :
  fillWeight q <$> (weighted None <$> rs) = weighted (Some q) <$> rs.
Proof.
  rewrite <- list_fmap_compose. apply list_fmap_ext. intros _ [br [w|]] _; done.
Qed.

Lemma length_omap_bound {A B} (f : A -> option B) (l : list A) :
  (length (omap f l) <= length l)%nat.
Proof.
  induction l as [|x l IH]; [done|]. cbn [omap list_omap].
  destruct (f x); simpl; lia.
Qed.

Lemma length_omap_snd_all (rs : list (BackendRef * option Z)) :
  length (omap snd rs) = length rs -> Forall (fun e => is_Some e.2) rs.
Proof.
  induction rs as [|[br [w|]] rs IH]; intros H.
  - constructor.
  - constructor; [by eexists|]. apply IH.
    change (omap snd ((br, Some w) :: rs)) with (w :: omap snd rs) in H.
    simpl length in H. lia.
  - pose proof (length_omap_bound snd rs) as Hle.
    change (omap snd ((br, None) :: rs)) with (omap snd rs) in H.
    simpl length in H. lia.
Qed.

End Weights.

Section WeightRule.

Local Open Scope Z_scope.

Lemma fillWeight_explicit q (rs : list (BackendRef * option Z)) :
  Forall (fun e => is_Some e.2) rs ->
  fillWeight q <$> (weighted None <$> rs) = weighted None <$> rs.
Proof.
  intros Hall. rewrite fillWeight_weighted. apply list_fmap_ext.
  intros i [br w] Hi. apply (Forall_lookup_1 _ _ _ _ Hall) in Hi.
  simpl in Hi. by destruct Hi as [x ->].
Qed.

Lemma weighted_explicit_some (rs : list (BackendRef * option Z)) :
  Forall (fun e => is_Some e.2) rs ->
  Forall (fun br => is_Some (br_Weight br)) (weighted None <$> rs).
Proof.
  intros Hall. apply Forall_fmap. eapply Forall_impl; [exact Hall|].
  intros [br w] [x Hx]. simpl in *. subst. by eexists.
Qed.

(** The backend references of the rule that [ruleStep] appends. *)
Lemma ruleStep_refs st st' paths :
  ruleStep st paths = Some st' ->
  st'.2 = st.2 \/
  exists m refs,
    st'.2 = st.2 ++ [mkHTTPRouteRule [m] refs] /\
    distribute (weighted None <$> resolved paths)
      (wrap32 (Z.of_nat (length (explicitWeights paths))))
      (wrap32 (sumZ (explicitWeights paths))) = Some refs.
Proof.
  destruct st as [errors rules]. unfold ruleStep.
  destruct paths as [|first rest]; [done|].
  destruct (toHTTPRouteMatch first) as [[m|err]|]; [| |done].
  - destruct (foldM backendStep _ _) as [[[[refs num] total] errs]|] eqn:Hloop; [|done].
    change 0 with (wrap32 0) in Hloop.
    apply backend_loop in Hloop as (-> & -> & ->). simpl app. rewrite !Z.add_0_l.
    destruct (distribute _ _ _) as [refs|] eqn:Hd; [|done].
    intros [= <-]. right. by exists m, refs.
  - intros [= <-]. by left.
Qed.

End WeightRule.

(** C3, as the code has it.  The redistribution never divides by zero.  For
    the rule built from a partition, with the backends that resolve counted:
    when none carries an explicit weight, none is given a weight; when some
    but not all do, and there are fewer than 2^31 backends, every
    unweighted one is given (100 - sum of the explicit weights) divided by
    (backend count - weighted count), the sum and the difference taken in
    32-bit two's complement and the division truncated towards zero, which
    is the plain integer formula whenever the sum and the difference fit in
    32 bits; when all do, every backend keeps its explicit weight.  Weights
    30, none, none give 35 to both unweighted backends; weights 50, none
    give 50. *)
Theorem weight_distribution :
  (forall refs num total, is_Some (distribute refs num total)) /\
  (forall (st st' : list error * list HTTPRouteRule) (paths : list ingressPath),
     ruleStep st paths = Some st' ->
     st'.2 = st.2 \/
     exists m refs,
       st'.2 = st.2 ++ [mkHTTPRouteRule [m] refs] /\
       let rs := resolved paths in
       let ws := explicitWeights paths in
       let n := Z.of_nat (length rs) in
       let k := Z.of_nat (length ws) in
       (k = 0%Z -> refs = rs.*1 /\ Forall (fun br => br_Weight br = None) refs) /\
       ((0 < k < n)%Z -> (n < 2 ^ 31)%Z ->
        exists q,
          refs = weighted (Some q) <$> rs /\
          q = (wrap32 (100 - wrap32 (sumZ ws)) ÷ (n - k))%Z /\
          (int32_range (sumZ ws) -> int32_range (100 - sumZ ws) ->
           q = ((100 - sumZ ws) ÷ (n - k))%Z)) /\
       (k = n -> refs = weighted None <$> rs /\
                 Forall (fun br => is_Some (br_Weight br)) refs)) /\
  weightsOf [weightedPath "v2" 30; plainPath "a"; plainPath "b"]
    = Some [Some 30%Z; Some 35%Z; Some 35%Z] /\
  weightsOf [weightedPath "v2" 50; plainPath "a"] = Some [Some 50%Z; Some 50%Z].
Proof.
  split; [apply distribute_total|]. split; [|by vm_compute].
  intros st st' paths Hstep.
  apply ruleStep_refs in Hstep as [Hskip|(m & refs & Hrule & Hd)]; [by left|].
  right. exists m, refs. split; [exact Hrule|]. clear Hrule.
  set (rs := resolved paths) in *. set (ws := explicitWeights paths) in *.
  assert (Hlen : length (weighted None <$> rs) = length rs) by apply length_fmap.
  cbv zeta. unfold distribute in Hd. rewrite Hlen in Hd.
  split; [|split].
  - intros Hk. rewrite Hk in Hd. change (wrap32 0) with 0%Z in Hd. simpl in Hd.
    injection Hd as <-.
    assert (Hws : omap snd rs = []).
    { apply length_zero_iff_nil. unfold ws, explicitWeights in Hk. fold rs in Hk. lia. }
    rewrite weighted_None_fst by (done || apply resolved_unweighted).
    split; [done|]. apply Forall_fmap. apply resolved_unweighted.
  - intros Hk Hn.
    rewrite (wrap32_id (Z.of_nat (length ws))) in Hd by (unfold int32_range; lia).
    rewrite (wrap32_id (Z.of_nat (length rs))) in Hd by (unfold int32_range; lia).
    destruct (Z.ltb_spec 0 (Z.of_nat (length ws))); [|lia].
    destruct (Z.ltb_spec (Z.of_nat (length ws)) (Z.of_nat (length rs))); [|lia].
    simpl in Hd. unfold div32, sub32 in Hd.
    rewrite (wrap32_id (_ - Z.of_nat (length ws))) in Hd by (unfold int32_range; lia).
    destruct (Z.eqb_spec (Z.of_nat (length rs) - Z.of_nat (length ws)) 0); [lia|].
    injection Hd as <-. eexists. split; [apply fillWeight_weighted|].
    assert (Hq : forall a, int32_range a ->
              wrap32 (a ÷ (Z.of_nat (length rs) - Z.of_nat (length ws)))
              = (a ÷ (Z.of_nat (length rs) - Z.of_nat (length ws)))%Z).
    { intros a Ha. apply wrap32_id, quot_range; [done|lia]. }
    split.
    + apply Hq, wrap32_range.
    + intros H1 H2. rewrite Hq by apply wrap32_range.
      by rewrite (wrap32_id (sumZ ws)), (wrap32_id (100 - sumZ ws)).
  - intros Hk.
    assert (Hall : Forall (fun e => is_Some e.2) rs).
    { apply length_omap_snd_all. unfold ws, explicitWeights in Hk. fold rs in Hk. lia. }
    assert (Hrefs : refs = weighted None <$> rs).
    { destruct (_ && _); [|by injection Hd as <-].
      destruct (div32 _ _); [|done]. injection Hd as <-.
      by apply fillWeight_explicit. }
    split; [exact Hrefs|]. rewrite Hrefs. by apply weighted_explicit_some.
Qed.

Lemma weight_distribution_witness :
  weightsOf [weightedPath "v2" 30; plainPath "a"; plainPath "b"]
    = Some [Some 30%Z; Some 35%Z; Some 35%Z].
Proof.
  destruct weight_distribution as (_ & Hrule & _).
  destruct (Hrule ([], []) ([], [mkHTTPRouteRule
              [mkHTTPRouteMatch (Some (mkHTTPPathMatch (Some PathMatchPathPrefix) (Some "/"))) []]
              (weighted (Some 35%Z) <$>
                 resolved [weightedPath "v2" 30; plainPath "a"; plainPath "b"])])
              [weightedPath "v2" 30; plainPath "a"; plainPath "b"])
    as [Hskip|(m & refs & Hrefs & _ & Hsome & _)].
  - by vm_compute.
  - by vm_compute in Hskip.
  - destruct Hsome as (q & -> & Hq & _); [by vm_compute|by vm_compute|].
    vm_compute in Hq. subst q. by vm_compute.
Defined.

(** C3, as it is stated, fails on weights that overflow 32 bits: with the
    weights 2147483647, 2147483647 and none, the unweighted backend is
    given 102, where 100 minus the sum of the explicit weights, divided by
    the one unweighted backend, is -4294967194. *)
Lemma weight_distribution_overflow :
  weightsOf [weightedPath "v2" 2147483647; weightedPath "v3" 2147483647; plainPath "a"]
    = Some [Some 2147483647%Z; Some 2147483647%Z; Some 102%Z] /\
  ((100 - (2147483647 + 2147483647)) ÷ (3 - 2))%Z <> 102%Z.
Proof. split; by vm_compute. Qed.

(** * Which errors the transformation returns *)

Section ReturnedErrors.

Lemma groupStep_errors o st entry st' :
  groupStep o st entry = Some st' -> st'.1.2 = st.1.2.
Proof.
  destruct st as [[routes errs] ls]. unfold groupStep.
  destruct (groupListener _); [|done].
  destruct (toHTTPRoute _ _) as [[route errs_inner]|]; [|done].
  by intros [= <-].
Qed.

(** The loop over the rule groups leaves the errors of the function as
    they were. *)
Lemma groups_loop_errors o l : forall st st',
  foldM (groupStep o) st l = Some st' -> st'.1.2 = st.1.2.
Proof.
  induction l as [|entry l IH]; intros st st' H.
  - by injection H as <-.
  - simpl in H. destruct (groupStep o st entry) as [st1|] eqn:E; [|done].
    apply IH in H. apply groupStep_errors in E. congruence.
Qed.

Lemma defaults_loop_errors (P : error -> Prop) l : forall st st',
  (forall db e, db ∈ l -> toBackendRef (db_backend db) = Some (Err e) -> P e) ->
  Forall P st.2 ->
  foldM defaultBackendStep st l = Some st' -> Forall P st'.2.
Proof.
  induction l as [|db l IH]; intros [routes errs] st' HP Herrs H.
  - by injection H as <-.
  - simpl in H. destruct (toBackendRef (db_backend db)) as [[br|e]|] eqn:E; [| |done].
    + refine (IH _ _ _ _ H); [|exact Herrs].
      intros db' e' Hin. apply HP. by constructor.
    + refine (IH _ _ _ _ H).
      * intros db' e' Hin. apply HP. by constructor.
      * apply Forall_app. split; [done|]. constructor; [|done].
        eapply HP; [constructor|done].
Qed.

Lemma gateways_loop_errors (P : error -> Prop) l : forall st,
  (forall gwKey, P (MalformedGatewayKey gwKey)) ->
  Forall P st.2 -> Forall P (foldl gatewayStep st l).2.
Proof.
  induction l as [|[gwKey listeners] l IH]; intros [gws errs] HP Herrs; [done|].
  simpl. apply IH; [done|].
  destruct (Split gwKey "/") as [|p0 [|p1 [|p2 ps]]]; simpl;
    try (apply Forall_app; split; [done|by constructor]); done.
Qed.

(** No error of a route ever reaches the returned error list. *)
Lemma returned_errors_origin o a routes gateways errs :
  toHTTPRoutesAndGateways o a = Some (routes, gateways, errs) ->
  Forall (returnedErrorOrigin a) errs.
Proof.
  unfold toHTTPRoutesAndGateways.
  destruct (foldM (groupStep o) _ _) as [[[routes1 errs1] ls]|] eqn:E1; [|done].
  apply groups_loop_errors in E1. simpl in E1. subst errs1.
  destruct (foldM defaultBackendStep _ _) as [[routes2 errs2]|] eqn:E2; [|done].
  apply (defaults_loop_errors (returnedErrorOrigin a)) in E2; [|by right; eauto|done].
  destruct (foldl gatewayStep _ _) as [gws errs3] eqn:E3.
  intros [= <- <- <-].
  change errs3 with (gws, errs3).2. rewrite <- E3.
  apply gateways_loop_errors; [by left; eauto|done].
Qed.

End ReturnedErrors.

(** C1 at an input where the code loses an error: the route of the rule
    group is built with the error of its unsupported path type, and no
    error is returned by the transformation. *)
Theorem route_errors_not_returned :
  exists rg route,
    ruleGroups (aggregate [unsupportedPathIngress]) !! "default/nginx/example.com" = Some rg /\
    toHTTPRoute inOrder rg = Some (route, [UnsupportedPathType "ImplementationSpecific"]) /\
    (fun r => (r.1.1, r.2)) <$> transform (uniform inOrder) [unsupportedPathIngress]
      = Some ([route], []).
Proof. eexists. eexists. split; [by vm_compute|]. split; by vm_compute. Qed.

(** C6 at an input where the code loses the error: the backend with the
    named port is left out of the rule of its partition and the route is
    built with the error, and no error is returned by the
    transformation. *)
Theorem named_port_error_not_returned :
  exists rg route,
    ruleGroups (aggregate [namedPortIngress]) !! "default/nginx/example.com" = Some rg /\
    toHTTPRoute inOrder rg = Some (route, [UnsupportedNamedPort "http"]) /\
    (fun rule => br_Name <$> BackendRefs rule) <$> hr_Rules route = [["web-b"]] /\
    (fun r => (r.1.1, r.2)) <$> transform (uniform inOrder) [namedPortIngress]
      = Some ([route], []).
Proof.
  eexists. eexists. split; [by vm_compute|]. split; [by vm_compute|]. split; by vm_compute.
Qed.

(** * When route building panics *)

Section Panics.

Lemma collectPaths_is_Some m ir :
  is_Some (collectPaths m ir) <-> is_Some (HTTP (ir_rule ir)).
Proof. unfold collectPaths. destruct (HTTP (ir_rule ir)); split; intros [? ?]; by eauto. Qed.

Lemma toHTTPRouteMatch_is_Some ip :
  is_Some (toHTTPRouteMatch ip) <-> is_Some (PathType (ip_path ip)).
Proof.
  unfold toHTTPRouteMatch. destruct (PathType (ip_path ip)) as [t|].
  - split; [by eauto|]. intros _.
    destruct (String.eqb t PathTypePrefix); [by eauto|].
    destruct (String.eqb t PathTypeExact); by eauto.
  - split; by intros [? ?].
Qed.

Lemma ruleStep_is_Some st paths :
  is_Some (ruleStep st paths) ->
  exists first, head paths = Some first /\ is_Some (PathType (ip_path first)).
Proof.
  destruct st as [errors rules]. unfold ruleStep.
  destruct paths as [|first rest]; [by intros [? ?]|].
  intros H. exists first. split; [done|]. apply toHTTPRouteMatch_is_Some.
  destruct (toHTTPRouteMatch first); [by eauto|]. by destruct H.
Qed.

Lemma toHTTPRoute_unfold s rg :
  toHTTPRoute s rg =
  match partitions rg with
  | None => None
  | Some p =>
      match foldM ruleStep ([], []) (range s p).*2 with
      | None => None
      | Some (errors, rules) =>
          Some (mkHTTPRoute httpRouteGVK (nameFromHost (rg_host rg)) (rg_namespace rg)
                  (if nonEmpty (rg_ingressClass rg) then [rg_ingressClass rg] else [])
                  (if nonEmpty (rg_host rg) then [rg_host rg] else []) rules, errors)
      end
  end.
Proof. reflexivity. Qed.

End Panics.

(** C10: route building panics on a rule without HTTP section and on a
    partition whose first path entry has no path type; so whenever it
    returns, every rule of the group has its HTTP section and the first
    path entry of every partition has its path type. *)
Theorem toHTTPRoute_preconditions (s : Schedule) (rg : ingressRuleGroup) :
  ((exists ir, ir ∈ rg_rules rg /\ HTTP (ir_rule ir) = None) -> toHTTPRoute s rg = None) /\
  (forall p key first rest,
     partitions rg = Some p -> p !! key = Some (first :: rest) ->
     PathType (ip_path first) = None -> toHTTPRoute s rg = None) /\
  (is_Some (toHTTPRoute s rg) ->
   Forall (fun ir => is_Some (HTTP (ir_rule ir))) (rg_rules rg) /\
   exists p, partitions rg = Some p /\
     map_Forall (fun _ paths => exists first,
                   head paths = Some first /\ is_Some (PathType (ip_path first))) p).
Proof.
  rewrite toHTTPRoute_unfold. split; [|split].
  - intros (ir & Hin & Hnil). unfold partitions.
    rewrite (foldM_None_step _ _ _ ir); [done|done|].
    intros m. unfold collectPaths. by rewrite Hnil.
  - intros p key first rest -> Hkey Hnil.
    rewrite (foldM_None_step _ _ _ (first :: rest)); [done| |].
    + apply list_elem_of_fmap. exists (key, first :: rest). split; [done|].
      by apply elem_of_range.
    + intros [errors rules]. unfold ruleStep, toHTTPRouteMatch. by rewrite Hnil.
  - intros Hsome. unfold partitions in *.
    destruct (foldM collectPaths ∅ (rg_rules rg)) as [p|] eqn:Hp; [|by destruct Hsome].
    split.
    + apply foldM_Some_steps in Hp. eapply Forall_impl; [exact Hp|].
      intros ir [m Hm]. by apply collectPaths_is_Some in Hm.
    + exists p. split; [done|]. intros key paths Hkey.
      destruct (foldM ruleStep _ _) as [r|] eqn:Hr; [|by destruct Hsome].
      apply foldM_Some_steps in Hr.
      assert (Hin : paths ∈ (range s p).*2).
      { apply list_elem_of_fmap. exists (key, paths). split; [done|].
        by apply elem_of_range. }
      apply (proj1 (Forall_forall _ _) Hr) in Hin as [st Hst].
      by apply ruleStep_is_Some in Hst.
Qed.

Lemma toHTTPRoute_preconditions_witness :
  toHTTPRoute inOrder groupWithoutHTTP = None /\
  toHTTPRoute inOrder groupWithoutPathType = None.
Proof.
  split.
  - apply (toHTTPRoute_preconditions inOrder groupWithoutHTTP).
    exists (mkIngressRuleOf (mkIngressRule "example.com" None) (Some (mkExtra None))).
    split; [left|reflexivity].
  - destruct (toHTTPRoute_preconditions inOrder groupWithoutPathType) as (_ & H & _).
    eapply (H _ "///" _ []); [vm_compute; reflexivity|vm_compute; reflexivity|reflexivity].
Defined.

(** * Grouping of the source rules *)

Section Keys.

Lemma append_slash_inj (a a' x y : string) :
  hasSlash a = false -> hasSlash a' = false ->
  a +:+ "/" +:+ x = a' +:+ "/" +:+ y -> a = a' /\ x = y.
Proof.
  revert a'. induction a as [|c a IH]; intros [|c' a'] Ha Ha' H; simpl in *.
  - by simplify_eq.
  - injection H as <- _. by rewrite Ascii.eqb_refl in Ha'.
  - injection H as -> _. by rewrite Ascii.eqb_refl in Ha.
  - injection H as <- H. apply orb_false_iff in Ha as [_ Ha], Ha' as [_ Ha'].
    destruct (IH a' Ha Ha' H) as [-> ->]. done.
Qed.

(** Without slashes in the first two parts, a key determines its parts. *)
Lemma Sprintf3_inj (a b c a' b' c' : string) :
  hasSlash a = false -> hasSlash b = false ->
  hasSlash a' = false -> hasSlash b' = false ->
  Sprintf3 a b c = Sprintf3 a' b' c' -> a = a' /\ b = b' /\ c = c'.
Proof.
  unfold Sprintf3. intros Ha Hb Ha' Hb' H.
  apply append_slash_inj in H as [-> H]; [|done..].
  apply append_slash_inj in H as [-> ->]; done.
Qed.

Lemma keyOf_inj (sr1 sr2 : sourceRule) :
  slashFree sr1 -> slashFree sr2 -> keyOf sr1 = keyOf sr2 -> tupleOf sr1 = tupleOf sr2.
Proof.
  intros [H1 H2] [H3 H4] H. unfold tupleOf.
  apply Sprintf3_inj in H as (-> & -> & ->); done.
Qed.

Lemma tupleOf_keyOf (sr1 sr2 : sourceRule) :
  tupleOf sr1 = tupleOf sr2 -> keyOf sr1 = keyOf sr2.
Proof. unfold tupleOf, keyOf. by intros [= -> -> ->]. Qed.

End Keys.

Section Aggregation.

Implicit Types (a : ingressAggregator) (sr : sourceRule) (k : ruleGroupKey).

Lemma ruleGroups_addSourceRule a sr :
  ruleGroups (addSourceRule a sr)
  = <[keyOf sr := extend (ruleGroups a !! keyOf sr) sr]> (ruleGroups a).
Proof.
  unfold addSourceRule, addIngressRule, extend, keyOf. cbn [ruleGroups]. f_equal.
  destruct (ruleGroups a !! _) as [rg|]; cbn [default]; unfold id;
    (destruct (TLS (sr_spec sr)) as [|t ts];
     cbn [length Nat.ltb Nat.leb]; rewrite ?app_nil_r; reflexivity).
Qed.

Lemma defaultBackends_addSourceRules a (srs : list sourceRule) :
  defaultBackends (foldl addSourceRule a srs) = defaultBackends a.
Proof. revert a. induction srs as [|sr srs IH]; intros a; [done|]. simpl. by rewrite IH. Qed.

Lemma lookup_addSourceRules (srs : list sourceRule) : forall a k,
  ruleGroups (foldl addSourceRule a srs) !! k
  = foldl (fun og sr => Some (extend og sr)) (ruleGroups a !! k)
      (filter (fun sr => keyOf sr = k) srs).
Proof.
  induction srs as [|sr srs IH]; intros a k; [done|].
  cbn [foldl]. rewrite IH, ruleGroups_addSourceRule, filter_cons.
  destruct (decide (keyOf sr = k)) as [<-|Hne].
  - by rewrite lookup_insert_eq.
  - by rewrite lookup_insert_ne.
Qed.

Lemma foldl_extend_Some (srs : list sourceRule) : forall rg,
  foldl (fun og sr => Some (extend og sr)) (Some rg) srs
  = Some (mkIngressRuleGroup (rg_namespace rg) (rg_ingressClass rg) (rg_host rg)
            (rg_tls rg ++ (srs ≫= (fun sr => TLS (sr_spec sr))))
            (rg_rules rg ++ (entryOf <$> srs))).
Proof.
  induction srs as [|sr srs IH]; intros rg.
  - simpl. rewrite !app_nil_r. by destruct rg.
  - cbn [foldl]. rewrite IH. unfold extend. cbn.
    by rewrite <- !app_assoc.
Qed.

Lemma foldl_extend_None (srs : list sourceRule) :
  foldl (fun og sr => Some (extend og sr)) None srs = groupOf srs.
Proof.
  destruct srs as [|sr srs]; [done|]. cbn [foldl]. rewrite foldl_extend_Some.
  unfold extend, groupOf. cbn. done.
Qed.

Lemma addIngress_sourceRules a (ingress : Ingress) :
  ruleGroups (addIngress a ingress)
  = ruleGroups (foldl addSourceRule a (sourceRulesOf ingress)).
Proof.
  unfold addIngress, sourceRulesOf.
  assert (H : forall rules a0,
    foldl (fun a1 rule => addIngressRule a1 (Namespace ingress) (ingressClassOf ingress)
                            rule (Spec ingress) (Some (getExtra ingress))) a0 rules
    = foldl addSourceRule a0
        ((fun rule => mkSourceRule (Namespace ingress) (ingressClassOf ingress) rule
                        (Spec ingress) (Some (getExtra ingress))) <$> rules)).
  { induction rules as [|r rules IH]; intros a0; [done|]. simpl. by rewrite IH. }
  rewrite H. by destruct (DefaultBackend (Spec ingress)).
Qed.

Lemma lookup_addIngress a (ingress : Ingress) k :
  ruleGroups (addIngress a ingress) !! k
  = foldl (fun og sr => Some (extend og sr)) (ruleGroups a !! k)
      (filter (fun sr => keyOf sr = k) (sourceRulesOf ingress)).
Proof. by rewrite addIngress_sourceRules, lookup_addSourceRules. Qed.

Lemma lookup_foldl_addIngress (ingresses : list Ingress) : forall a k,
  ruleGroups (foldl addIngress a ingresses) !! k
  = foldl (fun og sr => Some (extend og sr)) (ruleGroups a !! k)
      (filter (fun sr => keyOf sr = k) (sourceRules ingresses)).
Proof.
  induction ingresses as [|i l IH]; intros a k; [done|].
  cbn [foldl]. rewrite IH, lookup_addIngress.
  unfold sourceRules. cbn [mbind list_bind]. by rewrite filter_app, foldl_app.
Qed.

(** The rule group found under a key after a run: the group built by the
    source rules of that key, in the order they were ingested. *)
Lemma lookup_aggregate (ingresses : list Ingress) k :
  ruleGroups (aggregate ingresses) !! k
  = groupOf (filter (fun sr => keyOf sr = k) (sourceRules ingresses)).
Proof.
  unfold aggregate. rewrite lookup_foldl_addIngress.
  cbn [emptyAggregator ruleGroups]. rewrite lookup_empty. apply foldl_extend_None.
Qed.

End Aggregation.

Section Placement.

Lemma groupOf_Some (srs : list sourceRule) rg :
  groupOf srs = Some rg ->
  exists sr rest, srs = sr :: rest /\ tupleOfGroup rg = tupleOf sr /\
    rg_rules rg = entryOf <$> srs /\
    rg_tls rg = srs ≫= (fun sr => TLS (sr_spec sr)).
Proof.
  destruct srs as [|sr rest]; [done|]. intros [= <-]. by exists sr, rest.
Qed.

Lemma groupOf_is_Some (srs : list sourceRule) : is_Some (groupOf srs) <-> srs <> [].
Proof. destruct srs; split; (done || by intros [? ?] || by eauto). Qed.

Lemma rules_extend (srs : list sourceRule) (og : option ingressRuleGroup) :
  from_option rg_rules [] (foldl (fun og sr => Some (extend og sr)) og srs)
  = from_option rg_rules [] og ++ (entryOf <$> srs).
Proof.
  destruct og as [rg|].
  - by rewrite foldl_extend_Some.
  - rewrite foldl_extend_None. by destruct srs.
Qed.

Lemma rulesAt_lookup a k : rulesAt a k = from_option rg_rules [] (ruleGroups a !! k).
Proof. unfold rulesAt. by destruct (ruleGroups a !! k). Qed.

(** What a call of [addIngressRule] does to the rules found under a key. *)
Lemma rulesAt_addSourceRule a sr k :
  rulesAt (addSourceRule a sr) k
  = if decide (k = keyOf sr) then rulesAt a k ++ [entryOf sr] else rulesAt a k.
Proof.
  rewrite !rulesAt_lookup, ruleGroups_addSourceRule.
  destruct (decide (k = keyOf sr)) as [->|Hne].
  - rewrite lookup_insert_eq. by destruct (ruleGroups a !! keyOf sr).
  - by rewrite lookup_insert_ne.
Qed.

Lemma rulesAt_addSourceRules (srs : list sourceRule) a k :
  rulesAt (foldl addSourceRule a srs) k
  = rulesAt a k ++ (entryOf <$> filter (fun sr => keyOf sr = k) srs).
Proof. by rewrite !rulesAt_lookup, lookup_addSourceRules, rules_extend. Qed.

Lemma rulesAt_addIngresses (ingresses : list Ingress) a k :
  rulesAt (foldl addIngress a ingresses) k
  = rulesAt a k ++ (entryOf <$> filter (fun sr => keyOf sr = k) (sourceRules ingresses)).
Proof. by rewrite !rulesAt_lookup, lookup_foldl_addIngress, rules_extend. Qed.

(** The rules of a rule group of a run are the source rules of its key, in
    the order the run ingests them. *)
Lemma rulesAt_aggregate (ingresses : list Ingress) k :
  rulesAt (aggregate ingresses) k
  = entryOf <$> filter (fun sr => keyOf sr = k) (sourceRules ingresses).
Proof. unfold aggregate. by rewrite rulesAt_addIngresses. Qed.

Lemma group_is_Some (ingresses : list Ingress) k :
  is_Some (ruleGroups (aggregate ingresses) !! k)
  <-> exists sr, sr ∈ sourceRules ingresses /\ keyOf sr = k.
Proof.
  rewrite lookup_aggregate, groupOf_is_Some. split.
  - intros Hne. destruct (filter _ _) as [|sr rest] eqn:E; [done|].
    assert (Hin : sr ∈ filter (fun sr => keyOf sr = k) (sourceRules ingresses))
      by (rewrite E; left).
    apply list_elem_of_filter in Hin as [Hk Hin]. by exists sr.
  - intros (sr & Hin & Hk) Hnil.
    assert (Hf : sr ∈ filter (fun sr => keyOf sr = k) (sourceRules ingresses))
      by (by apply list_elem_of_filter).
    rewrite Hnil in Hf. by apply elem_of_nil in Hf.
Qed.

(** The source rules of a run before and after one of them. *)
Lemma sourceRules_split (ingresses : list Ingress) n j (ingress : Ingress) sr :
  ingresses !! n = Some ingress -> sourceRulesOf ingress !! j = Some sr ->
  sourceRules ingresses
  = (sourceRules (take n ingresses) ++ take j (sourceRulesOf ingress))
    ++ sr :: (drop (S j) (sourceRulesOf ingress) ++ sourceRules (drop (S n) ingresses)).
Proof.
  intros Hn Hj. rewrite <- (take_drop_middle ingresses n ingress Hn) at 1.
  unfold sourceRules. rewrite bind_app, bind_cons.
  rewrite <- (take_drop_middle (sourceRulesOf ingress) j sr Hj) at 1.
  by rewrite <- !app_assoc.
Qed.

Lemma rulesAt_stateBefore (ingresses : list Ingress) n j (ingress : Ingress) k :
  ingresses !! n = Some ingress ->
  rulesAt (stateBefore ingresses n j) k
  = entryOf <$> filter (fun sr => keyOf sr = k)
                  (sourceRules (take n ingresses) ++ take j (sourceRulesOf ingress)).
Proof.
  intros Hn. unfold stateBefore. rewrite Hn. cbn [fmap option_fmap option_map default].
  by rewrite rulesAt_addSourceRules, rulesAt_aggregate, filter_app, fmap_app.
Qed.

(** A source rule of a run is placed in the rule group of the key that
    [addIngressRule] builds from its tuple, and in no other. *)
Lemma placedIn_key (ingresses : list Ingress) n j sr k :
  sourceRuleAt ingresses n j = Some sr ->
  (placedIn ingresses n j k <-> k = keyOf sr).
Proof.
  intros Hsr. unfold placedIn. rewrite Hsr. unfold sourceRuleAt in Hsr.
  destruct (ingresses !! n) as [ingress|] eqn:Hn; [|done]. cbn in Hsr.
  split.
  - intros (sr' & [= <-] & Happ & _). cbv zeta in Happ.
    rewrite rulesAt_addSourceRule in Happ.
    destruct (decide (k = keyOf sr)) as [->|_]; [done|].
    apply (f_equal length) in Happ. rewrite length_app in Happ. cbn in Happ. lia.
  - intros ->. exists sr. split; [done|]. cbv zeta. split.
    + rewrite rulesAt_addSourceRule. by destruct (decide (keyOf sr = keyOf sr)).
    + rewrite (rulesAt_stateBefore ingresses n j ingress _ Hn), rulesAt_aggregate.
      rewrite (sourceRules_split ingresses n j ingress sr Hn Hsr).
      rewrite (filter_app _ (_ ++ _) (_ :: _)), fmap_app, filter_cons, decide_True by done.
      cbn [fmap list_fmap]. by rewrite list_lookup_middle.
Qed.

End Placement.

(** C4, as the code has it: a rule group of a run holds exactly the source
    rules of its key, in the order the run ingests them, and there is a
    group under a key exactly when a source rule has that key; every source
    rule is placed in one rule group, that of the key built from its tuple;
    and two source rules whose namespaces and ingress classes have no slash
    in them are placed in the same rule group if and only if their
    (namespace, ingress-class, host) tuples are equal. *)
Theorem same_group_iff_same_tuple (ingresses : list Ingress) :
  (forall k, rulesAt (aggregate ingresses) k
             = entryOf <$> filter (fun sr => keyOf sr = k) (sourceRules ingresses)) /\
  (forall k, is_Some (ruleGroups (aggregate ingresses) !! k)
             <-> exists sr, sr ∈ sourceRules ingresses /\ keyOf sr = k) /\
  (forall n j sr, sourceRuleAt ingresses n j = Some sr ->
     forall k, placedIn ingresses n j k <-> k = keyOf sr) /\
  (forall n1 j1 n2 j2 sr1 sr2,
     sourceRuleAt ingresses n1 j1 = Some sr1 ->
     sourceRuleAt ingresses n2 j2 = Some sr2 ->
     slashFree sr1 -> slashFree sr2 ->
     (sameGroup ingresses n1 j1 n2 j2 <-> tupleOf sr1 = tupleOf sr2)).
Proof.
  split; [apply rulesAt_aggregate|]. split; [apply group_is_Some|].
  split; [intros n j sr Hsr k; by apply placedIn_key|].
  intros n1 j1 n2 j2 sr1 sr2 H1 H2 Hs1 Hs2. unfold sameGroup. split.
  - intros (k & Hk1 & Hk2).
    apply (placedIn_key _ _ _ _ _ H1) in Hk1. apply (placedIn_key _ _ _ _ _ H2) in Hk2.
    apply keyOf_inj; congruence.
  - intros Ht. exists (keyOf sr1). split.
    + by apply (placedIn_key _ _ _ _ _ H1).
    + apply (placedIn_key _ _ _ _ _ H2). by apply tupleOf_keyOf.
Qed.

Lemma same_group_iff_same_tuple_witness :
  sourceRuleAt [unsupportedPathIngress; namedPortIngress] 0 0
    <> sourceRuleAt [unsupportedPathIngress; namedPortIngress] 1 0 /\
  sameGroup [unsupportedPathIngress; namedPortIngress] 0 0 1 0.
Proof.
  split; [discriminate|].
  refine (proj2 (proj2 (proj2 (proj2 (same_group_iff_same_tuple
                                        [unsupportedPathIngress; namedPortIngress])))
                   0 0 1 0 _ _ eq_refl eq_refl _ _) eq_refl);
    split; reflexivity.
Defined.

(** C4, as it is stated, fails: a namespace and an ingress class with a
    slash in them give two source rules of different tuples one key, and
    the run places both in the one rule group of that key. *)
Lemma distinct_tuples_share_group :
  exists sr1 sr2,
    sourceRuleAt [slashInNamespace; slashInClass] 0 0 = Some sr1 /\
    sourceRuleAt [slashInNamespace; slashInClass] 1 0 = Some sr2 /\
    sameGroup [slashInNamespace; slashInClass] 0 0 1 0 /\
    tupleOf sr1 <> tupleOf sr2 /\
    length (rulesAt (aggregate [slashInNamespace; slashInClass])
              "team/blue/nginx/example.com") = 2.
Proof.
  eexists _, _. split; [reflexivity|]. split; [reflexivity|].
  split; [|split; [discriminate|vm_compute; reflexivity]].
  exists "team/blue/nginx/example.com". split.
  - by apply (placedIn_key [slashInNamespace; slashInClass] 0 0 _ _ eq_refl).
  - by apply (placedIn_key [slashInNamespace; slashInClass] 1 0 _ _ eq_refl).
Qed.

(** C5, as the code has it: feeding a permutation of the source objects to
    the aggregator gives the same grouping keys and, under each key, the
    source rules of that key and their TLS entries, up to their order
    within the group; the (namespace, ingress-class, host) tuple recorded
    for the group is the same as well when no namespace and no ingress
    class of the run has a slash in it. *)
Theorem grouping_permutation (l l' : list Ingress) :
  l ≡ₚ l' ->
  dom (ruleGroups (aggregate l)) = dom (ruleGroups (aggregate l')) /\
  (forall k rg rg',
     ruleGroups (aggregate l) !! k = Some rg ->
     ruleGroups (aggregate l') !! k = Some rg' ->
     rg_rules rg = entryOf <$> filter (fun sr => keyOf sr = k) (sourceRules l) /\
     rg_rules rg ≡ₚ rg_rules rg' /\
     rg_tls rg ≡ₚ rg_tls rg' /\
     (Forall slashFree (sourceRules l) -> tupleOfGroup rg = tupleOfGroup rg')).
Proof.
  intros Hp.
  assert (HF : forall k, filter (fun sr => keyOf sr = k) (sourceRules l)
                         ≡ₚ filter (fun sr => keyOf sr = k) (sourceRules l')).
  { intros k. apply filter_Permutation. unfold sourceRules. by apply bind_Permutation. }
  split.
  - apply set_eq. intros k. rewrite !elem_of_dom, !lookup_aggregate, !groupOf_is_Some.
    split; intros Hne Hnil; apply Hne.
    + apply Permutation_nil_r. by rewrite <- Hnil, HF.
    + apply Permutation_nil_r. by rewrite <- Hnil, HF.
  - intros k rg rg'. rewrite !lookup_aggregate. intros H H'.
    apply groupOf_Some in H as (sr & rest & HF1 & Ht & Hr & Htls).
    apply groupOf_Some in H' as (sr' & rest' & HF1' & Ht' & Hr' & Htls').
    split; [exact Hr|]. split; [|split].
    + rewrite Hr, Hr'. by apply fmap_Permutation.
    + rewrite Htls, Htls'. by apply bind_Permutation.
    + intros Hfree. rewrite Ht, Ht'.
      assert (Hin : sr ∈ filter (fun sr => keyOf sr = k) (sourceRules l))
        by (rewrite HF1; left).
      assert (Hin' : sr' ∈ filter (fun sr => keyOf sr = k) (sourceRules l))
        by (rewrite HF, HF1'; left).
      apply list_elem_of_filter in Hin as [Hk Hin], Hin' as [Hk' Hin'].
      apply keyOf_inj; [by apply (proj1 (Forall_forall _ _) Hfree)..|congruence].
Qed.

Lemma grouping_permutation_witness :
  dom (ruleGroups (aggregate [unsupportedPathIngress; canaryOnly]))
  = dom (ruleGroups (aggregate [canaryOnly; unsupportedPathIngress])).
Proof.
  apply (grouping_permutation [unsupportedPathIngress; canaryOnly]
           [canaryOnly; unsupportedPathIngress]).
  apply perm_swap.
Defined.

(** C5, as it is stated, fails: with a slash in a namespace and in an
    ingress class, swapping two source objects changes the tuple of the
    rule group they share, so the run has a different rule group. *)
Lemma permutation_changes_group_tuple :
  [slashInNamespace; slashInClass] ≡ₚ [slashInClass; slashInNamespace] /\
  tupleOfGroup <$> (map_to_list (ruleGroups (aggregate [slashInNamespace; slashInClass]))).*2
    = [("team/blue", "nginx", "example.com")] /\
  tupleOfGroup <$> (map_to_list (ruleGroups (aggregate [slashInClass; slashInNamespace]))).*2
    = [("team", "blue/nginx", "example.com")].
Proof. split; [apply perm_swap|]. split; by vm_compute. Qed.

(** * Listeners and gateways *)

Section Split.

Lemma Split_nonempty (s : string) : Split s "/" <> [].
Proof.
  destruct s as [|c s]; [done|]. simpl.
  destruct (Ascii.eqb c "/"); [done|]. by destruct (Split s "/").
Qed.

Lemma Split_slashFree (s : string) : hasSlash s = false -> Split s "/" = [s].
Proof.
  induction s as [|c s IH]; [done|]. simpl.
  destruct (Ascii.eqb c "/"); [done|]. simpl. intros H. by rewrite IH.
Qed.

(** The text has as many parts as it has slashes, and one more. *)
Lemma Split_one_part (s : string) : length (Split s "/") = 1 -> hasSlash s = false.
Proof.
  induction s as [|c s IH]; [done|]. simpl.
  destruct (Ascii.eqb c "/").
  - simpl. pose proof (Split_nonempty s). destruct (Split s "/"); [done|]. simpl. lia.
  - destruct (Split s "/") as [|p ps] eqn:E; [by apply Split_nonempty in E|].
    simpl. intros H. apply IH. simpl. lia.
Qed.

Lemma Split_append (a b : string) :
  hasSlash a = false -> Split (a +:+ "/" +:+ b) "/" = a :: Split b "/".
Proof.
  induction a as [|c a IH]; [done|]. simpl.
  destruct (Ascii.eqb c "/"); [done|]. simpl. intros H. by rewrite IH.
Qed.

Lemma Split_cons_inv (s p0 : string) (ps : list string) :
  ps <> [] -> Split s "/" = p0 :: ps ->
  hasSlash p0 = false /\ exists b, s = p0 +:+ "/" +:+ b /\ Split b "/" = ps.
Proof.
  revert p0. induction s as [|c s IH]; intros p0 Hps H; simpl in H.
  - by simplify_eq.
  - destruct (Ascii.eqb c "/") eqn:Hc.
    + apply Ascii.eqb_eq in Hc. subst c. injection H as <- <-.
      split; [done|]. by exists s.
    + destruct (Split s "/") as [|q qs] eqn:E; [by apply Split_nonempty in E|].
      injection H as <- <-. destruct (IH q Hps eq_refl) as (Hq & b & -> & Hb).
      split; [simpl; by rewrite Hc|]. by exists b.
Qed.

Lemma hasSlash_append_slash (a b : string) : hasSlash (a +:+ String "/" b) = true.
Proof. induction a as [|c a IH]; [done|]. simpl. rewrite IH. apply orb_true_r. Qed.

Lemma append_slash_inv (a x p b : string) :
  hasSlash p = false -> hasSlash b = false ->
  a +:+ "/" +:+ x = p +:+ "/" +:+ b -> a = p /\ x = b.
Proof.
  revert p. induction a as [|c a IH]; intros [|c' p] Hp Hb H; simpl in *.
  - by simplify_eq.
  - injection H as <- _. by rewrite Ascii.eqb_refl in Hp.
  - injection H as -> H. change ("" +:+ b) with b in H. subst b.
    change (hasSlash (a +:+ String "/" x) = false) in Hb.
    by rewrite hasSlash_append_slash in Hb.
  - injection H as <- H. apply orb_false_iff in Hp as [_ Hp].
    destruct (IH p Hp Hb H) as [-> ->]. done.
Qed.

(** A gateway key has two parts exactly when neither the namespace nor
    the ingress class has a slash in it; the parts are then these two. *)
Lemma Split_Sprintf2 (ns cls p0 p1 : string) :
  Split (Sprintf2 ns cls) "/" = [p0; p1] <->
  ns = p0 /\ cls = p1 /\ hasSlash ns = false /\ hasSlash cls = false.
Proof.
  unfold Sprintf2. split.
  - intros H. apply Split_cons_inv in H as (H0 & b & Hb & H1); [|done].
    assert (Hb1 : hasSlash b = false) by (apply Split_one_part; by rewrite H1).
    rewrite Split_slashFree in H1 by done. injection H1 as ->.
    apply append_slash_inv in Hb as [-> ->]; done.
  - intros (-> & -> & H0 & H1). rewrite Split_append by done.
    by rewrite Split_slashFree.
Qed.

End Split.

Section Listeners.

Lemma tls_loop (tls : list IngressTLS) : forall cfg,
  foldM (fun (cfg : option GatewayTLSConfig) (tls : IngressTLS) =>
           match cfg with
           | Some c =>
               Some (Some (mkGatewayTLSConfig (CertificateRefs c ++ [SecretName tls])))
           | None => None
           end) (Some cfg) tls
  = Some (Some (mkGatewayTLSConfig (CertificateRefs cfg ++ (SecretName <$> tls)))).
Proof.
  induction tls as [|t tls IH]; intros cfg.
  - simpl. rewrite app_nil_r. by destruct cfg.
  - cbn [foldM]. rewrite IH. cbn. by rewrite <- app_assoc.
Qed.

(** The listener of a rule group is always built. *)
Lemma groupListener_eq rg : groupListener rg = Some (listenerOf rg).
Proof.
  unfold groupListener, listenerOf, tlsConfigOf, hostnameOf.
  destruct (rg_tls rg) as [|t tls] eqn:E; [done|].
  cbn [length Nat.ltb Nat.leb]. by rewrite tls_loop.
Qed.

Lemma expandListener_listenerOf rg : expandListener (listenerOf rg) = listenersOfGroup rg.
Proof.
  unfold expandListener, listenersOfGroup, listenerOf, tlsConfigOf. cbn.
  by destruct (rg_tls rg).
Qed.

Lemma listeners_loop (ls : list Listener) : forall g,
  foldl listenerStep g ls
  = set_gw_Listeners (gw_Listeners g ++ (ls ≫= expandListener)) g.
Proof.
  induction ls as [|l ls IH]; intros g.
  - cbn. rewrite app_nil_r. by destruct g.
  - cbn [foldl]. rewrite IH. unfold listenerStep, set_gw_Listeners, expandListener.
    cbn. f_equal. fold (listenerNamePrefix (l_Hostname l)).
    destruct (l_TLS l); cbn; by rewrite <- !app_assoc.
Qed.

(** The listeners found under a gateway key after the loop over the rule
    groups. *)
Lemma lookup_addListeners (kls : list (string * Listener)) : forall m k,
  foldl addListener m kls !! k
  = match filter (fun e => e.1 = k) kls with
    | [] => m !! k
    | e :: es => Some (default [] (m !! k) ++ (e :: es).*2)
    end.
Proof.
  induction kls as [|e kls IH]; intros m k; [done|].
  cbn [foldl]. rewrite IH, filter_cons. unfold addListener.
  destruct (decide (e.1 = k)) as [<-|Hne].
  - rewrite lookup_insert_eq. cbn [default].
    destruct (filter _ kls) as [|e' es]; [done|].
    cbn [default fmap list_fmap]. unfold id. by rewrite <- app_assoc.
  - by rewrite lookup_insert_ne.
Qed.

End Listeners.

Section GroupsLoop.

Lemma groupStep_output o routes errs lb entry :
  groupStep o (routes, errs, lb) entry
  = (fun out => (routes ++ [out.1], errs, addListener lb out.2)) <$> groupOutput o entry.
Proof.
  unfold groupStep, groupOutput. rewrite groupListener_eq.
  by destruct (toHTTPRoute _ _) as [[route errs_inner]|].
Qed.

Lemma groups_loop o (entries : list (ruleGroupKey * ingressRuleGroup)) :
  forall routes errs lb,
  foldM (groupStep o) (routes, errs, lb) entries
  = (fun outs => (routes ++ outs.*1, errs, foldl addListener lb outs.*2))
      <$> mapM (groupOutput o) entries.
Proof.
  induction entries as [|entry entries IH]; intros routes errs lb.
  - cbn. by rewrite app_nil_r.
  - cbn [foldM mapM]. rewrite groupStep_output.
    destruct (groupOutput o entry) as [[route kl]|]; [|done].
    cbn [fmap option_fmap option_map mbind option_bind fst snd]. rewrite IH.
    destruct (mapM (groupOutput o) entries) as [outs|]; [|done].
    cbn. by rewrite <- app_assoc.
Qed.

Lemma groupOutputs_listeners o (entries : list (ruleGroupKey * ingressRuleGroup)) outs :
  mapM (groupOutput o) entries = Some outs ->
  outs.*2 = (fun rg => (gwKeyOf rg, listenerOf rg)) <$> entries.*2.
Proof.
  intros H. apply mapM_Some_1 in H.
  induction H as [|entry out entries outs Hout _ IH]; [done|].
  cbn [fmap list_fmap]. rewrite <- IH. f_equal.
  unfold groupOutput in Hout.
  destruct (toHTTPRoute _ _) as [[route errs]|]; by simplify_eq.
Qed.

Lemma filter_gwKey (rgs : list ingressRuleGroup) k :
  filter (fun e : string * Listener => e.1 = k)
    ((fun rg => (gwKeyOf rg, listenerOf rg)) <$> rgs)
  = (fun rg => (gwKeyOf rg, listenerOf rg)) <$> filter (fun rg => gwKeyOf rg = k) rgs.
Proof.
  induction rgs as [|rg rgs IH]; [done|].
  cbn [fmap list_fmap]. rewrite !filter_cons. cbn [fst].
  destruct (decide (gwKeyOf rg = k)); cbn [fmap list_fmap]; by rewrite IH.
Qed.

(** The listeners under a gateway key: those of the rule groups of that
    key, in the order the rule groups were visited. *)
Lemma lookup_listeners (rgs : list ingressRuleGroup) k :
  foldl addListener ∅ ((fun rg => (gwKeyOf rg, listenerOf rg)) <$> rgs) !! k
  = match filter (fun rg => gwKeyOf rg = k) rgs with
    | [] => None
    | rg :: rest => Some (listenerOf <$> rg :: rest)
    end.
Proof.
  rewrite lookup_addListeners, filter_gwKey, lookup_empty.
  destruct (filter _ rgs) as [|rg rest]; [done|].
  cbn [fmap list_fmap default app]. f_equal. f_equal.
  rewrite <- list_fmap_compose. done.
Qed.

End GroupsLoop.

Section GatewaysLoop.

Lemma defaultBackendStep_output st db :
  defaultBackendStep st db
  = (fun d => (st.1 ++ d.1, st.2 ++ d.2)) <$> defaultBackendOutput db.
Proof.
  destruct st as [routes errs]. unfold defaultBackendOutput, defaultBackendStep.
  destruct (toBackendRef (db_backend db)) as [[br|err]|]; cbn; by rewrite ?app_nil_r.
Qed.

Lemma twoParts_gatewayFor k ls : twoParts k = false <-> gatewayFor k ls = None.
Proof.
  unfold twoParts, gatewayFor.
  destruct (Split k "/") as [|p0 [|p1 [|p2 ps]]]; split; done.
Qed.

Lemma gatewayStep_fresh gm errs k ls :
  gm !! k = None ->
  gatewayStep (gm, errs) (k, ls)
  = match gatewayFor k ls with
    | Some g => (<[k := g]> gm, errs)
    | None => (gm, errs ++ [MalformedGatewayKey k])
    end.
Proof.
  intros Hk. unfold gatewayStep, gatewayFor. rewrite Hk.
  destruct (Split k "/") as [|p0 [|p1 [|p2 ps]]]; try done.
  by rewrite listeners_loop.
Qed.

(** The gateways by key and the errors that the loop over the listeners
    by gateway key leaves. *)
Lemma gateways_loop (entries : list (string * list Listener)) errs :
  NoDup entries.*1 ->
  (forall k g, (foldl gatewayStep (∅, errs) entries).1 !! k = Some g <->
               exists ls, (k, ls) ∈ entries /\ gatewayFor k ls = Some g) /\
  (foldl gatewayStep (∅, errs) entries).2
  = errs ++ (MalformedGatewayKey <$> filter (fun k => twoParts k = false) entries.*1).
Proof.
  induction entries as [|[k ls] entries IH] using rev_ind; intros Hnd.
  - cbn. rewrite app_nil_r. split; [|done]. intros k g. rewrite lookup_empty.
    split; [done|]. intros (ls & Hin & _). by apply elem_of_nil in Hin.
  - rewrite fmap_app in Hnd. apply NoDup_app in Hnd as (Hnd & Hfresh & _).
    destruct (IH Hnd) as [IHg IHe]. clear IH.
    rewrite foldl_app. cbn [foldl].
    destruct (foldl gatewayStep (∅, errs) entries) as [gm errs'] eqn:E.
    cbn [fst snd] in IHg, IHe.
    assert (Hk : gm !! k = None).
    { destruct (gm !! k) as [g|] eqn:Hg; [|done].
      apply IHg in Hg as (ls' & Hin & _). exfalso.
      apply (Hfresh k); [|cbn; left].
      apply list_elem_of_fmap. by exists (k, ls'). }
    rewrite gatewayStep_fresh by done. rewrite fmap_app, filter_app.
    destruct (gatewayFor k ls) as [g|] eqn:Hg; cbn [fst snd].
    + split.
      * intros k' g'. destruct (decide (k = k')) as [<-|Hne].
        -- rewrite lookup_insert_eq. split.
           ++ intros [= <-]. exists ls. split; [|done]. apply elem_of_app. right. left.
           ++ intros (ls' & Hin & Hg'). apply elem_of_app in Hin as [Hin|Hin].
              ** exfalso. apply (Hfresh k); [|cbn; left].
                 apply list_elem_of_fmap. by exists (k, ls').
              ** apply list_elem_of_singleton in Hin. simplify_eq. congruence.
        -- rewrite lookup_insert_ne by done. rewrite IHg. split.
           ++ intros (ls' & Hin & Hg'). exists ls'. split; [|done].
              apply elem_of_app. by left.
           ++ intros (ls' & Hin & Hg'). exists ls'. split; [|done].
              apply elem_of_app in Hin as [Hin|Hin]; [done|].
              apply list_elem_of_singleton in Hin. by simplify_eq.
      * rewrite IHe. cbn [fmap list_fmap]. rewrite filter_cons. cbn [fst].
        destruct (decide (twoParts k = false)) as [Hbad|_].
        -- apply (twoParts_gatewayFor k ls) in Hbad. congruence.
        -- cbn. by rewrite app_nil_r.
    + split.
      * intros k' g'. rewrite IHg. split.
        -- intros (ls' & Hin & Hg'). exists ls'. split; [|done].
           apply elem_of_app. by left.
        -- intros (ls' & Hin & Hg'). exists ls'. split; [|done].
           apply elem_of_app in Hin as [Hin|Hin]; [done|].
           apply list_elem_of_singleton in Hin. simplify_eq.
      * rewrite IHe. cbn [fmap list_fmap]. rewrite filter_cons. cbn [fst].
        destruct (decide (twoParts k = false)) as [_|Hgood].
        -- rewrite filter_nil, fmap_app. cbn [fmap list_fmap]. by rewrite <- app_assoc.
        -- exfalso. apply Hgood. by apply (twoParts_gatewayFor k ls).
Qed.

End GatewaysLoop.

Section Transform.

(** [toHTTPRoutesAndGateways] is the composition of its four loops. *)
Lemma toHTTPRoutesAndGateways_outputs o a :
  toHTTPRoutesAndGateways o a = transformOutputs o a.
Proof.
  unfold toHTTPRoutesAndGateways, transformOutputs, listenersByKey.
  rewrite groups_loop.
  destruct (mapM (groupOutput o) _) as [outs|] eqn:Houts; [|done].
  cbn [fmap option_fmap option_map app].
  rewrite (foldM_appends defaultBackendOutput defaultBackendStep defaultBackendStep_output).
  destruct (mapM defaultBackendOutput _) as [douts|]; [|done].
  cbn [fmap option_fmap option_map fst snd app].
  rewrite (groupOutputs_listeners _ _ _ Houts).
  by destruct (foldl gatewayStep _ _).
Qed.

End Transform.

(** * The gateways of a run *)

Section GatewayOfKey.

Lemma Split_two_inv (k p0 p1 : string) :
  Split k "/" = [p0; p1] ->
  k = Sprintf2 p0 p1 /\ hasSlash p0 = false /\ hasSlash p1 = false.
Proof.
  intros H. apply Split_cons_inv in H as (H0 & b & -> & H1); [|done].
  assert (Hb : hasSlash b = false) by (apply Split_one_part; by rewrite H1).
  rewrite Split_slashFree in H1 by done. by injection H1 as ->.
Qed.

Lemma bind_listenerOf (rgs : list ingressRuleGroup) :
  (listenerOf <$> rgs) ≫= expandListener = rgs ≫= listenersOfGroup.
Proof.
  rewrite list_fmap_bind. induction rgs as [|rg rgs IH]; [done|].
  cbn [mbind list_bind]. cbn [mbind] in IH. rewrite IH. f_equal.
  apply expandListener_listenerOf.
Qed.

Lemma gatewayFor_Some k (rgs : list ingressRuleGroup) g :
  gatewayFor k (listenerOf <$> rgs) = Some g <->
  exists p0 p1, Split k "/" = [p0; p1] /\
    g = mkGateway gatewayGVK p0 p1 p1 (rgs ≫= listenersOfGroup).
Proof.
  unfold gatewayFor. rewrite bind_listenerOf.
  destruct (Split k "/") as [|p0 [|p1 [|p2 ps]]]; split;
    try (by intros (? & ? & ? & ?)); try done.
  - intros [= <-]. by exists p0, p1.
  - intros (q0 & q1 & [= <- <-] & ->). done.
Qed.

(** The gateway found under a key after the loop over the listeners. *)
Lemma gateways_by_key s (rgs : list ingressRuleGroup) errs0 k g :
  (foldl gatewayStep (∅, errs0) (range s (listenersByKey rgs))).1 !! k = Some g <->
  exists rg rest,
    filter (fun rg => gwKeyOf rg = k) rgs = rg :: rest /\
    gatewayFor k (listenerOf <$> rg :: rest) = Some g.
Proof.
  destruct (gateways_loop (range s (listenersByKey rgs)) errs0) as [Hg _];
    [apply NoDup_range_keys|].
  rewrite Hg. clear Hg. split.
  - intros (ls & Hin & Hfor). apply elem_of_range in Hin.
    unfold listenersByKey in Hin. rewrite lookup_listeners in Hin.
    destruct (filter _ rgs) as [|rg rest]; [done|].
    injection Hin as <-. by exists rg, rest.
  - intros (rg & rest & Hf & Hfor). exists (listenerOf <$> rg :: rest).
    split; [|done]. apply elem_of_range.
    unfold listenersByKey. by rewrite lookup_listeners, Hf.
Qed.

Lemma gateway_errors s (rgs : list ingressRuleGroup) errs0 :
  (foldl gatewayStep (∅, errs0) (range s (listenersByKey rgs))).2
  = errs0 ++ (MalformedGatewayKey <$>
                filter (fun k => twoParts k = false) (range s (listenersByKey rgs)).*1).
Proof. apply gateways_loop, NoDup_range_keys. Qed.

(** With a key of two parts, the rule groups of the key are those of the
    namespace and ingress class that the parts are. *)
Lemma filter_gwKey_pair (rgs : list ingressRuleGroup) k p0 p1 :
  Split k "/" = [p0; p1] ->
  filter (fun rg => gwKeyOf rg = k) rgs
  = filter (fun rg => (rg_namespace rg, rg_ingressClass rg) = (p0, p1)) rgs.
Proof.
  intros Hk. apply list_filter_iff. intros rg. unfold gwKeyOf. split.
  - intros Hrg. rewrite <- Hrg in Hk. apply Split_Sprintf2 in Hk as (-> & -> & _). done.
  - intros [= -> ->]. by apply Split_two_inv in Hk as (-> & _).
Qed.

Lemma fst_keyed {V} (key : V -> string) (l : list (string * V)) :
  (forall k v, (k, v) ∈ l -> k = key v) -> l.*1 = key <$> l.*2.
Proof.
  induction l as [|[k v] l IH]; intros H; [done|].
  cbn [fmap list_fmap fst snd]. rewrite <- IH.
  - f_equal. apply H. left.
  - intros k' v' Hin. apply H. by right.
Qed.

End GatewayOfKey.

Section GatewaysOfRun.

Context (o : Oracle) (a : ingressAggregator).

(** The gateways that the last loop lists, key by key. *)
Lemma gateway_of_run errs0 k g :
  (k, g) ∈ range (o_gateways o)
             (foldl gatewayStep (∅, errs0)
                (range (o_listeners o) (listenersByKey (visitedGroups o a)))).1
  <-> exists p0 p1 rg rest,
        Split k "/" = [p0; p1] /\
        filter (fun rg => gwKeyOf rg = k) (visitedGroups o a) = rg :: rest /\
        g = mkGateway gatewayGVK p0 p1 p1 ((rg :: rest) ≫= listenersOfGroup).
Proof.
  rewrite elem_of_range, gateways_by_key. split.
  - intros (rg & rest & Hf & Hfor). apply gatewayFor_Some in Hfor as (p0 & p1 & Hk & ->).
    by exists p0, p1, rg, rest.
  - intros (p0 & p1 & rg & rest & Hk & Hf & ->). exists rg, rest. split; [done|].
    apply gatewayFor_Some. by exists p0, p1.
Qed.

Lemma run_gateways routes gateways errs :
  transformOutputs o a = Some (routes, gateways, errs) ->
  exists errs0,
    gateways = (range (o_gateways o)
                  (foldl gatewayStep (∅, errs0)
                     (range (o_listeners o) (listenersByKey (visitedGroups o a)))).1).*2 /\
    errs = errs0 ++ (MalformedGatewayKey <$>
                       filter (fun k => twoParts k = false)
                         (range (o_listeners o) (listenersByKey (visitedGroups o a))).*1).
Proof.
  unfold transformOutputs, visitedGroups. intros run.
  destruct (mapM (groupOutput o) _) as [outs|]; [|done].
  destruct (mapM defaultBackendOutput _) as [douts|]; [|done].
  injection run as _ <- <-. exists (concat douts.*2). split; [done|].
  apply gateway_errors.
Qed.

(** A rule group of the aggregator is among those the first loop visits,
    and its listener is filed under the key of its gateway. *)
Lemma group_visited k rg :
  ruleGroups a !! k = Some rg ->
  rg ∈ visitedGroups o a /\
  gwKeyOf rg ∈ (range (o_listeners o) (listenersByKey (visitedGroups o a))).*1.
Proof.
  intros Hk.
  assert (Hin : rg ∈ visitedGroups o a).
  { unfold visitedGroups. apply list_elem_of_fmap. exists (k, rg).
    split; [done|]. by apply elem_of_range. }
  split; [done|].
  assert (Hf : rg ∈ filter (fun rg' => gwKeyOf rg' = gwKeyOf rg) (visitedGroups o a))
    by (by apply list_elem_of_filter).
  destruct (filter _ (visitedGroups o a)) as [|rg0 rest] eqn:E;
    [by apply elem_of_nil in Hf|].
  apply list_elem_of_fmap. exists (gwKeyOf rg, listenerOf <$> rg0 :: rest).
  split; [done|]. apply elem_of_range. unfold listenersByKey.
  by rewrite lookup_listeners, E.
Qed.

End GatewaysOfRun.

(** C8, as the code has it.  The gateways of a run have pairwise different
    (namespace, name) pairs; every gateway has its name as gateway class
    name, belongs to at least one rule group of the run, and lists, for
    each rule group of its namespace and ingress class in the order the
    rule groups were visited, the HTTP listener on port 80 and, when the
    group has TLS entries, the HTTPS listener on port 443 with their
    certificate references; a rule group whose namespace and ingress class
    have no slash in them has its gateway, of that namespace and with the
    ingress class as name; for a rule group with a slash in one of the two
    the run reports a malformed gateway key and has no gateway of that
    pair.  Two source objects of one namespace and ingress class and of
    two hosts give one gateway with one HTTP listener for each host. *)
Theorem gateways_of_run :
  (forall (o : Oracle) (ingresses : list Ingress)
          (routes : list HTTPRoute) (gateways : list Gateway) (errs : list error),
     transform o ingresses = Some (routes, gateways, errs) ->
     NoDup ((fun g => (gw_Namespace g, gw_Name g)) <$> gateways) /\
     (forall g, g ∈ gateways ->
        gw_GatewayClassName g = gw_Name g /\
        groupsOfGateway o (aggregate ingresses) g <> [] /\
        gw_Listeners g = groupsOfGateway o (aggregate ingresses) g ≫= listenersOfGroup) /\
     (forall k rg, ruleGroups (aggregate ingresses) !! k = Some rg ->
        if hasSlash (rg_namespace rg) || hasSlash (rg_ingressClass rg)
        then MalformedGatewayKey (gwKeyOf rg) ∈ errs /\
             (forall g, g ∈ gateways ->
                (gw_Namespace g, gw_Name g) <> (rg_namespace rg, rg_ingressClass rg))
        else exists g, g ∈ gateways /\
               gw_Namespace g = rg_namespace rg /\ gw_Name g = rg_ingressClass rg)) /\
  (fun r : list HTTPRoute * list Gateway * list error =>
     (fun g => (gw_Name g, gw_GatewayClassName g,
                (fun l => (l_Hostname l, l_Port l)) <$> gw_Listeners g)) <$> r.1.2)
    <$> transform (uniform inOrder) [shopIngress; blogIngress]
  = Some [("nginx", "nginx",
           [(Some "shop.example.com", 80%Z); (Some "blog.example.com", 80%Z)])].
Proof.
  split; [|by vm_compute].
  intros o ingresses routes gateways errs. unfold transform. rewrite toHTTPRoutesAndGateways_outputs.
  set (a := aggregate ingresses). intros run.
  destruct (run_gateways o a _ _ _ run) as (errs0 & Hgw & Herrs).
  set (rgs := visitedGroups o a) in *.
  set (gws := range (o_gateways o) _) in Hgw.
  assert (Hchar : forall k g, (k, g) ∈ gws <-> exists p0 p1 rg rest,
            Split k "/" = [p0; p1] /\
            filter (fun rg => gwKeyOf rg = k) rgs = rg :: rest /\
            g = mkGateway gatewayGVK p0 p1 p1 ((rg :: rest) ≫= listenersOfGroup))
    by apply gateway_of_run.
  assert (Hmem : forall g, g ∈ gateways -> exists k, (k, g) ∈ gws).
  { intros g. rewrite Hgw. intros Hin. apply list_elem_of_fmap in Hin as ([k g'] & -> & Hin).
    by exists k. }
  split; [|split].
  - assert (Hkeys : gws.*1 = (fun g => Sprintf2 (gw_Namespace g) (gw_Name g)) <$> gws.*2).
    { apply fst_keyed. intros k g Hin.
      apply Hchar in Hin as (p0 & p1 & rg & rest & Hk & _ & ->).
      by apply Split_two_inv in Hk as (-> & _). }
    assert (Hnd : NoDup gws.*1) by apply NoDup_range_keys.
    rewrite Hkeys, <- Hgw in Hnd.
    apply (NoDup_fmap_1 (fun p : string * string => Sprintf2 p.1 p.2)).
    by rewrite <- list_fmap_compose.
  - intros g Hin. apply Hmem in Hin as [k Hin].
    apply Hchar in Hin as (p0 & p1 & rg & rest & Hk & Hf & ->). cbn.
    unfold groupsOfGateway. cbn [gw_Namespace gw_Name]. fold a. fold rgs.
    rewrite <- (filter_gwKey_pair rgs k p0 p1 Hk), Hf. done.
  - intros k rg Hk. destruct (group_visited o a k rg Hk) as [Hin Hkey]. fold rgs in Hin, Hkey.
    destruct (hasSlash (rg_namespace rg) || hasSlash (rg_ingressClass rg)) eqn:Hs.
    + split.
      * rewrite Herrs. apply elem_of_app. right. apply list_elem_of_fmap_2.
        apply list_elem_of_filter. split; [|done].
        unfold twoParts.
        destruct (Split (gwKeyOf rg) "/") as [|p0 [|p1 [|p2 ps]]] eqn:E; try done.
        apply Split_Sprintf2 in E as (_ & _ & H0 & H1). by rewrite H0, H1 in Hs.
      * intros g Hg [= Hns Hname]. apply Hmem in Hg as [k' Hg].
        apply Hchar in Hg as (p0 & p1 & rg' & rest & Hk' & _ & ->).
        cbn in Hns, Hname. subst p0 p1.
        apply Split_two_inv in Hk' as (_ & H0 & H1). by rewrite H0, H1 in Hs.
    + apply orb_false_iff in Hs as [H0 H1].
      assert (Hf : rg ∈ filter (fun rg' => gwKeyOf rg' = gwKeyOf rg) rgs)
        by (by apply list_elem_of_filter).
      destruct (filter _ rgs) as [|rg0 rest] eqn:E; [by apply elem_of_nil in Hf|].
      exists (mkGateway gatewayGVK (rg_namespace rg) (rg_ingressClass rg) (rg_ingressClass rg)
                ((rg0 :: rest) ≫= listenersOfGroup)).
      split; [|done].
      rewrite Hgw. apply list_elem_of_fmap.
      exists (gwKeyOf rg, mkGateway gatewayGVK (rg_namespace rg) (rg_ingressClass rg)
                            (rg_ingressClass rg) ((rg0 :: rest) ≫= listenersOfGroup)).
      split; [done|]. apply Hchar. exists (rg_namespace rg), (rg_ingressClass rg), rg0, rest.
      split; [by apply Split_Sprintf2|]. split; [exact E|reflexivity].
Qed.

Lemma gateways_of_run_witness :
  exists routes gateways errs,
    transform (uniform inOrder) [shopIngress; blogIngress] = Some (routes, gateways, errs) /\
    NoDup ((fun g => (gw_Namespace g, gw_Name g)) <$> gateways).
Proof.
  destruct (transform (uniform inOrder) [shopIngress; blogIngress])
    as [[[routes gateways] errs]|] eqn:E; [|by vm_compute in E].
  exists routes, gateways, errs. split; [done|].
  by destruct (proj1 gateways_of_run _ _ _ _ _ E) as [Hnd _].
Defined.

(** C8, as it is stated, fails: the rule group of a source object whose
    ingress class has a slash in it gets no gateway, only the error of a
    malformed gateway key. *)
Lemma no_gateway_for_class_with_slash :
  (fun rg => (rg_namespace rg, rg_ingressClass rg))
    <$> (map_to_list (ruleGroups (aggregate [slashInClass]))).*2
  = [("team", "blue/nginx")] /\
  (fun r : list HTTPRoute * list Gateway * list error => (r.1.2, r.2))
    <$> transform (uniform inOrder) [slashInClass]
  = Some ([], [MalformedGatewayKey "team/blue/nginx"]).
Proof. split; by vm_compute. Qed.

(** * The outputs of two runs *)

Section UpToOrder.

Context {A B : Type} (R : relation B).

Lemma permUpTo_refl `{!Reflexive R} (l : list B) : permUpTo R l l.
Proof. exists l. split; [done|]. by apply Forall2_same_length_lookup_2; [|intros; simplify_eq]. Qed.

Lemma permUpTo_app `{!Reflexive R} (l1 l2 l : list B) :
  permUpTo R l1 l2 -> permUpTo R (l1 ++ l) (l2 ++ l).
Proof.
  intros (k & Hp & Hf). exists (k ++ l). split; [by rewrite Hp|].
  apply Forall2_app; [done|]. by destruct (permUpTo_refl l) as (? & ?%Permutation_length & ?);
    apply Forall2_same_length_lookup_2; [|intros; simplify_eq].
Qed.

Lemma omap_Forall2 (f1 f2 : A -> option B) (l : list A) :
  (forall x, x ∈ l -> option_Forall2 R (f1 x) (f2 x)) ->
  Forall2 R (omap f1 l) (omap f2 l).
Proof.
  induction l as [|x l IH]; intros H; [constructor|].
  cbn [omap list_omap].
  destruct (H x) as [y1 y2 Hy|]; [left| |].
  - constructor; [done|]. apply IH. intros x' Hx'. apply H. by right.
  - apply IH. intros x' Hx'. apply H. by right.
Qed.

(** Two loops over the same elements in two orders, whose iterations
    yield the same up to [R], yield the same up to [R] and the order. *)
Lemma omap_permUpTo (f1 f2 : A -> option B) (l1 l2 : list A) :
  l1 ≡ₚ l2 ->
  (forall x, x ∈ l2 -> option_Forall2 R (f1 x) (f2 x)) ->
  permUpTo R (omap f1 l1) (omap f2 l2).
Proof.
  intros Hp H. exists (omap f1 l2). split; [by apply omap_Permutation|].
  by apply omap_Forall2.
Qed.

Lemma mapM_permUpTo (f1 f2 : A -> option B) (l1 l2 : list A) :
  l1 ≡ₚ l2 ->
  (forall x, x ∈ l2 -> option_Forall2 R (f1 x) (f2 x)) ->
  option_Forall2 (permUpTo R) (mapM f1 l1) (mapM f2 l2).
Proof.
  intros Hp H.
  assert (Hsome : is_Some (mapM f1 l1) <-> is_Some (mapM f2 l2)).
  { rewrite !mapM_is_Some, Hp, !Forall_forall. unfold compose.
    split; intros Hall x Hx; specialize (Hall x Hx);
      (destruct (H x Hx); [by eexists|by destruct Hall]). }
  destruct (mapM f1 l1) as [k1|] eqn:E1, (mapM f2 l2) as [k2|] eqn:E2.
  - constructor. apply mapM_Some_omap in E1, E2. subst. by apply omap_permUpTo.
  - by destruct (proj1 Hsome ltac:(eauto)).
  - by destruct (proj2 Hsome ltac:(eauto)).
  - constructor.
Qed.

End UpToOrder.

Section Concat.

Lemma concat_fmap_perm {A B} (f : A -> list B) (l1 l2 : list A) :
  l1 ≡ₚ l2 -> concat (f <$> l1) ≡ₚ concat (f <$> l2).
Proof.
  induction 1 as [|x l1 l2 _ IH|x y l|l1 l2 l3 _ IH1 _ IH2]; cbn.
  - done.
  - by rewrite IH.
  - rewrite !app_assoc. f_equiv. apply Permutation_app_comm.
  - by etrans.
Qed.

End Concat.

Section RouteOrder.

Lemma backendStep_errors refs n t errs p :
  backendStep (refs, n, t, errs) p
  = (fun r => (r.1, errs ++ r.2)) <$> backendStep (refs, n, t, []) p.
Proof.
  unfold backendStep.
  destruct (toBackendRef (Backend (ip_path p))) as [[br|err]|]; [|done|done].
  destruct (canaryWeight (ip_extra p)); cbn; by rewrite app_nil_r.
Qed.

Lemma backend_loop_errors paths : forall refs n t errs,
  foldM backendStep (refs, n, t, errs) paths
  = (fun r => (r.1, errs ++ r.2)) <$> foldM backendStep (refs, n, t, []) paths.
Proof.
  induction paths as [|p paths IH]; intros refs n t errs.
  - cbn. by rewrite app_nil_r.
  - cbn [foldM]. rewrite backendStep_errors.
    destruct (backendStep (refs, n, t, []) p) as [[[[refs' n'] t'] d]|]; [|done].
    cbn [fmap option_fmap option_map fst snd].
    rewrite (IH refs' n' t' (errs ++ d)), (IH refs' n' t' d).
    destruct (foldM backendStep (refs', n', t', []) paths) as [[[[refs2 n2] t2] d2]|];
      [|done].
    cbn. by rewrite app_assoc.
Qed.

(** An iteration of the loop over the partitions only appends to the
    errors and to the rules. *)
Lemma ruleStep_output st paths :
  ruleStep st paths
  = (fun d => (st.1 ++ d.1, st.2 ++ d.2)) <$> ruleStep ([], []) paths.
Proof.
  destruct st as [errors rules]. unfold ruleStep.
  destruct paths as [|first rest]; [done|].
  destruct (toHTTPRouteMatch first) as [[m|err]|]; [|by cbn; rewrite app_nil_r|done].
  rewrite (backend_loop_errors (first :: rest) [] 0%Z 0%Z errors).
  destruct (foldM backendStep ([], 0%Z, 0%Z, []) (first :: rest))
    as [[[[refs n] t] d]|]; [|done].
  cbn [fmap option_fmap option_map fst snd].
  destruct (distribute refs n t); cbn; by rewrite ?app_nil_r.
Qed.

Lemma routeUpToOrder_refl : Reflexive routeUpToOrder.
Proof. intros r. unfold routeUpToOrder. by repeat split. Qed.

(** The route of a rule group under two schedules of its partitions. *)
Lemma toHTTPRoute_schedules s1 s2 rg :
  option_Forall2 (fun r1 r2 => routeUpToOrder r1.1 r2.1 /\ r1.2 ≡ₚ r2.2)
    (toHTTPRoute s1 rg) (toHTTPRoute s2 rg).
Proof.
  rewrite !toHTTPRoute_unfold. destruct (partitions rg) as [p|]; [|constructor].
  rewrite !(foldM_appends (ruleStep ([], [])) ruleStep ruleStep_output).
  assert (Hp : (range s1 p).*2 ≡ₚ (range s2 p).*2)
    by (apply fmap_Permutation, range_schedules).
  destruct (mapM (ruleStep ([], [])) (range s1 p).*2) as [ds1|] eqn:E1.
  - destruct (mapM (ruleStep ([], [])) (range s2 p).*2) as [ds2|] eqn:E2.
    + pose proof (mapM_Some_perm _ _ _ _ _ Hp E1 E2) as Hds.
      cbn. constructor. unfold routeUpToOrder. cbn.
      repeat split; by apply concat_fmap_perm.
    + by rewrite (mapM_None_perm _ _ _ (symmetry Hp) E2) in E1.
  - rewrite (mapM_None_perm _ _ _ Hp E1). constructor.
Qed.

End RouteOrder.

Section GatewayOrder.

Lemma gatewayUpToOrder_refl : Reflexive gatewayUpToOrder.
Proof. intros g. unfold gatewayUpToOrder. by repeat split. Qed.

Lemma lookup_gateways s (rgs : list ingressRuleGroup) errs0 k :
  (foldl gatewayStep (∅, errs0) (range s (listenersByKey rgs))).1 !! k = gatewayAt rgs k.
Proof.
  apply option_eq. intros g. rewrite gateways_by_key. unfold gatewayAt. split.
  - by intros (rg & rest & -> & Hg).
  - destruct (filter _ rgs) as [|rg rest]; [done|]. intros Hg. by exists rg, rest.
Qed.

Lemma gatewayAt_perm (rgs1 rgs2 : list ingressRuleGroup) k :
  rgs1 ≡ₚ rgs2 -> option_Forall2 gatewayUpToOrder (gatewayAt rgs1 k) (gatewayAt rgs2 k).
Proof.
  intros Hp. unfold gatewayAt.
  assert (HF : filter (fun rg => gwKeyOf rg = k) rgs1
               ≡ₚ filter (fun rg => gwKeyOf rg = k) rgs2) by (by apply filter_Permutation).
  destruct (filter _ rgs1) as [|rg1 rest1].
  - destruct (filter _ rgs2) as [|rg2 rest2];
      [constructor|by apply Permutation_nil_cons in HF].
  - destruct (filter _ rgs2) as [|rg2 rest2];
      [by symmetry in HF; apply Permutation_nil_cons in HF|].
    unfold gatewayFor.
    destruct (Split k "/") as [|p0 [|p1 [|p2 ps]]]; try constructor.
    unfold gatewayUpToOrder. cbn [gw_GVK gw_Namespace gw_Name gw_GatewayClassName gw_Listeners].
    repeat split. apply bind_Permutation. by apply fmap_Permutation.
Qed.

Lemma range_values {V} s (m : gmap string V) :
  (range s m).*2 = omap (fun k => m !! k) (visit s (map_to_list m).*1).
Proof.
  unfold range. induction (visit s (map_to_list m).*1) as [|k ks IH]; [done|].
  cbn [omap list_omap]. destruct (m !! k); cbn; by rewrite IH.
Qed.

Lemma elem_of_keys {V} (m : gmap string V) k :
  k ∈ (map_to_list m).*1 <-> is_Some (m !! k).
Proof.
  rewrite list_elem_of_fmap. split.
  - intros ([k' v] & -> & Hin). apply elem_of_map_to_list in Hin. by eexists.
  - intros [v Hv]. exists (k, v). split; [done|]. by apply elem_of_map_to_list.
Qed.

(** Two maps with the same keys are visited key for key, up to order. *)
Lemma keys_perm {V W} s1 s2 (m1 : gmap string V) (m2 : gmap string W) :
  (forall k, is_Some (m1 !! k) <-> is_Some (m2 !! k)) ->
  visit s1 (map_to_list m1).*1 ≡ₚ visit s2 (map_to_list m2).*1.
Proof.
  intros H. rewrite !visit_perm.
  apply NoDup_Permutation; [apply NoDup_fst_map_to_list..|].
  intros k. by rewrite !elem_of_keys.
Qed.

Lemma range_keys {V} s (m : gmap string V) : (range s m).*1 ≡ₚ (map_to_list m).*1.
Proof. by rewrite range_perm. Qed.

Lemma listenersByKey_is_Some (rgs : list ingressRuleGroup) k :
  is_Some (listenersByKey rgs !! k) <-> filter (fun rg => gwKeyOf rg = k) rgs <> [].
Proof.
  unfold listenersByKey. rewrite lookup_listeners.
  destruct (filter _ rgs); split; (done || by intros [? ?] || by eauto).
Qed.

Lemma listenersByKey_keys s1 s2 (rgs1 rgs2 : list ingressRuleGroup) :
  rgs1 ≡ₚ rgs2 ->
  (range s1 (listenersByKey rgs1)).*1 ≡ₚ (range s2 (listenersByKey rgs2)).*1.
Proof.
  intros Hp. rewrite !range_keys.
  apply NoDup_Permutation; [apply NoDup_fst_map_to_list..|].
  intros k. rewrite !elem_of_keys, !listenersByKey_is_Some.
  assert (HF : filter (fun rg => gwKeyOf rg = k) rgs1
               ≡ₚ filter (fun rg => gwKeyOf rg = k) rgs2) by (by apply filter_Permutation).
  split; intros Hne Hnil; apply Hne; apply Permutation_nil_r; by rewrite <- Hnil.
Qed.

(** The gateways of two runs over the same rule groups, visited in two
    orders. *)
Lemma gateways_up_to_order s1 s2 t1 t2 (rgs1 rgs2 : list ingressRuleGroup) errs0 :
  rgs1 ≡ₚ rgs2 ->
  permUpTo gatewayUpToOrder
    (range t1 (foldl gatewayStep (∅, errs0) (range s1 (listenersByKey rgs1))).1).*2
    (range t2 (foldl gatewayStep (∅, errs0) (range s2 (listenersByKey rgs2))).1).*2.
Proof.
  intros Hp. rewrite !range_values.
  assert (Hpt : forall k, option_Forall2 gatewayUpToOrder
            ((foldl gatewayStep (∅, errs0) (range s1 (listenersByKey rgs1))).1 !! k)
            ((foldl gatewayStep (∅, errs0) (range s2 (listenersByKey rgs2))).1 !! k)).
  { intros k. rewrite !lookup_gateways. by apply gatewayAt_perm. }
  apply omap_permUpTo; [|by intros k _].
  apply keys_perm. intros k. specialize (Hpt k).
  split; intros [g Hg]; rewrite Hg in Hpt; inversion Hpt; by eexists.
Qed.

End GatewayOrder.

Section Runs.

Lemma permUpTo_fmap {A B} (R : relation A) (R' : relation B) (f : A -> B)
    (l1 l2 : list A) :
  (forall x y, R x y -> R' (f x) (f y)) ->
  permUpTo R l1 l2 -> permUpTo R' (f <$> l1) (f <$> l2).
Proof.
  intros Hf (l & Hp & Hall). exists (f <$> l). split; [by apply fmap_Permutation|].
  apply Forall2_fmap. eapply Forall2_impl; [exact Hall|]. done.
Qed.

Lemma groupOutput_oracles o1 o2 entry :
  option_Forall2 (fun out1 out2 => routeUpToOrder out1.1 out2.1)
    (groupOutput o1 entry) (groupOutput o2 entry).
Proof.
  unfold groupOutput.
  destruct (toHTTPRoute_schedules (o_paths o1 entry.1) (o_paths o2 entry.1) entry.2)
    as [[r1 e1] [r2 e2] [Hr _]|]; constructor. done.
Qed.

End Runs.

(** C2, as the code has it: two runs on the same list of source objects
    either both panic or return the same routes up to the order of the
    routes and of the rules in each route, the same gateways up to the
    order of the gateways and of the listeners in each gateway, and the
    same errors up to their order, whatever the orders in which the two
    runs iterate over their maps. *)
Theorem runs_agree_up_to_order (o1 o2 : Oracle) (ingresses : list Ingress) :
  option_Forall2 agreeUpToOrder (transform o1 ingresses) (transform o2 ingresses).
Proof.
  unfold transform. rewrite !toHTTPRoutesAndGateways_outputs. unfold transformOutputs.
  set (a := aggregate ingresses).
  assert (HG : range (o_groups o1) (ruleGroups a) ≡ₚ range (o_groups o2) (ruleGroups a))
    by apply range_schedules.
  pose proof (mapM_permUpTo (fun out1 out2 => routeUpToOrder out1.1 out2.1)
                (groupOutput o1) (groupOutput o2) _ _ HG
                (fun entry _ => groupOutput_oracles o1 o2 entry)) as Houts.
  destruct Houts as [outs1 outs2 Houts|]; [|constructor].
  destruct (mapM defaultBackendOutput (defaultBackends a)) as [douts|]; [|constructor].
  constructor. unfold agreeUpToOrder. cbn [fst snd]. split; [|split].
  - apply (permUpTo_app _ (Reflexive0 := routeUpToOrder_refl)).
    eapply permUpTo_fmap; [|exact Houts]. done.
  - apply gateways_up_to_order. by apply fmap_Permutation.
  - rewrite !gateway_errors. f_equiv. apply fmap_Permutation, filter_Permutation.
    apply listenersByKey_keys. by apply fmap_Permutation.
Qed.

(** C2, as it is stated, fails: visiting the rule groups of two source
    objects in the two possible orders gives the routes, and the listeners
    of the gateway, in two different orders. *)
Lemma runs_differ_in_order :
  transform (uniform inOrder) [shopIngress; blogIngress]
  <> transform (uniform reversed) [shopIngress; blogIngress].
Proof. by vm_compute. Qed.

(** * Runs that return *)

Section Totality.

Lemma foldM_is_Some {A B} (f : B -> A -> option B) (l : list A) : forall b,
  Forall (fun x => forall b', is_Some (f b' x)) l -> is_Some (foldM f b l).
Proof.
  induction l as [|x l IH]; intros b Hall; [by eexists|].
  inversion_clear Hall as [|? ? Hx Hl]. simpl.
  destruct (Hx b) as [b' ->]. by apply IH.
Qed.

Lemma toBackendRef_total b : resolvable b -> is_Some (toBackendRef b).
Proof.
  unfold toBackendRef. intros [[svc ->]|[res Hres]].
  - destruct (nonEmpty _); by eexists.
  - destruct (Service b) as [svc|]; [destruct (nonEmpty _); by eexists|].
    rewrite Hres. by eexists.
Qed.

Lemma backendStep_total st ip :
  resolvable (Backend (ip_path ip)) -> is_Some (backendStep st ip).
Proof.
  destruct st as [[[refs n] t] errs]. intros Hb. unfold backendStep.
  destruct (toBackendRef_total _ Hb) as [[br|err] ->]; [|by eexists].
  destruct (canaryWeight (ip_extra ip)); by eexists.
Qed.

Lemma ruleStep_total st paths :
  paths <> [] -> Forall (fun ip => completePath (ip_path ip)) paths ->
  is_Some (ruleStep st paths).
Proof.
  destruct st as [errors rules]. intros Hne Hall. unfold ruleStep.
  destruct paths as [|first rest]; [done|].
  assert (Hfirst : completePath (ip_path first)) by (by inversion Hall).
  destruct (proj2 (toHTTPRouteMatch_is_Some first) (proj1 Hfirst)) as [[m|err] ->];
    [|by eexists].
  destruct (foldM_is_Some backendStep (first :: rest) ([], 0%Z, 0%Z, errors))
    as [[[[refs n] t] errs] ->].
  { eapply Forall_impl; [exact Hall|]. intros ip [_ Hb] st. by apply backendStep_total. }
  destruct (distribute_total refs n t) as [refs' ->]. by eexists.
Qed.

Lemma addPath_complete e m path :
  completePartitions m -> completePath path -> completePartitions (addPath e m path).
Proof.
  intros Hm Hp. unfold addPath. apply map_Forall_insert_2; [|done].
  split; [by destruct (default [] _)|].
  apply Forall_app. split; [|by constructor].
  destruct (m !! _) as [paths|] eqn:E; [|constructor]. by apply (Hm _ _ E).
Qed.

Lemma collectPaths_complete m ir :
  completePartitions m -> completeRule (ir_rule ir) ->
  exists m', collectPaths m ir = Some m' /\ completePartitions m'.
Proof.
  intros Hm (http & Hhttp & Hpaths). unfold collectPaths. rewrite Hhttp.
  eexists. split; [done|]. clear Hhttp. revert m Hm.
  induction Hpaths as [|path paths Hpath _ IH]; intros m Hm; [done|].
  simpl. apply IH. by apply addPath_complete.
Qed.

Lemma partitions_complete rg :
  Forall (fun ir => completeRule (ir_rule ir)) (rg_rules rg) ->
  exists p, partitions rg = Some p /\ completePartitions p.
Proof.
  unfold partitions. generalize (rg_rules rg). intros rules Hall.
  assert (H0 : completePartitions ∅) by apply map_Forall_empty.
  revert H0. generalize (∅ : gmap string (list ingressPath)).
  induction Hall as [|ir rules Hir _ IH]; intros m Hm; [by exists m|].
  simpl. destruct (collectPaths_complete m ir Hm Hir) as (m' & -> & Hm'). by apply IH.
Qed.

(** Route building returns for a rule group all of whose rules have their
    HTTP section, and all of whose paths a path type and a backend that is
    a service or a resource. *)
Lemma toHTTPRoute_total s rg :
  Forall (fun ir => completeRule (ir_rule ir)) (rg_rules rg) ->
  is_Some (toHTTPRoute s rg).
Proof.
  intros Hall. rewrite toHTTPRoute_unfold.
  destruct (partitions_complete rg Hall) as (p & -> & Hp).
  destruct (foldM_is_Some ruleStep (range s p).*2 ([], [])) as [[errors rules] ->];
    [|by eexists].
  apply Forall_forall. intros paths Hin st.
  apply list_elem_of_fmap in Hin as ([k paths'] & -> & Hin).
  apply elem_of_range in Hin. destruct (Hp _ _ Hin) as [Hne Hpaths].
  by apply ruleStep_total.
Qed.

Lemma addIngress_eq a (ingress : Ingress) :
  addIngress a ingress
  = let a' := foldl addSourceRule a (sourceRulesOf ingress) in
    match DefaultBackend (Spec ingress) with
    | Some backend =>
        mkIngressAggregator (ruleGroups a')
          (defaultBackends a' ++
             [mkIngressDefaultBackend (Name ingress) (Namespace ingress)
                (ingressClassOf ingress) backend])
    | None => a'
    end.
Proof.
  unfold addIngress, sourceRulesOf.
  assert (H : forall rules a0,
    foldl (fun a1 rule => addIngressRule a1 (Namespace ingress) (ingressClassOf ingress)
                            rule (Spec ingress) (Some (getExtra ingress))) a0 rules
    = foldl addSourceRule a0
        ((fun rule => mkSourceRule (Namespace ingress) (ingressClassOf ingress) rule
                        (Spec ingress) (Some (getExtra ingress))) <$> rules)).
  { induction rules as [|r rules IH]; intros a0; [done|]. simpl. by rewrite IH. }
  by rewrite H.
Qed.

Lemma defaultBackends_complete (ingresses : list Ingress) : forall a,
  Forall completeIngress ingresses ->
  Forall (fun db => resolvable (db_backend db)) (defaultBackends a) ->
  Forall (fun db => resolvable (db_backend db))
    (defaultBackends (foldl addIngress a ingresses)).
Proof.
  induction ingresses as [|i l IH]; intros a Hall Ha; [done|].
  inversion_clear Hall as [|? ? [_ Hi] Hl]. simpl. apply IH; [done|].
  rewrite addIngress_eq. cbv zeta.
  destruct (DefaultBackend (Spec i)) as [b|] eqn:E.
  - cbn [defaultBackends]. rewrite defaultBackends_addSourceRules.
    apply Forall_app. split; [done|]. constructor; [|done]. by apply Hi.
  - by rewrite defaultBackends_addSourceRules.
Qed.

Lemma sourceRules_complete (ingresses : list Ingress) sr :
  Forall completeIngress ingresses -> sr ∈ sourceRules ingresses ->
  completeRule (sr_rule sr).
Proof.
  intros Hall Hin. unfold sourceRules in Hin.
  apply list_elem_of_bind in Hin as (i & Hsr & Hi).
  apply (proj1 (Forall_forall _ _) Hall) in Hi as [Hrules _].
  unfold sourceRulesOf in Hsr. apply list_elem_of_fmap in Hsr as (rule & -> & Hrule).
  by apply (proj1 (Forall_forall _ _) Hrules).
Qed.

Lemma groups_complete (ingresses : list Ingress) k rg :
  Forall completeIngress ingresses ->
  ruleGroups (aggregate ingresses) !! k = Some rg ->
  Forall (fun ir => completeRule (ir_rule ir)) (rg_rules rg).
Proof.
  intros Hall. rewrite lookup_aggregate. intros Hg.
  apply groupOf_Some in Hg as (sr & rest & Hf & _ & -> & _).
  apply Forall_fmap, Forall_forall. intros sr' Hin.
  apply list_elem_of_filter in Hin as [_ Hin]. by eapply sourceRules_complete.
Qed.

(** The transformation returns on source objects all of whose rules have
    their HTTP section, all of whose paths have a path type, and all of
    whose backends are a service or a resource, whatever the orders in
    which it iterates over its maps. *)
Lemma transform_total o (ingresses : list Ingress) :
  Forall completeIngress ingresses -> is_Some (transform o ingresses).
Proof.
  intros Hall. unfold transform. rewrite toHTTPRoutesAndGateways_outputs. unfold transformOutputs.
  destruct (proj2 (mapM_is_Some (groupOutput o)
                     (range (o_groups o) (ruleGroups (aggregate ingresses)))))
    as [outs ->].
  { apply Forall_forall. intros [k rg] Hin. apply elem_of_range in Hin.
    unfold compose, groupOutput. cbn [fst snd].
    destruct (toHTTPRoute_total (o_paths o k) rg) as [[route errs] ->]; [|by eexists].
    by eapply groups_complete. }
  destruct (proj2 (mapM_is_Some defaultBackendOutput (defaultBackends (aggregate ingresses))))
    as [douts ->]; [|by eexists].
  eapply Forall_impl; [by apply defaultBackends_complete|].
  intros db Hb. unfold compose, defaultBackendOutput, defaultBackendStep.
  destruct (toBackendRef_total _ Hb) as [[br|err] ->]; by eexists.
Qed.

End Totality.

(** * More on the name sanitizer *)

Section SanitizedNames.

Implicit Types (s : string) (c : ascii) (b : bool).

Lemma isDash_notAlnum c : isDash c = true -> notAlnum c = true.
Proof. unfold isDash. intros H. apply Ascii.eqb_eq in H. by subst. Qed.

Lemma notAlnum_nameChar c : notAlnum c = false -> nameChar c = true /\ isDash c = false.
Proof.
  intros H. destruct (isDash c) eqn:E.
  - apply isDash_notAlnum in E. congruence.
  - split; [|done]. unfold nameChar, notAlnum in *. apply negb_false_iff in H. by rewrite H.
Qed.

Lemma dash_append s : "-" +:+ s = String "-" s.
Proof. reflexivity. Qed.

Lemma replaceRuns_chars b s : allChars nameChar (replaceRuns notAlnum "-" b s) = true.
Proof.
  revert b. induction s as [|c s IH]; intros b; [done|]. simpl.
  destruct (notAlnum c) eqn:Hc.
  - destruct b; [apply IH|]. rewrite dash_append. simpl. apply IH.
  - simpl. rewrite IH. by destruct (notAlnum_nameChar c Hc) as [-> _].
Qed.

Lemma replaceRuns_dashes b s :
  hasDoubleDash (replaceRuns notAlnum "-" b s) = false /\
  (b = true -> startsWithDash (replaceRuns notAlnum "-" b s) = false).
Proof.
  revert b. induction s as [|c s IH]; intros b; [done|]. simpl.
  destruct (notAlnum c) eqn:Hc.
  - destruct (IH true) as [Hdd Hstart]. destruct b; [by auto|].
    split; [|done]. rewrite dash_append. simpl. by rewrite Hdd, Hstart.
  - destruct (IH false) as [Hdd _]. destruct (notAlnum_nameChar c Hc) as [_ Hnd].
    simpl. by rewrite Hnd, Hdd.
Qed.

Lemma skipClass_chars (P cls : ascii -> bool) s :
  allChars P s = true -> allChars P (skipClass cls s) = true.
Proof.
  induction s as [|c s IH]; [done|]. simpl. intros H.
  destruct (cls c); [|done]. apply andb_true_iff in H as [_ H]. by apply IH.
Qed.

Lemma skipClass_dashes (cls : ascii -> bool) s :
  hasDoubleDash s = false -> hasDoubleDash (skipClass cls s) = false.
Proof.
  induction s as [|c s IH]; [done|]. simpl. intros H.
  destruct (cls c); [|done]. apply orb_false_iff in H as [_ H]. by apply IH.
Qed.

Lemma skipClass_start s : startsWithDash (skipClass notAlnum s) = false.
Proof.
  induction s as [|c s IH]; [done|]. simpl.
  destruct (notAlnum c) eqn:Hc; [done|]. simpl. by destruct (notAlnum_nameChar c Hc).
Qed.

Lemma skipClass_empty (cls : ascii -> bool) s :
  skipClass cls s = "" <-> allChars cls s = true.
Proof.
  induction s as [|c s IH]; [done|]. simpl. destruct (cls c); [done|]. split; done.
Qed.

Lemma replaceRuns_all_separators b s :
  allChars notAlnum (replaceRuns notAlnum "-" b s) = allChars notAlnum s.
Proof.
  revert b. induction s as [|c s IH]; intros b; [done|]. simpl.
  destruct (notAlnum c) eqn:Hc; simpl.
  - destruct b; [apply IH|]. rewrite dash_append. simpl. apply IH.
  - by rewrite Hc.
Qed.

(** A text of name characters without leading dash and without two dashes
    in a row is left as it is by the replacement of the separator runs. *)
Lemma replaceRuns_fixed b s :
  allChars nameChar s = true -> hasDoubleDash s = false ->
  (b = true -> startsWithDash s = false) ->
  replaceRuns notAlnum "-" b s = s.
Proof.
  revert b. induction s as [|c s IH]; intros b Hchars Hdd Hb; [done|]. simpl in *.
  apply andb_true_iff in Hchars as [Hc Hchars].
  apply orb_false_iff in Hdd as [Hcc Hdd].
  destruct (notAlnum c) eqn:Hn.
  - assert (Hd : isDash c = true).
    { unfold nameChar, notAlnum in *. apply negb_true_iff in Hn. by rewrite Hn in Hc. }
    rewrite Hd in Hcc. simpl in Hcc. destruct b; [by rewrite Hb in Hd|].
    rewrite IH by done. rewrite dash_append.
    unfold isDash in Hd. apply Ascii.eqb_eq in Hd. by subst.
  - by rewrite IH.
Qed.

Lemma nameFromHost_nonempty s :
  s <> "" -> nameFromHost s = skipClass notAlnum (replaceRuns notAlnum "-" false s).
Proof.
  intros Hs. unfold nameFromHost. rewrite anchored_replace_skip.
  by destruct s.
Qed.

End SanitizedNames.

(** X1: a sanitized name is made of the characters [a-zA-Z0-9] and dashes
    only, does not start with a dash and has no two dashes in a row. *)
Theorem nameFromHost_shape (host : string) :
  allChars nameChar (nameFromHost host) = true /\
  startsWithDash (nameFromHost host) = false /\
  hasDoubleDash (nameFromHost host) = false.
Proof.
  destruct (decide (host = "")) as [->|Hne]; [by vm_compute|].
  rewrite nameFromHost_nonempty by done. split; [|split].
  - apply skipClass_chars, replaceRuns_chars.
  - apply skipClass_start.
  - apply skipClass_dashes, replaceRuns_dashes.
Qed.

(** X2: the sanitized name is empty exactly for a host that is not empty
    and has no character of [a-zA-Z0-9] in it; the empty host itself gets
    the name for all hosts. *)
Theorem nameFromHost_empty_name (host : string) :
  nameFromHost host = "" <-> host <> "" /\ allChars notAlnum host = true.
Proof.
  destruct (decide (host = "")) as [->|Hne].
  - split; [by vm_compute|]. by intros [? _].
  - rewrite nameFromHost_nonempty by done.
    rewrite skipClass_empty, replaceRuns_all_separators. by split; [|intros [_ ?]].
Qed.

(** X3: sanitizing a sanitized name that is not empty gives that name
    again. *)
Theorem nameFromHost_idempotent (host : string) :
  nameFromHost host <> "" ->
  nameFromHost (nameFromHost host) = nameFromHost host.
Proof.
  intros Hne.
  assert (Hshape : allChars nameChar (nameFromHost host) = true /\
                   startsWithDash (nameFromHost host) = false /\
                   hasDoubleDash (nameFromHost host) = false).
  { destruct (decide (host = "")) as [->|Hhost]; [by vm_compute|].
    rewrite nameFromHost_nonempty by done.
    split; [apply skipClass_chars, replaceRuns_chars|].
    split; [apply skipClass_start|apply skipClass_dashes, replaceRuns_dashes]. }
  destruct Hshape as (Hchars & Hstart & Hdd).
  rewrite (nameFromHost_nonempty (nameFromHost host)) by done.
  rewrite replaceRuns_fixed by done.
  destruct (nameFromHost host) as [|c s]; [done|]. simpl in *.
  destruct (notAlnum c) eqn:Hn; [|done].
  apply andb_true_iff in Hchars as [Hc _]. unfold nameChar, notAlnum in *.
  apply negb_true_iff in Hn. rewrite Hn, Hstart in Hc. done.
Qed.

Lemma nameFromHost_idempotent_witness :
  nameFromHost (nameFromHost "foo.bar.com") = nameFromHost "foo.bar.com".
Proof. apply nameFromHost_idempotent. by vm_compute. Defined.

(** * The aggregator between two calls *)

Section AddIngress.

Implicit Types (a : ingressAggregator) (sr : sourceRule) (k : ruleGroupKey).

Lemma addIngress_defaultBackends a (ingress : Ingress) :
  defaultBackends (addIngress a ingress)
  = defaultBackends a ++ option_list (defaultBackendOf ingress).
Proof.
  rewrite addIngress_eq. cbv zeta. unfold defaultBackendOf.
  destruct (DefaultBackend (Spec ingress)) as [b|]; cbn.
  - by rewrite defaultBackends_addSourceRules.
  - by rewrite defaultBackends_addSourceRules, app_nil_r.
Qed.

Lemma allRules_addSourceRule a sr :
  allRules (addSourceRule a sr) ≡ₚ allRules a ++ [entryOf sr] /\
  allTLS (addSourceRule a sr) ≡ₚ allTLS a ++ TLS (sr_spec sr).
Proof.
  unfold allRules, allTLS. rewrite ruleGroups_addSourceRule.
  set (m := ruleGroups a). set (k := keyOf sr).
  rewrite <- (insert_delete_eq m).
  rewrite !(map_to_list_insert (delete k m)) by apply lookup_delete_eq.
  destruct (m !! k) as [rg|] eqn:E.
  - rewrite <- !(map_to_list_delete m k rg E).
    cbn [fmap list_fmap snd mbind list_bind extend default rg_rules rg_tls].
    unfold id. split.
    + rewrite <- !app_assoc. f_equiv. apply Permutation_app_comm.
    + rewrite <- !app_assoc. f_equiv. apply Permutation_app_comm.
  - rewrite (delete_id m k E).
    cbn [fmap list_fmap snd mbind list_bind extend default rg_rules rg_tls app].
    split.
    + by rewrite Permutation_app_comm.
    + by rewrite Permutation_app_comm.
Qed.

End AddIngress.

(** X4: [addIngress] keeps every rule group filed under the key of the
    group's own namespace, ingress class and host, and with at least one
    rule. *)
Theorem addIngress_keeps_groups (a : ingressAggregator) (ingress : Ingress) :
  groupInvariant a -> groupInvariant (addIngress a ingress).
Proof.
  intros Ha k rg. rewrite lookup_addIngress.
  destruct (ruleGroups a !! k) as [rg0|] eqn:E.
  - rewrite foldl_extend_Some. intros [= <-]. cbn.
    destruct (Ha k rg0 E) as [Hne Hk]. split; [|done].
    by destruct (rg_rules rg0).
  - rewrite foldl_extend_None. intros Hg.
    assert (Hg' := Hg). apply groupOf_Some in Hg' as (sr & rest & Hf & Ht & Hr & _).
    split; [by rewrite Hr, Hf|].
    assert (Hin : sr ∈ filter (fun sr' => keyOf sr' = k) (sourceRulesOf ingress))
      by (rewrite Hf; left).
    apply list_elem_of_filter in Hin as [<- _].
    unfold tupleOfGroup, tupleOf in Ht. by injection Ht as -> -> ->.
Qed.

Lemma addIngress_keeps_groups_witness :
  groupInvariant (addIngress (addIngress emptyAggregator shopIngress) tlsIngress).
Proof.
  apply addIngress_keeps_groups, addIngress_keeps_groups.
  apply map_Forall_empty.
Defined.

(** X5: [addIngress] loses and duplicates nothing: after the call the rules
    of all rule groups together are those from before and one entry for
    each rule of the Ingress, and the TLS entries of all rule groups are
    those from before and the TLS entries of the Ingress once for each of
    its rules. *)
Theorem addIngress_conserves (a : ingressAggregator) (ingress : Ingress) :
  allRules (addIngress a ingress)
    ≡ₚ allRules a ++ (entryOf <$> sourceRulesOf ingress) /\
  allTLS (addIngress a ingress)
    ≡ₚ allTLS a ++ (Rules (Spec ingress) ≫= fun _ => TLS (Spec ingress)).
Proof.
  assert (Hrg : allRules (addIngress a ingress)
                = allRules (foldl addSourceRule a (sourceRulesOf ingress)) /\
                allTLS (addIngress a ingress)
                = allTLS (foldl addSourceRule a (sourceRulesOf ingress))).
  { unfold allRules, allTLS. by rewrite addIngress_sourceRules. }
  destruct Hrg as [-> ->].
  assert (Htls : (Rules (Spec ingress) ≫= fun _ => TLS (Spec ingress))
                 = sourceRulesOf ingress ≫= fun sr => TLS (sr_spec sr)).
  { unfold sourceRulesOf. by rewrite list_fmap_bind. }
  rewrite Htls. clear Htls.
  generalize (sourceRulesOf ingress). intros srs. revert a.
  induction srs as [|sr srs IH]; intros a.
  - cbn. by rewrite !app_nil_r.
  - cbn [foldl fmap list_fmap mbind list_bind].
    destruct (IH (addSourceRule a sr)) as [-> ->].
    destruct (allRules_addSourceRule a sr) as [-> ->].
    by rewrite <- !app_assoc.
Qed.

(** X6: over several calls, [addIngress] appends the default backends in
    the order of the calls: one entry, with the name, the namespace and the
    resolved ingress class of the Ingress, for each Ingress that has a
    default backend; and an Ingress without rules leaves the rule groups as
    they are. *)
Theorem addIngress_default_backends (a : ingressAggregator) (ingresses : list Ingress) :
  defaultBackends (foldl addIngress a ingresses)
    = defaultBackends a ++ omap defaultBackendOf ingresses /\
  (forall ingress, Rules (Spec ingress) = [] ->
     ruleGroups (addIngress a ingress) = ruleGroups a).
Proof.
  split.
  - revert a. induction ingresses as [|i l IH]; intros a.
    + cbn. by rewrite app_nil_r.
    + cbn [foldl omap list_omap]. rewrite IH, addIngress_defaultBackends.
      rewrite <- app_assoc. by destruct (defaultBackendOf i).
  - intros ingress Hrules. rewrite addIngress_sourceRules.
    unfold sourceRulesOf. by rewrite Hrules.
Qed.

Lemma addIngress_default_backends_witness :
  db_name <$> defaultBackends (foldl addIngress emptyAggregator [tlsIngress; shopIngress])
    = ["shop"] /\
  ruleGroups (addIngress emptyAggregator (mkIngress "empty" "default" ∅
                                            (mkIngressSpec None None [] [])))
    = ruleGroups emptyAggregator.
Proof.
  destruct (addIngress_default_backends emptyAggregator [tlsIngress; shopIngress])
    as [-> _].
  split; [vm_compute; reflexivity|].
  by apply (proj2 (addIngress_default_backends emptyAggregator [])).
Defined.

(** X7: [addIngress] only extends what is there: a rule group found under
    a key before the call is found under it after the call with the same
    namespace, ingress class and host, and with its rules and TLS entries
    from before at the front of its lists. *)
Theorem addIngress_extends (a : ingressAggregator) (ingress : Ingress) k rg :
  ruleGroups a !! k = Some rg ->
  exists rg',
    ruleGroups (addIngress a ingress) !! k = Some rg' /\
    tupleOfGroup rg' = tupleOfGroup rg /\
    rg_rules rg `prefix_of` rg_rules rg' /\
    rg_tls rg `prefix_of` rg_tls rg'.
Proof.
  intros Hk. rewrite lookup_addIngress, Hk, foldl_extend_Some.
  eexists. split; [reflexivity|]. cbn.
  split; [done|]. split; by eexists.
Qed.

Lemma addIngress_extends_witness :
  exists rg rg',
    ruleGroups (addIngress emptyAggregator tlsIngress)
      !! "default/nginx/shop.example.com" = Some rg /\
    ruleGroups (addIngress (addIngress emptyAggregator tlsIngress) shopIngress)
      !! "default/nginx/shop.example.com" = Some rg' /\
    rg_rules rg `prefix_of` rg_rules rg'.
Proof.
  destruct (ruleGroups (addIngress emptyAggregator tlsIngress)
              !! "default/nginx/shop.example.com") as [rg|] eqn:E;
    [|vm_compute in E; discriminate E].
  destruct (addIngress_extends _ shopIngress _ _ E) as (rg' & Hk & _ & Hpre & _).
  exists rg, rg'. split; [reflexivity|]. split; [exact Hk|exact Hpre].
Defined.

(** X8: after a run the TLS entries of a rule group are the TLS entries of
    the source objects of its rules, once for every rule filed under the
    key and in the order the rules were ingested, whatever hosts the TLS
    entries name. *)
Theorem group_tls_of_run (ingresses : list Ingress) k rg :
  ruleGroups (aggregate ingresses) !! k = Some rg ->
  rg_tls rg = filter (fun sr => keyOf sr = k) (sourceRules ingresses)
                ≫= (fun sr => TLS (sr_spec sr)) /\
  length (rg_tls rg)
  = sum_list ((fun sr => length (TLS (sr_spec sr)))
                <$> filter (fun sr => keyOf sr = k) (sourceRules ingresses)).
Proof.
  rewrite lookup_aggregate. intros Hg.
  apply groupOf_Some in Hg as (sr & rest & Hf & _ & _ & ->).
  split; [done|]. generalize (filter (fun sr => keyOf sr = k) (sourceRules ingresses)).
  intros srs. induction srs as [|sr' srs IH]; [done|].
  cbn [mbind list_bind fmap list_fmap sum_list]. cbn [mbind] in IH.
  by rewrite length_app, IH.
Qed.

Lemma group_tls_of_run_witness :
  exists rg,
    ruleGroups (aggregate [tlsIngress]) !! "default/nginx/shop.example.com" = Some rg /\
    SecretName <$> rg_tls rg = ["shop-cert"; "shop-cert"].
Proof.
  destruct (ruleGroups (aggregate [tlsIngress]) !! "default/nginx/shop.example.com")
    as [rg|] eqn:E; [|vm_compute in E; discriminate E].
  exists rg. split; [reflexivity|].
  destruct (group_tls_of_run _ _ _ E) as [-> _]. vm_compute. reflexivity.
Defined.

(** * The route of a rule group *)

Section Partitions.

Lemma appendTo_app {A} (o : option (list A)) (l1 l2 : list A) :
  appendTo (appendTo o l1) l2 = appendTo o (l1 ++ l2).
Proof.
  destruct l1 as [|x l1]; [done|]. destruct l2 as [|y l2].
  - by rewrite app_nil_r.
  - cbn. by rewrite <- app_assoc.
Qed.

Lemma lookup_addPaths e (paths : list HTTPIngressPath) : forall m k,
  foldl (addPath e) m paths !! k
  = appendTo (m !! k)
      (filter (fun ip => getPathMatchKey ip = k)
         ((fun path => mkIngressPath path e) <$> paths)).
Proof.
  induction paths as [|path paths IH]; intros m k; [done|].
  cbn [foldl fmap list_fmap]. rewrite IH, filter_cons. unfold addPath.
  destruct (decide (getPathMatchKey (mkIngressPath path e) = k)) as [<-|Hne].
  - rewrite lookup_insert_eq.
    change (Some (default [] (m !! getPathMatchKey (mkIngressPath path e))
                  ++ [mkIngressPath path e]))
      with (appendTo (m !! getPathMatchKey (mkIngressPath path e))
              [mkIngressPath path e]).
    by rewrite appendTo_app.
  - by rewrite lookup_insert_ne.
Qed.

Lemma lookup_collectPaths (rules : list ingressRule) : forall m p k,
  foldM collectPaths m rules = Some p ->
  p !! k = appendTo (m !! k)
             (filter (fun ip => getPathMatchKey ip = k) (rules ≫= pathEntriesOf)).
Proof.
  induction rules as [|ir rules IH]; intros m p k H.
  - by injection H as <-.
  - cbn [foldM] in H. unfold collectPaths at 1 in H.
    cbn [mbind list_bind]. unfold pathEntriesOf at 1.
    destruct (HTTP (ir_rule ir)) as [http|]; [|done].
    rewrite (IH _ _ k H), lookup_addPaths, appendTo_app.
    by rewrite filter_app.
Qed.

Lemma partitions_is_Some rg :
  is_Some (partitions rg) <-> Forall (fun ir => is_Some (HTTP (ir_rule ir))) (rg_rules rg).
Proof.
  unfold partitions. split.
  - intros [p Hp]. apply foldM_Some_steps in Hp.
    eapply Forall_impl; [exact Hp|]. intros ir [m Hm]. by apply collectPaths_is_Some in Hm.
  - intros Hall. apply foldM_is_Some.
    eapply Forall_impl; [exact Hall|]. intros ir Hir m. by apply collectPaths_is_Some.
Qed.

End Partitions.

Section RuleStep.

Lemma toBackendRef_is_Some b : is_Some (toBackendRef b) <-> resolvable b.
Proof.
  split; [|apply toBackendRef_total].
  unfold toBackendRef, resolvable. intros H.
  destruct (Service b); [left; by eexists|].
  destruct (Resource b); [right; by eexists|]. by destruct H.
Qed.

Lemma backend_loop_is_Some (paths : list ingressPath) st :
  is_Some (foldM backendStep st paths)
  <-> Forall (fun ip => resolvable (Backend (ip_path ip))) paths.
Proof.
  split.
  - intros [r Hr]. apply foldM_Some_steps in Hr.
    eapply Forall_impl; [exact Hr|]. intros ip [[[[refs n] t] errs] Hst].
    apply toBackendRef_is_Some. unfold backendStep in Hst.
    destruct (toBackendRef (Backend (ip_path ip))); [by eexists|by destruct Hst].
  - intros Hall. apply foldM_is_Some.
    eapply Forall_impl; [exact Hall|]. intros ip Hip st'. by apply backendStep_total.
Qed.

Lemma toHTTPRouteMatch_supported ip pathType :
  PathType (ip_path ip) = Some pathType ->
  if supported pathType
  then exists m, toHTTPRouteMatch ip = Some (Ok m) /\ length (m_Headers m) <= 1
  else toHTTPRouteMatch ip = Some (Err (UnsupportedPathType pathType)).
Proof.
  intros Hpt. unfold toHTTPRouteMatch, supported. rewrite Hpt.
  assert (Hh : forall c : canary,
            length (if nonEmpty (headerKey c)
                    then [mkHTTPHeaderMatch
                            (Some (if headerRegexMatch c then HeaderMatchRegularExpression
                                   else HeaderMatchExact))
                            (headerKey c) (headerValue c)]
                    else []) <= 1).
  { intros c. destruct (nonEmpty (headerKey c)); cbn; lia. }
  destruct (String.eqb pathType PathTypePrefix); cbn [orb].
  - eexists. split; [reflexivity|]. cbn.
    destruct (canaryOf (ip_extra ip)); [apply Hh|cbn; lia].
  - destruct (String.eqb pathType PathTypeExact); [|done].
    eexists. split; [reflexivity|]. cbn.
    destruct (canaryOf (ip_extra ip)); [apply Hh|cbn; lia].
Qed.

Lemma ruleStep_servable st (paths : list ingressPath) :
  is_Some (ruleStep st paths) <-> servable paths.
Proof.
  destruct st as [errors rules]. unfold ruleStep, servable.
  destruct paths as [|first rest].
  { split; [by intros [? ?]|by intros (? & ? & ? & ? & _)]. }
  destruct (PathType (ip_path first)) as [pathType|] eqn:Hpt.
  - pose proof (toHTTPRouteMatch_supported first pathType Hpt) as Hm.
    destruct (supported pathType) eqn:Hs.
    + destruct Hm as (m & -> & _). split.
      * intros Hsome. exists first, rest, pathType. repeat split; [done|]. intros _.
        apply (backend_loop_is_Some _ ([], 0%Z, 0%Z, errors)).
        destruct (foldM backendStep _ _); [by eexists|by destruct Hsome].
      * intros (f & r & t & [= <- <-] & Ht & Hall).
        assert (t = pathType) as -> by congruence.
        destruct (proj2 (backend_loop_is_Some (first :: rest) ([], 0%Z, 0%Z, errors))
                    (Hall Hs)) as [[[[refs n] tot] errs] ->].
        destruct (distribute_total refs n tot) as [refs' ->]. by eexists.
    + rewrite Hm. split; [|by eexists].
      intros _. exists first, rest, pathType. repeat split; [done|].
      intros Hs'. congruence.
  - assert (Hnone : toHTTPRouteMatch first = None).
    { unfold toHTTPRouteMatch. by rewrite Hpt. }
    rewrite Hnone. split; [by intros [? ?]|].
    intros (f & r & t & [= <- <-] & Ht & _). congruence.
Qed.

Lemma rules_loop_is_Some (parts : list (list ingressPath)) st :
  is_Some (foldM ruleStep st parts) <-> Forall servable parts.
Proof.
  split.
  - intros [r Hr]. apply foldM_Some_steps in Hr.
    eapply Forall_impl; [exact Hr|]. intros paths [st' Hst]. by apply ruleStep_servable in Hst.
  - intros Hall. apply foldM_is_Some.
    eapply Forall_impl; [exact Hall|]. intros paths Hp st'. by apply ruleStep_servable.
Qed.

Lemma range_Forall {V} (P : V -> Prop) s (m : gmap string V) :
  Forall P (range s m).*2 <-> map_Forall (fun _ => P) m.
Proof.
  rewrite map_Forall_to_list, <- (range_perm s m), Forall_fmap.
  apply Forall_proper; [|done]. by intros [k v].
Qed.

Lemma backendErrors_cons p (paths : list ingressPath) :
  omap backendError (p :: paths) =
  match toBackendRef (Backend (ip_path p)) with
  | Some (Err e) => e :: omap backendError paths
  | _ => omap backendError paths
  end.
Proof.
  cbn [omap list_omap]. unfold backendError at 1.
  by destruct (toBackendRef (Backend (ip_path p))) as [[br|err]|].
Qed.

(** The errors of the loop over the paths of a partition, and how many of
    its entries give a backend reference. *)
Lemma backend_loop_errors_exact (paths : list ingressPath) :
  forall refs n t errs refs' n' t' errs',
  foldM backendStep (refs, n, t, errs) paths = Some (refs', n', t', errs') ->
  errs' = errs ++ omap backendError paths /\
  length (resolved paths) + length (omap backendError paths) = length paths.
Proof.
  induction paths as [|p paths IH]; intros refs n t errs refs' n' t' errs' H.
  - injection H as <- <- <- <-. by rewrite app_nil_r.
  - rewrite resolved_cons, backendErrors_cons.
    cbn [foldM] in H. unfold backendStep at 1 in H.
    destruct (toBackendRef (Backend (ip_path p))) as [[br|err]|]; [| |done].
    + destruct (canaryWeight (ip_extra p)); apply IH in H as [-> Hlen];
        cbn [length]; (split; [done|lia]).
    + apply IH in H as [-> Hlen]. rewrite <- app_assoc. cbn [length app].
      split; [done|lia].
Qed.

Lemma backendError_named_port ip e :
  backendError ip = Some e -> exists portName, e = UnsupportedNamedPort portName.
Proof.
  unfold backendError, toBackendRef.
  destruct (Service (Backend (ip_path ip))) as [svc|].
  - destruct (nonEmpty _); [|done]. intros [= <-]. by eexists.
  - by destruct (Resource (Backend (ip_path ip))).
Qed.

(** What one iteration of the loop over the partitions adds. *)
Lemma ruleStep_cases (paths : list ingressPath) errs rules :
  ruleStep ([], []) paths = Some (errs, rules) ->
  (exists pathType, errs = [UnsupportedPathType pathType] /\ rules = []) \/
  (exists m refs,
     rules = [mkHTTPRouteRule [m] refs] /\ errs = omap backendError paths /\
     length (m_Headers m) <= 1 /\
     length (resolved paths) + length errs = length paths /\
     distribute (weighted None <$> resolved paths)
       (wrap32 (Z.of_nat (length (explicitWeights paths))))
       (wrap32 (sumZ (explicitWeights paths))) = Some refs).
Proof.
  intros H. pose proof (ruleStep_refs _ _ _ H) as Hrefs. cbn [fst snd] in Hrefs.
  unfold ruleStep in H. destruct paths as [|first rest]; [done|].
  destruct (toHTTPRouteMatch first) as [[m|err]|] eqn:Hm; [| |done].
  - right.
    destruct (foldM backendStep _ _) as [[[[refs n] t] errs']|] eqn:Hloop; [|done].
    apply backend_loop_errors_exact in Hloop as [-> Hlen].
    destruct (distribute refs n t) as [refs'|]; [|done].
    injection H as <- <-.
    destruct Hrefs as [[=]|(m' & refs2 & [= <- <-] & Hd)].
    exists m, refs'. cbn [app]. split; [done|]. split; [done|]. split; [|by split].
    unfold toHTTPRouteMatch in Hm.
    destruct (PathType (ip_path first)) as [pathType|] eqn:Hpt; [|done].
    pose proof (toHTTPRouteMatch_supported first pathType Hpt) as Hs.
    unfold toHTTPRouteMatch in Hs. rewrite Hpt in Hs.
    destruct (supported pathType); [|congruence].
    destruct Hs as (m0 & Hm0 & Hlen0). congruence.
  - left. injection H as <- <-.
    unfold toHTTPRouteMatch in Hm.
    destruct (PathType (ip_path first)) as [pathType|]; [|done].
    destruct (String.eqb pathType PathTypePrefix); [done|].
    destruct (String.eqb pathType PathTypeExact); [done|].
    injection Hm as <-. by eexists.
Qed.

Lemma distribute_keeps_refs (rs : list (BackendRef * option Z)) n t refs :
  Forall (fun e => br_Weight e.1 = None) rs ->
  distribute (weighted None <$> rs) n t = Some refs ->
  set_br_Weight None <$> refs = rs.*1.
Proof.
  intros Hun Hd.
  assert (Hw : forall q, set_br_Weight None <$> (weighted q <$> rs) = rs.*1).
  { intros q. rewrite <- list_fmap_compose. apply Forall_fmap_ext.
    eapply Forall_impl; [exact Hun|]. intros [br w] Hbr. cbn in *.
    unfold weighted, set_br_Weight. cbn. destruct br. cbn in *. by subst. }
  unfold distribute in Hd. destruct (_ && _).
  - destruct (div32 _ _) as [q|]; [|done]. injection Hd as <-.
    by rewrite fillWeight_weighted.
  - by injection Hd as <-.
Qed.

End RuleStep.

(** X9: the first loop of [toHTTPRoute] files every path entry of the rule
    group under its path-match key and nowhere else: a partition holds the
    path entries of its key in the order the rules and their paths list
    them, and there is no partition without an entry. *)
Theorem partitions_by_key (rg : ingressRuleGroup) (p : gmap string (list ingressPath)) :
  partitions rg = Some p ->
  forall k, p !! k = match filter (fun ip => getPathMatchKey ip = k) (pathEntries rg) with
                     | [] => None
                     | ip :: ips => Some (ip :: ips)
                     end.
Proof.
  intros Hp k. unfold partitions in Hp.
  rewrite (lookup_collectPaths _ _ _ k Hp), lookup_empty.
  unfold pathEntries. by destruct (filter _ _).
Qed.

Lemma partitions_by_key_witness :
  exists p, partitions canaryGroup = Some p /\
    (fun ip => Path (ip_path ip)) <$> default [] (p !! "Prefix///") = ["/"; "/"].
Proof.
  destruct (proj2 (partitions_is_Some canaryGroup)) as [p E].
  { repeat constructor; by eexists. }
  exists p. split; [exact E|].
  rewrite (partitions_by_key canaryGroup p E "Prefix///"). vm_compute. reflexivity.
Defined.

(** X10: [toHTTPRoute] returns, rather than panics on a nil pointer, exactly
    when every rule of the group has an HTTP section and every partition
    starts with an entry that has a path type and, if that path type is
    Prefix or Exact, holds only backends that are a service or a resource;
    the order in which the partitions are visited plays no part. *)
Theorem toHTTPRoute_returns_iff (s : Schedule) (rg : ingressRuleGroup) :
  (is_Some (partitions rg)
   <-> Forall (fun ir => is_Some (HTTP (ir_rule ir))) (rg_rules rg)) /\
  (is_Some (toHTTPRoute s rg)
   <-> exists p, partitions rg = Some p /\ map_Forall (fun _ => servable) p).
Proof.
  split; [apply partitions_is_Some|].
  rewrite toHTTPRoute_unfold. destruct (partitions rg) as [p|].
  - split.
    + intros Hsome. exists p. split; [done|].
      apply (range_Forall servable s p), (rules_loop_is_Some _ ([], [])).
      destruct (foldM ruleStep _ _) as [[errs rules]|]; [by eexists|by destruct Hsome].
    + intros (p' & [= <-] & Hall).
      apply (range_Forall servable s p), (rules_loop_is_Some _ ([], [])) in Hall.
      destruct Hall as [[errs rules] ->]. by eexists.
  - split; [by intros [? ?]|by intros (? & ? & _)].
Qed.

(** X11: a route that [toHTTPRoute] returns accounts for every partition
    once: its rules and its errors about an unsupported path type are
    together as many as there are partitions, every rule has exactly one
    match with at most one header match, and the other errors are about
    named ports. *)
Theorem toHTTPRoute_accounting (s : Schedule) (rg : ingressRuleGroup) route errs :
  toHTTPRoute s rg = Some (route, errs) ->
  exists p, partitions rg = Some p /\
    length (hr_Rules route) + length (filter (fun e => isPathTypeError e = true) errs)
      = size p /\
    Forall (fun rule => exists m, Matches rule = [m] /\ length (m_Headers m) <= 1)
      (hr_Rules route) /\
    Forall (fun e => isPathTypeError e = true \/
                     exists portName, e = UnsupportedNamedPort portName) errs.
Proof.
  rewrite toHTTPRoute_unfold. destruct (partitions rg) as [p|]; [|done].
  destruct (foldM ruleStep _ _) as [[errs' rules]|] eqn:Hloop; [|done].
  intros [= <- <-]. exists p. split; [done|]. cbn [hr_Rules].
  rewrite <- length_map_to_list, <- (range_perm s p), <- (length_fmap snd).
  revert Hloop. generalize (range s p).*2. intros parts.
  rewrite (foldM_appends (ruleStep ([], [])) ruleStep ruleStep_output).
  destruct (mapM _ parts) as [ds|] eqn:Hds; [|done].
  cbn. intros [= <- <-]. apply mapM_Some_1 in Hds.
  induction Hds as [|paths [e r] parts ds Hstep _ (IH1 & IH2 & IH3)].
  { cbn. by repeat split. }
  cbn [fmap list_fmap concat fst snd length].
  rewrite filter_app, !length_app, !Forall_app.
  apply ruleStep_cases in Hstep as [(t & -> & ->)|(m & refs & -> & -> & Hh & _ & _)].
  - cbn. destruct (decide (true = true)); [|done]. cbn [length].
    split; [lia|]. split; [by split|]. split; [|done]. by repeat constructor; left.
  - assert (Hports : Forall (fun e => isPathTypeError e = true \/
                       exists portName, e = UnsupportedNamedPort portName)
                      (omap backendError paths)).
    { apply Forall_forall. intros e He. apply list_elem_of_omap in He as (ip & _ & He).
      right. by eapply backendError_named_port. }
    assert (Hnone : filter (fun e => isPathTypeError e = true) (omap backendError paths)
                    = []).
    { destruct (filter _ (omap backendError paths)) as [|e es] eqn:Hf; [done|].
      assert (He : e ∈ filter (fun e => isPathTypeError e = true)
                         (omap backendError paths)) by (rewrite Hf; left).
      apply list_elem_of_filter in He as [Hty He].
      apply list_elem_of_omap in He as (ip & _ & He).
      apply backendError_named_port in He as [n ->]. done. }
    rewrite Hnone. cbn. repeat split; [lia| |done|done|done].
    constructor; [|constructor]. by exists m.
Qed.

Lemma toHTTPRoute_accounting_witness :
  exists route errs p,
    toHTTPRoute inOrder canaryGroup = Some (route, errs) /\
    partitions canaryGroup = Some p /\
    length (hr_Rules route) + length (filter (fun e => isPathTypeError e = true) errs)
      = size p.
Proof.
  destruct (toHTTPRoute_total inOrder canaryGroup) as [[route errs] E].
  { repeat econstructor. }
  destruct (toHTTPRoute_accounting _ _ _ _ E) as (p & Hp & Hcount & _).
  exists route, errs, p. split; [exact E|]. split; [exact Hp|exact Hcount].
Defined.

(** * The rules of a route *)

Section Weights.

Lemma weights_total q (rs : list (BackendRef * option Z)) :
  length (omap br_Weight (weighted (Some q) <$> rs)) = length rs /\
  sumZ (omap br_Weight (weighted (Some q) <$> rs))
  = (sumZ (omap snd rs)
     + q * (Z.of_nat (length rs) - Z.of_nat (length (omap snd rs))))%Z.
Proof.
  induction rs as [|[br [w|]] rs [IHl IH]]; [cbn; split; [done|lia]| |].
  - cbn [fmap list_fmap omap list_omap weighted fst snd set_br_Weight br_Weight
         sumZ foldr length].
    unfold sumZ in IH. rewrite IHl, IH. split; [done|lia].
  - cbn [fmap list_fmap omap list_omap weighted fst snd set_br_Weight br_Weight
         sumZ foldr length].
    unfold sumZ in IH. rewrite IHl, IH. split; [done|lia].
Qed.

(** The redistribution when some but not all backends carry a weight and
    nothing overflows. *)
Lemma distribute_some (rs : list (BackendRef * option Z)) :
  let n := Z.of_nat (length rs) in
  let k := Z.of_nat (length (omap snd rs)) in
  let total := sumZ (omap snd rs) in
  (0 < k < n)%Z -> (n < 2 ^ 31)%Z -> int32_range total -> int32_range (100 - total) ->
  distribute (weighted None <$> rs) (wrap32 k) (wrap32 total)
  = Some (weighted (Some ((100 - total) ÷ (n - k))%Z) <$> rs).
Proof.
  cbv zeta. intros Hk Hn Ht Ht'. unfold distribute. rewrite length_fmap.
  rewrite (wrap32_id (Z.of_nat (length (omap snd rs)))) by (unfold int32_range; lia).
  rewrite (wrap32_id (Z.of_nat (length rs))) by (unfold int32_range; lia).
  rewrite (wrap32_id (sumZ (omap snd rs))) by done.
  destruct (Z.ltb_spec 0 (Z.of_nat (length (omap snd rs)))); [|lia].
  destruct (Z.ltb_spec (Z.of_nat (length (omap snd rs))) (Z.of_nat (length rs))); [|lia].
  cbn [andb]. unfold div32, sub32.
  rewrite (wrap32_id (100 - _)) by done.
  rewrite (wrap32_id (_ - Z.of_nat (length (omap snd rs)))) by (unfold int32_range; lia).
  destruct (Z.eqb_spec (Z.of_nat (length rs) - Z.of_nat (length (omap snd rs))) 0); [lia|].
  rewrite wrap32_id by (apply quot_range; [done|lia]).
  by rewrite fillWeight_weighted.
Qed.

Lemma quot_bounds (a b : Z) :
  (0 < b)%Z ->
  ((0 <= a -> a - b < b * (a ÷ b) <= a) /\ (a <= 0 -> a <= b * (a ÷ b) < a + b))%Z.
Proof.
  intros Hb. pose proof (Z.quot_rem' a b) as Hqr. split; intros Ha.
  - pose proof (Z.rem_bound_pos a b Ha Hb). lia.
  - pose proof (Z.rem_bound_pos (- a) b ltac:(lia) Hb) as Hr.
    pose proof (Z.rem_opp_l' (- a) b) as Ho. rewrite Z.opp_involutive in Ho. lia.
Qed.

End Weights.

Section KeyParts.

Lemma append_slash_inj_r (a b x y : string) :
  hasSlash x = false -> hasSlash y = false ->
  a +:+ String "/" x = b +:+ String "/" y -> a = b /\ x = y.
Proof.
  intros Hx Hy. revert b. induction a as [|c a IH]; intros [|d b] H; cbn in H.
  - by injection H as ->.
  - injection H as <- ->. by rewrite hasSlash_append_slash in Hx.
  - injection H as -> <-. by rewrite hasSlash_append_slash in Hy.
  - injection H as -> H. by destruct (IH _ H) as [-> ->].
Qed.

Lemma getPathMatchKey_tuple ip :
  getPathMatchKey ip
  = Sprintf3 (default "" (PathType (ip_path ip))) (Path (ip_path ip)) (canaryHeaderKeyOf ip).
Proof.
  unfold getPathMatchKey, canaryHeaderKeyOf. f_equal.
  destruct (canaryOf (ip_extra ip)) as [c|]; [|done].
  unfold nonEmpty. by destruct (String.eqb_spec (headerKey c) "") as [->|].
Qed.

End KeyParts.

Section ReadFields.

Lemma readFields_canary e :
  (headerKey <$> canaryOf (readFields e) = headerKey <$> canaryOf e) /\
  (headerValue <$> canaryOf (readFields e) = headerValue <$> canaryOf e) /\
  (headerRegexMatch <$> canaryOf (readFields e) = headerRegexMatch <$> canaryOf e) /\
  (weight <$> canaryOf (readFields e) = weight <$> canaryOf e).
Proof. by destruct e as [[[c|]]|]. Qed.

Lemma readFields_key ip : getPathMatchKey (readFieldsOfPath ip) = getPathMatchKey ip.
Proof. destruct ip as [path [[[c|]]|]]; by cbn. Qed.

Lemma readFields_match ip : toHTTPRouteMatch (readFieldsOfPath ip) = toHTTPRouteMatch ip.
Proof. destruct ip as [path [[[c|]]|]]; by cbn. Qed.

Lemma readFields_weight e : canaryWeight (readFields e) = canaryWeight e.
Proof. by destruct e as [[[c|]]|]. Qed.

Lemma readFields_backendStep st ip :
  backendStep st (readFieldsOfPath ip) = backendStep st ip.
Proof.
  destruct st as [[[refs n] t] errs]. unfold backendStep. cbn [readFieldsOfPath ip_path ip_extra].
  by rewrite readFields_weight.
Qed.

Lemma readFields_backend_loop (paths : list ingressPath) : forall st,
  foldM backendStep st (readFieldsOfPath <$> paths) = foldM backendStep st paths.
Proof.
  induction paths as [|p paths IH]; intros st; [done|].
  cbn [fmap list_fmap foldM]. rewrite readFields_backendStep.
  destruct (backendStep st p); [apply IH|done].
Qed.

Lemma readFields_ruleStep st (paths : list ingressPath) :
  ruleStep st (readFieldsOfPath <$> paths) = ruleStep st paths.
Proof.
  destruct st as [errors rules]. destruct paths as [|first rest]; [done|].
  unfold ruleStep. cbn [fmap list_fmap]. rewrite readFields_match.
  destruct (toHTTPRouteMatch first) as [[m|err]|]; [|done|done].
  by rewrite <- (readFields_backend_loop (first :: rest) ([], 0%Z, 0%Z, errors)).
Qed.

Lemma readFields_rules_loop (parts : list (list ingressPath)) : forall st,
  foldM ruleStep st (fmap (M := list) readFieldsOfPath <$> parts) = foldM ruleStep st parts.
Proof.
  induction parts as [|paths parts IH]; intros st; [done|].
  cbn [fmap list_fmap foldM].
  rewrite (readFields_ruleStep st paths). destruct (ruleStep st paths); [apply IH|done].
Qed.

Lemma readFields_addPath e (m : gmap string (list ingressPath)) path :
  addPath (readFields e) (fmap (M := list) readFieldsOfPath <$> m) path
  = fmap (M := list) readFieldsOfPath <$> addPath e m path.
Proof.
  unfold addPath.
  change (mkIngressPath path (readFields e))
    with (readFieldsOfPath (mkIngressPath path e)).
  rewrite readFields_key, fmap_insert, lookup_fmap. f_equal.
  rewrite fmap_app. by destruct (m !! _).
Qed.

Lemma readFields_addPaths e (paths : list HTTPIngressPath) :
  forall m : gmap string (list ingressPath),
  foldl (addPath (readFields e)) (fmap (M := list) readFieldsOfPath <$> m) paths
  = fmap (M := list) readFieldsOfPath <$> foldl (addPath e) m paths.
Proof.
  induction paths as [|path paths IH]; intros m; [done|].
  cbn [foldl]. by rewrite readFields_addPath, IH.
Qed.

Lemma readFields_collect (rules : list ingressRule) :
  forall m : gmap string (list ingressPath),
  foldM collectPaths (fmap (M := list) readFieldsOfPath <$> m) (readFieldsOfRule <$> rules)
  = fmap (M := gmap string) (fmap (M := list) readFieldsOfPath) <$> foldM collectPaths m rules.
Proof.
  induction rules as [|ir rules IH]; intros m; [done|].
  cbn [fmap list_fmap foldM]. unfold collectPaths at 1 3.
  cbn [readFieldsOfRule ir_rule ir_extra].
  destruct (HTTP (ir_rule ir)) as [http|]; [|done].
  rewrite readFields_addPaths. apply IH.
Qed.

Lemma range_fmap {V W} (g : V -> W) s (m : gmap string V) :
  (range s (g <$> m)).*2 = g <$> (range s m).*2.
Proof.
  rewrite !range_values, map_to_list_fmap, <- list_fmap_compose.
  assert (Hk : (fst ∘ prod_map id g <$> map_to_list m) = (map_to_list m).*1).
  { apply list_fmap_ext. by intros i [k v]. }
  rewrite Hk. generalize (visit s (map_to_list m).*1). intros ks.
  induction ks as [|k ks IH]; [done|].
  cbn [omap list_omap]. rewrite lookup_fmap, IH. by destruct (m !! k).
Qed.

Lemma readFields_toHTTPRoute s rg :
  toHTTPRoute s (readFieldsOfGroup rg) = toHTTPRoute s rg.
Proof.
  rewrite !toHTTPRoute_unfold. unfold partitions.
  cbn [readFieldsOfGroup rg_rules rg_host rg_namespace rg_ingressClass].
  pose proof (readFields_collect (rg_rules rg) ∅) as Hc.
  rewrite fmap_empty in Hc. rewrite Hc.
  destruct (foldM collectPaths ∅ (rg_rules rg)) as [p|]; [|done].
  cbn [fmap option_fmap option_map].
  by rewrite range_fmap, readFields_rules_loop.
Qed.

End ReadFields.

(** X12: a rule lists the backends of its partition in the order of the
    path entries: apart from the weight, its backend references are those
    that [toBackendRef] gives for the entries; the entries with a named
    port are reported, in the same order, and left out, so that references
    and errors together are as many as the entries. *)
Theorem rule_backends (paths : list ingressPath) (errs : list error) (rule : HTTPRouteRule) :
  ruleStep ([], []) paths = Some (errs, [rule]) ->
  set_br_Weight None <$> BackendRefs rule = (resolved paths).*1 /\
  errs = omap backendError paths /\
  length (BackendRefs rule) + length errs = length paths.
Proof.
  intros H.
  apply ruleStep_cases in H as [(t & _ & [=])|(m & refs & [= ->] & -> & _ & Hlen & Hd)].
  cbn [BackendRefs].
  apply distribute_keeps_refs in Hd; [|apply resolved_unweighted].
  split; [done|]. split; [done|].
  rewrite <- Hlen, <- (length_fmap (set_br_Weight None) refs), Hd.
  by rewrite length_fmap.
Qed.

Lemma rule_backends_witness :
  exists errs rule,
    ruleStep ([], []) [weightedPath "v2" 30; plainPath "a"; plainPath "b"]
      = Some (errs, [rule]) /\
    br_Name <$> (set_br_Weight None <$> BackendRefs rule) = ["v2"; "a"; "b"].
Proof.
  destruct (ruleStep ([], []) [weightedPath "v2" 30; plainPath "a"; plainPath "b"])
    as [[errs [|rule [|]]]|] eqn:E; try (vm_compute in E; discriminate E).
  exists errs, rule. split; [reflexivity|].
  rewrite (proj1 (rule_backends _ _ _ E)). vm_compute. reflexivity.
Defined.

(** X13: when some but not all backends of a rule carry an explicit weight,
    the rule has fewer than 2^31 backends and neither the explicit total nor
    its difference from 100 leaves the int32 range, every backend of the
    rule ends up with a weight, and the weights of the rule add up to 100
    up to the rounding of the division: they miss 100 by less than the
    number of backends without an explicit weight, from below when the
    explicit total is at most 100 and from above when it is at least 100. *)
Theorem rule_weights_total (paths : list ingressPath) (errs : list error)
    (rule : HTTPRouteRule) :
  ruleStep ([], []) paths = Some (errs, [rule]) ->
  let ws := explicitWeights paths in
  let n := Z.of_nat (length (resolved paths)) in
  let k := Z.of_nat (length ws) in
  let total := sumZ (omap br_Weight (BackendRefs rule)) in
  (0 < k < n)%Z -> (n < 2 ^ 31)%Z ->
  int32_range (sumZ ws) -> int32_range (100 - sumZ ws) ->
  Forall (fun br => is_Some (br_Weight br)) (BackendRefs rule) /\
  (sumZ ws <= 100 -> 100 - (n - k) < total <= 100)%Z /\
  (100 <= sumZ ws -> 100 <= total < 100 + (n - k))%Z.
Proof.
  intros H. cbv zeta. intros Hk Hn Ht Ht'.
  apply ruleStep_cases in H as [(t & _ & [=])|(m & refs & [= ->] & _ & _ & _ & Hd)].
  cbn [BackendRefs]. unfold explicitWeights in *.
  rewrite distribute_some in Hd by done. injection Hd as <-.
  set (rs := resolved paths) in *.
  set (q := ((100 - sumZ (omap snd rs)) ÷ _)%Z).
  destruct (weights_total q rs) as [Hlen ->].
  split.
  - apply Forall_fmap, Forall_forall. intros [br [w|]] _; by eexists.
  - destruct (quot_bounds (100 - sumZ (omap snd rs))
                (Z.of_nat (length rs) - Z.of_nat (length (omap snd rs))))
      as [Hpos Hneg]; [lia|].
    fold q in Hpos, Hneg. split; intros Hs; [specialize (Hpos ltac:(lia))|
                                             specialize (Hneg ltac:(lia))]; lia.
Qed.

Lemma rule_weights_total_witness :
  exists errs rule,
    ruleStep ([], []) [weightedPath "v2" 30; plainPath "a"; plainPath "b"; plainPath "c"]
      = Some (errs, [rule]) /\
    (100 - (4 - 1) < sumZ (omap br_Weight (BackendRefs rule)) <= 100)%Z.
Proof.
  destruct (ruleStep ([], [])
              [weightedPath "v2" 30; plainPath "a"; plainPath "b"; plainPath "c"])
    as [[errs [|rule [|]]]|] eqn:E; try (vm_compute in E; discriminate E).
  exists errs, rule. split; [reflexivity|].
  refine (proj1 (proj2 (rule_weights_total _ _ _ E _ _ _ _)) _);
    vm_compute; intuition discriminate.
Defined.

(** X14: two path entries whose path types and canary header names have no
    '/' in them get the same path-match key, and so end up in one rule,
    exactly when they agree on the path type, the path and the canary header
    name; the backend, the header value and the weight play no part. *)
Theorem getPathMatchKey_inj (ip1 ip2 : ingressPath) :
  plainKeyParts ip1 -> plainKeyParts ip2 ->
  (getPathMatchKey ip1 = getPathMatchKey ip2 <-> pathTuple ip1 = pathTuple ip2).
Proof.
  intros [Ht1 Hh1] [Ht2 Hh2]. rewrite !getPathMatchKey_tuple. unfold pathTuple. split.
  - unfold Sprintf3. intros H.
    apply append_slash_inj in H as [-> H]; [|done|done].
    apply append_slash_inj_r in H as [-> ->]; done.
  - by intros [= -> -> ->].
Qed.

Lemma getPathMatchKey_inj_witness :
  getPathMatchKey (weightedPath "v2" 30) = getPathMatchKey (plainPath "a")
  <-> pathTuple (weightedPath "v2" 30) = pathTuple (plainPath "a").
Proof. by apply getPathMatchKey_inj. Defined.

(** X15: the match of a path entry of a source object, as [addIngress]
    files it with the result of [getExtra], carries a header match exactly
    when the canary annotation is "true" and the canary-by-header annotation
    is not empty: on that header, with the pattern annotation as a regular
    expression when it is not empty, else the exact value annotation when
    that is not empty, else the exact value "always". *)
Theorem canary_header_match (ingress : Ingress) (path : HTTPIngressPath) (pathType : string) :
  PathType path = Some pathType -> supported pathType = true ->
  exists m,
    toHTTPRouteMatch (mkIngressPath path (Some (getExtra ingress))) = Some (Ok m) /\
    m_Path m = Some (mkHTTPPathMatch
                       (Some (if String.eqb pathType PathTypePrefix
                              then PathMatchPathPrefix else PathMatchExact))
                       (Some (Path path))) /\
    m_Headers m = canaryHeaderMatches ingress.
Proof.
  intros Hpt Hs. unfold toHTTPRouteMatch, supported in *. cbn [ip_path ip_extra].
  rewrite Hpt.
  assert (Hh : match canaryOf (Some (getExtra ingress)) with
               | Some c =>
                   if nonEmpty (headerKey c)
                   then [mkHTTPHeaderMatch
                           (Some (if headerRegexMatch c then HeaderMatchRegularExpression
                                  else HeaderMatchExact))
                           (headerKey c) (headerValue c)]
                   else []
               | None => []
               end = canaryHeaderMatches ingress).
  { unfold canaryHeaderMatches, getExtra, canaryOf. cbv zeta.
    destruct (String.eqb (annotation ingress annCanary) "true"); [|done].
    cbn [andb e_canary].
    destruct (nonEmpty (annotation ingress annCanaryByHeader)) eqn:Hk,
             (nonEmpty (annotation ingress annCanaryByHeaderValue)),
             (nonEmpty (annotation ingress annCanaryByHeaderPattern)),
             (nonEmpty (annotation ingress annCanaryWeight)),
             (nonEmpty (annotation ingress annCanaryWeightTotal));
      cbn; rewrite ?Hk; done. }
  rewrite Hh.
  destruct (String.eqb pathType PathTypePrefix); [by eexists|].
  destruct (String.eqb pathType PathTypeExact); [by eexists|done].
Qed.

Lemma canary_header_match_witness :
  exists m,
    toHTTPRouteMatch (mkIngressPath (httpPath "/" "Prefix" (serviceBackend "web-v2" 80))
                        (Some (getExtra canaryByHeader))) = Some (Ok m) /\
    m_Headers m = [mkHTTPHeaderMatch (Some HeaderMatchExact) "X-Canary" "always"].
Proof.
  destruct (canary_header_match canaryByHeader
              (httpPath "/" "Prefix" (serviceBackend "web-v2" 80)) "Prefix")
    as (m & Hm & _ & Hh); [done|done|].
  exists m. split; [done|]. rewrite Hh. by vm_compute.
Defined.

(** X16: [toHTTPRoute] reads of the canary data of a rule only the header
    name, the header value, the regular-expression flag and the weight: two
    rule groups that agree once [enable] and the weight total are reset in
    every rule give the same route and the same errors. *)
Theorem toHTTPRoute_unread_fields (s : Schedule) (rg1 rg2 : ingressRuleGroup) :
  readFieldsOfGroup rg1 = readFieldsOfGroup rg2 ->
  toHTTPRoute s rg1 = toHTTPRoute s rg2.
Proof.
  intros H. by rewrite <- (readFields_toHTTPRoute s rg1), H, readFields_toHTTPRoute.
Qed.

Lemma toHTTPRoute_unread_fields_witness :
  canaryGroupOfTotal 100 <> canaryGroupOfTotal 200 /\
  toHTTPRoute inOrder (canaryGroupOfTotal 100) = toHTTPRoute inOrder (canaryGroupOfTotal 200).
Proof.
  split; [by vm_compute|]. by apply toHTTPRoute_unread_fields.
Defined.

(** X22: the weight that the route builder takes from a source object is
    the int32 conversion of what [strconv.Atoi] returns for the
    canary-weight annotation, and there is one only if the canary
    annotation is "true", the weight annotation is not empty and the
    returned value is not 0: a weight annotation that is "0" or does not
    parse leaves the backend without a weight, and one that is out of range
    for an int gives the weight -1 or 0. *)
Theorem canary_weight_of_annotations (ingress : Ingress) :
  let w := annotation ingress annCanaryWeight in
  let enabled := String.eqb (annotation ingress annCanary) "true" && nonEmpty w in
  canaryWeight (Some (getExtra ingress))
  = (if enabled && negb ((Atoi w).1 =? 0)%Z then Some (wrap32 (Atoi w).1) else None) /\
  ((Atoi w).2 = Some ErrSyntax -> canaryWeight (Some (getExtra ingress)) = None) /\
  ((Atoi w).2 = Some ErrRange -> enabled = true ->
   canaryWeight (Some (getExtra ingress)) = Some (-1)%Z \/
   canaryWeight (Some (getExtra ingress)) = Some 0%Z).
Proof.
  cbv zeta.
  assert (Heq : canaryWeight (Some (getExtra ingress))
                = if String.eqb (annotation ingress annCanary) "true"
                     && nonEmpty (annotation ingress annCanaryWeight)
                     && negb ((Atoi (annotation ingress annCanaryWeight)).1 =? 0)%Z
                  then Some (wrap32 (Atoi (annotation ingress annCanaryWeight)).1)
                  else None).
  { unfold canaryWeight, getExtra, canaryOf. cbv zeta.
    destruct (String.eqb (annotation ingress annCanary) "true"); [|done].
    cbn [andb e_canary].
    destruct (nonEmpty (annotation ingress annCanaryByHeader)),
             (nonEmpty (annotation ingress annCanaryByHeaderValue)),
             (nonEmpty (annotation ingress annCanaryByHeaderPattern)),
             (nonEmpty (annotation ingress annCanaryWeight)),
             (nonEmpty (annotation ingress annCanaryWeightTotal));
      cbn; try done;
      by destruct ((Atoi (annotation ingress annCanaryWeight)).1 =? 0)%Z. }
  rewrite Heq. split; [done|].
  destruct (Atoi_error_value (annotation ingress annCanaryWeight)) as [Hsyn Hrange].
  split.
  - intros Hs. rewrite (Hsyn Hs). cbn. by rewrite andb_false_r.
  - intros Hr ->. cbn [andb]. destruct (Hrange Hr) as [-> | ->]; [left|right]; done.
Qed.

Lemma canary_weight_of_annotations_witness :
  canaryWeight (Some (getExtra canaryHugeWeight)) = Some (-1)%Z \/
  canaryWeight (Some (getExtra canaryHugeWeight)) = Some 0%Z.
Proof.
  apply (proj2 (proj2 (canary_weight_of_annotations canaryHugeWeight)));
    vm_compute; reflexivity.
Defined.

(** * The outputs of a run *)

Section RunOutputs.

Context (o : Oracle) (a : ingressAggregator).

Lemma groupOutput_is_Some (entry : ruleGroupKey * ingressRuleGroup) :
  is_Some (groupOutput o entry) <-> is_Some (toHTTPRoute (o_paths o entry.1) entry.2).
Proof.
  unfold groupOutput.
  destruct (toHTTPRoute _ _) as [[route errs]|]; split; intros H;
    (by destruct H) || (by eexists).
Qed.

Lemma defaultBackendOutput_is_Some db :
  is_Some (defaultBackendOutput db) <-> resolvable (db_backend db).
Proof.
  rewrite <- toBackendRef_is_Some. unfold defaultBackendOutput, defaultBackendStep.
  destruct (toBackendRef (db_backend db)) as [[br|err]|]; split; intros H;
    (by destruct H) || (by eexists).
Qed.

Lemma groupOutput_meta entry out :
  groupOutput o entry = Some out -> routeMeta out.1 = groupRouteMeta entry.2.
Proof.
  unfold groupOutput. rewrite toHTTPRoute_unfold.
  destruct (partitions entry.2) as [p|]; [|done].
  destruct (foldM ruleStep _ _) as [[errs rules]|]; [|done].
  by intros [= <-].
Qed.

Lemma groupOutputs_meta (entries : list (ruleGroupKey * ingressRuleGroup)) outs :
  mapM (groupOutput o) entries = Some outs ->
  routeMeta <$> outs.*1 = groupRouteMeta <$> entries.*2.
Proof.
  intros H. apply mapM_Some_1 in H.
  induction H as [|entry out entries outs Hout _ IH]; [done|].
  cbn [fmap list_fmap]. f_equal; [|exact IH]. by apply groupOutput_meta.
Qed.

Lemma defaultBackendOutputs (dbs : list ingressDefaultBackend) douts :
  mapM defaultBackendOutput dbs = Some douts ->
  routeMeta <$> concat douts.*1 = defaultRouteMeta <$> dbs /\
  concat douts.*2 = omap defaultBackendError dbs.
Proof.
  intros H. apply mapM_Some_1 in H.
  induction H as [|db dout dbs douts Hout _ [IH1 IH2]]; [done|].
  cbn [fmap list_fmap concat omap list_omap].
  unfold defaultBackendOutput, defaultBackendStep in Hout.
  unfold defaultBackendError at 1.
  destruct (toBackendRef (db_backend db)) as [[br|err]|]; [| |done];
    injection Hout as <-; cbn [fst snd app fmap list_fmap];
    by rewrite IH1, IH2.
Qed.

Lemma visited_lookup rg :
  rg ∈ visitedGroups o a <-> exists k, ruleGroups a !! k = Some rg.
Proof.
  unfold visitedGroups. rewrite list_elem_of_fmap. split.
  - intros ([k rg'] & -> & Hin). exists k. by apply elem_of_range in Hin.
  - intros [k Hk]. exists (k, rg). split; [done|]. by apply elem_of_range.
Qed.

Lemma gateway_key_visited k :
  k ∈ (range (o_listeners o) (listenersByKey (visitedGroups o a))).*1
  <-> exists key rg, ruleGroups a !! key = Some rg /\ gwKeyOf rg = k.
Proof.
  rewrite range_keys, elem_of_keys, listenersByKey_is_Some. split.
  - intros Hne. destruct (filter _ (visitedGroups o a)) as [|rg rest] eqn:E; [done|].
    assert (Hin : rg ∈ filter (fun rg => gwKeyOf rg = k) (visitedGroups o a))
      by (rewrite E; left).
    apply list_elem_of_filter in Hin as [Hk Hin].
    apply visited_lookup in Hin as [key Hkey]. by exists key, rg.
  - intros (key & rg & Hkey & Hk) Hnil.
    assert (Hin : rg ∈ filter (fun rg => gwKeyOf rg = k) (visitedGroups o a)).
    { apply list_elem_of_filter. split; [done|]. apply visited_lookup. by exists key. }
    rewrite Hnil in Hin. by apply elem_of_nil in Hin.
Qed.

End RunOutputs.

Section ListenerNames.

Lemma length_append (a b : string) :
  String.length (a +:+ b) = String.length a + String.length b.
Proof.
  induction a as [|c a IH]; [done|].
  change (S (String.length (a +:+ b)) = S (String.length a + String.length b)).
  by rewrite IH.
Qed.

Lemma append_inj_l (a b c : string) : a +:+ c = b +:+ c -> a = b.
Proof.
  revert b. induction a as [|x a IH]; intros [|y b] H; [done| | |].
  - apply (f_equal String.length) in H. rewrite !length_append in H. cbn in H. lia.
  - apply (f_equal String.length) in H. rewrite !length_append in H. cbn in H. lia.
  - cbn in H. injection H as -> H. by rewrite (IH _ H).
Qed.

Lemma http_not_https (a b : string) : a +:+ "http" <> b +:+ "https".
Proof.
  revert b. induction a as [|x a IH]; intros [|y b] H.
  - done.
  - apply (f_equal String.length) in H. rewrite !length_append in H. cbn in H. lia.
  - pose proof (f_equal String.length H) as Hl. rewrite !length_append in Hl.
    destruct a; [by cbn in H|cbn in Hl; lia].
  - cbn in H. injection H as _ H. by apply IH in H.
Qed.

Lemma listener_names (rg : ingressRuleGroup) name :
  name ∈ l_Name <$> listenersOfGroup rg ->
  name = listenerPrefixOf rg +:+ "http" \/ name = listenerPrefixOf rg +:+ "https".
Proof.
  unfold listenersOfGroup, listenerPrefixOf.
  destruct (rg_tls rg); cbn; intros Hin;
    repeat (apply elem_of_cons in Hin as [->|Hin]; [by auto|]);
    by apply elem_of_nil in Hin.
Qed.

Lemma http_listener_name (rg : ingressRuleGroup) :
  listenerPrefixOf rg +:+ "http" ∈ l_Name <$> listenersOfGroup rg.
Proof. unfold listenersOfGroup. cbn. left. Qed.

Lemma NoDup_listener_names (rg : ingressRuleGroup) :
  NoDup (l_Name <$> listenersOfGroup rg).
Proof.
  unfold listenersOfGroup. destruct (rg_tls rg); cbn.
  - apply NoDup_singleton.
  - apply NoDup_cons. split; [|apply NoDup_singleton].
    intros Hin. apply list_elem_of_singleton in Hin. by apply http_not_https in Hin.
Qed.

Lemma same_prefix (rg rg' : ingressRuleGroup) name :
  name ∈ l_Name <$> listenersOfGroup rg -> name ∈ l_Name <$> listenersOfGroup rg' ->
  listenerPrefixOf rg = listenerPrefixOf rg'.
Proof.
  intros H1 H2. apply listener_names in H1, H2.
  destruct H1 as [->| ->], H2 as [H|H].
  - by apply append_inj_l in H.
  - by apply http_not_https in H.
  - symmetry in H. by apply http_not_https in H.
  - by apply append_inj_l in H.
Qed.

Lemma NoDup_listeners (rgs : list ingressRuleGroup) :
  NoDup (l_Name <$> (rgs ≫= listenersOfGroup)) <-> NoDup (listenerPrefixOf <$> rgs).
Proof.
  induction rgs as [|rg rgs IH]; [done|].
  cbn [mbind list_bind fmap list_fmap]. rewrite fmap_app, NoDup_app, NoDup_cons, IH.
  split.
  - intros (_ & Hdis & Hnd). split; [|done].
    intros Hin. apply list_elem_of_fmap in Hin as (rg' & Hp & Hin).
    apply (Hdis _ (http_listener_name rg)).
    apply list_elem_of_fmap.
    exists (mkListener (listenerPrefixOf rg' +:+ "http") (hostnameOf rg') 80
              (Some HTTPProtocolType) None).
    split; [by rewrite Hp|].
    apply list_elem_of_bind. exists rg'. split; [|done].
    unfold listenersOfGroup. left.
  - intros [Hnin Hnd]. split; [apply NoDup_listener_names|]. split; [|done].
    intros name H1 H2. apply Hnin.
    apply list_elem_of_fmap in H2 as (l & -> & Hl).
    apply list_elem_of_bind in Hl as (rg' & Hl & Hrg').
    apply list_elem_of_fmap. exists rg'. split; [|done].
    apply (same_prefix rg rg' (l_Name l)); [done|].
    apply list_elem_of_fmap. by exists l.
Qed.

End ListenerNames.

(** X17: [toHTTPRoutesAndGateways] returns, rather than panics on a nil
    pointer, exactly when [toHTTPRoute] returns for every rule group and
    every default backend is a service or a resource; building the
    listeners and the gateways never panics. *)
Theorem run_returns_iff (o : Oracle) (a : ingressAggregator) :
  is_Some (toHTTPRoutesAndGateways o a)
  <-> (forall k rg, ruleGroups a !! k = Some rg ->
         is_Some (toHTTPRoute (o_paths o k) rg)) /\
      Forall (fun db => resolvable (db_backend db)) (defaultBackends a).
Proof.
  rewrite toHTTPRoutesAndGateways_outputs. unfold transformOutputs.
  assert (Hg : is_Some (mapM (groupOutput o) (range (o_groups o) (ruleGroups a)))
               <-> forall k rg, ruleGroups a !! k = Some rg ->
                     is_Some (toHTTPRoute (o_paths o k) rg)).
  { rewrite mapM_is_Some, Forall_forall. split.
    - intros H k rg Hk. apply (groupOutput_is_Some o (k, rg)), H. by apply elem_of_range.
    - intros H [k rg] Hin. apply groupOutput_is_Some, H. by apply elem_of_range in Hin. }
  assert (Hd : is_Some (mapM defaultBackendOutput (defaultBackends a))
               <-> Forall (fun db => resolvable (db_backend db)) (defaultBackends a)).
  { rewrite mapM_is_Some. apply Forall_proper; [|done].
    intros db. apply defaultBackendOutput_is_Some. }
  rewrite <- Hg, <- Hd.
  destruct (mapM (groupOutput o) _) as [outs|].
  - destruct (mapM defaultBackendOutput _) as [douts|].
    + split; [by split; eexists|by eexists].
    + split; [by intros [? ?]|by intros [_ [? ?]]].
  - split; [by intros [? ?]|by intros [[? ?] _]].
Qed.

(** X18: the errors that [toHTTPRoutesAndGateways] returns are, first, the
    named-port errors of the default backends in the order of the default
    backends and, after them, one malformed-key error for each distinct
    gateway key of a rule group that does not split in two parts; the
    errors of the routes of the rule groups are not among them. *)
Theorem run_errors (o : Oracle) (a : ingressAggregator) routes gateways errs :
  toHTTPRoutesAndGateways o a = Some (routes, gateways, errs) ->
  exists keys,
    errs = omap defaultBackendError (defaultBackends a) ++ (MalformedGatewayKey <$> keys) /\
    NoDup keys /\
    forall k, k ∈ keys <->
      twoParts k = false /\
      exists key rg, ruleGroups a !! key = Some rg /\ gwKeyOf rg = k.
Proof.
  rewrite toHTTPRoutesAndGateways_outputs. unfold transformOutputs.
  destruct (mapM (groupOutput o) _) as [outs|]; [|done].
  destruct (mapM defaultBackendOutput _) as [douts|] eqn:Hd; [|done].
  intros [= _ _ <-]. apply defaultBackendOutputs in Hd as [_ Hd].
  fold (visitedGroups o a). rewrite gateway_errors, Hd.
  eexists. split; [reflexivity|]. split.
  - apply NoDup_filter, NoDup_range_keys.
  - intros k. by rewrite list_elem_of_filter, gateway_key_visited.
Qed.

Lemma run_errors_witness :
  exists routes gateways errs keys,
    toHTTPRoutesAndGateways (uniform inOrder) (aggregate [slashInClass; defaultOnlyIngress])
      = Some (routes, gateways, errs) /\
    errs = omap defaultBackendError
             (defaultBackends (aggregate [slashInClass; defaultOnlyIngress]))
           ++ (MalformedGatewayKey <$> keys) /\
    NoDup keys.
Proof.
  destruct (toHTTPRoutesAndGateways (uniform inOrder)
              (aggregate [slashInClass; defaultOnlyIngress]))
    as [[[routes gateways] errs]|] eqn:E; [|vm_compute in E; discriminate E].
  destruct (run_errors _ _ _ _ _ E) as (keys & Herrs & Hnd & _).
  exists routes, gateways, errs, keys.
  split; [reflexivity|]. split; [exact Herrs|exact Hnd].
Defined.

(** X19: [toHTTPRoutesAndGateways] returns one route for each rule group,
    in the order the rule groups are visited, and after them one route for
    each default backend, in the order of the default backends.  The route
    of a rule group is named after the host alone and refers to the ingress
    class as its parent unless the class is empty; the route of a default
    backend is named after its source object and always refers to the
    ingress class. *)
Theorem run_routes (o : Oracle) (a : ingressAggregator) routes gateways errs :
  toHTTPRoutesAndGateways o a = Some (routes, gateways, errs) ->
  routeMeta <$> routes
  = (groupRouteMeta <$> visitedGroups o a) ++ (defaultRouteMeta <$> defaultBackends a) /\
  length routes = size (ruleGroups a) + length (defaultBackends a).
Proof.
  rewrite toHTTPRoutesAndGateways_outputs. unfold transformOutputs.
  destruct (mapM (groupOutput o) _) as [outs|] eqn:Hg; [|done].
  destruct (mapM defaultBackendOutput _) as [douts|] eqn:Hd; [|done].
  intros [= <- _ _]. apply groupOutputs_meta in Hg.
  apply defaultBackendOutputs in Hd as [Hd _].
  assert (Hmeta : routeMeta <$> outs.*1 ++ concat douts.*1
                  = (groupRouteMeta <$> visitedGroups o a)
                    ++ (defaultRouteMeta <$> defaultBackends a)).
  { by rewrite fmap_app, Hg, Hd. }
  split; [exact Hmeta|].
  rewrite <- (length_fmap routeMeta), Hmeta, length_app, !length_fmap.
  unfold visitedGroups. by rewrite length_fmap, range_perm, length_map_to_list.
Qed.

Lemma run_routes_witness :
  exists routes gateways errs,
    toHTTPRoutesAndGateways (uniform inOrder) (aggregate [tlsIngress; blogIngress])
      = Some (routes, gateways, errs) /\
    hr_Name <$> routes = ["shop-example-com"; "blog-example-com"; "shop-default-backend"].
Proof.
  destruct (toHTTPRoutesAndGateways (uniform inOrder) (aggregate [tlsIngress; blogIngress]))
    as [[[routes gateways] errs]|] eqn:E; [|vm_compute in E; discriminate E].
  exists routes, gateways, errs. split; [reflexivity|].
  destruct (run_routes _ _ _ _ _ E) as [Hmeta _].
  apply (f_equal (fmap (fun m : string * string * list string => m.1.2))) in Hmeta.
  rewrite <- list_fmap_compose in Hmeta. etrans; [exact Hmeta|]. by vm_compute.
Defined.

(** X20: the gateways of a run come from the rule groups alone: a gateway
    of a given namespace and name is among them exactly when neither string
    has a '/' in it and some rule group has that namespace and that ingress
    class.  So the parent that the route of a default backend refers to is
    there only if a rule of some source object shares its namespace and
    ingress class. *)
Theorem gateway_exists_iff (o : Oracle) (a : ingressAggregator) routes gateways errs
    (namespace class : string) :
  toHTTPRoutesAndGateways o a = Some (routes, gateways, errs) ->
  (exists g, g ∈ gateways /\ gw_Namespace g = namespace /\ gw_Name g = class)
  <-> hasSlash namespace = false /\ hasSlash class = false /\
      exists key rg, ruleGroups a !! key = Some rg /\
        rg_namespace rg = namespace /\ rg_ingressClass rg = class.
Proof.
  rewrite toHTTPRoutesAndGateways_outputs. intros run.
  destruct (run_gateways o a _ _ _ run) as (errs0 & -> & _).
  split.
  - intros (g & Hin & Hns & Hname).
    apply list_elem_of_fmap in Hin as ([k g'] & -> & Hin).
    apply gateway_of_run in Hin as (p0 & p1 & rg & rest & Hk & Hf & ->).
    cbn in Hns, Hname. subst p0 p1.
    assert (Hrg : rg ∈ filter (fun rg => gwKeyOf rg = k) (visitedGroups o a))
      by (rewrite Hf; left).
    apply list_elem_of_filter in Hrg as [<- Hrg].
    apply Split_Sprintf2 in Hk as (Hns & Hcls & H0 & H1).
    apply visited_lookup in Hrg as [key Hkey].
    rewrite <- Hns, <- Hcls. repeat split; [done|done|]. by exists key, rg.
  - intros (H0 & H1 & key & rg & Hkey & <- & <-).
    destruct (group_visited o a key rg Hkey) as [Hin _].
    assert (Hf : rg ∈ filter (fun rg' => gwKeyOf rg' = gwKeyOf rg) (visitedGroups o a))
      by (by apply list_elem_of_filter).
    destruct (filter _ (visitedGroups o a)) as [|rg0 rest] eqn:E;
      [by apply elem_of_nil in Hf|].
    exists (mkGateway gatewayGVK (rg_namespace rg) (rg_ingressClass rg) (rg_ingressClass rg)
              ((rg0 :: rest) ≫= listenersOfGroup)).
    split; [|done]. apply list_elem_of_fmap.
    exists (gwKeyOf rg, mkGateway gatewayGVK (rg_namespace rg) (rg_ingressClass rg)
                          (rg_ingressClass rg) ((rg0 :: rest) ≫= listenersOfGroup)).
    split; [done|]. apply gateway_of_run.
    exists (rg_namespace rg), (rg_ingressClass rg), rg0, rest.
    split; [by apply Split_Sprintf2|]. split; [exact E|reflexivity].
Qed.

Lemma gateway_exists_iff_witness :
  exists routes gateways errs,
    toHTTPRoutesAndGateways (uniform inOrder) (aggregate [defaultOnlyIngress])
      = Some (routes, gateways, errs) /\
    hr_ParentRefs <$> routes = [["nginx"]] /\
    ~ exists g, g ∈ gateways /\ gw_Namespace g = "default" /\ gw_Name g = "nginx".
Proof.
  destruct (toHTTPRoutesAndGateways (uniform inOrder) (aggregate [defaultOnlyIngress]))
    as [[[routes gateways] errs]|] eqn:E; [|vm_compute in E; discriminate E].
  exists routes, gateways, errs. split; [reflexivity|]. split.
  - vm_compute in E. by injection E as <- _ _.
  - intros Hg. apply (gateway_exists_iff _ _ _ _ _ _ _ E) in Hg as (_ & _ & key & rg & Hkey & _).
    by vm_compute in Hkey.
Defined.

(** X21: the listeners of a gateway of a run have distinct names exactly
    when the rule groups of the gateway have distinct listener name
    prefixes, that is, sanitized hostnames: two hosts of one gateway that
    [nameFromHost] maps to the same name give listeners of the same name. *)
Theorem listener_names_distinct (o : Oracle) (a : ingressAggregator) routes gateways errs g :
  toHTTPRoutesAndGateways o a = Some (routes, gateways, errs) ->
  g ∈ gateways ->
  (NoDup (l_Name <$> gw_Listeners g)
   <-> NoDup (listenerPrefixOf <$> groupsOfGateway o a g)).
Proof.
  rewrite toHTTPRoutesAndGateways_outputs. intros run Hin.
  destruct (run_gateways o a _ _ _ run) as (errs0 & -> & _).
  apply list_elem_of_fmap in Hin as ([k g'] & -> & Hin).
  apply gateway_of_run in Hin as (p0 & p1 & rg & rest & Hk & Hf & ->).
  unfold groupsOfGateway. cbn [snd gw_Listeners gw_Namespace gw_Name].
  rewrite <- (filter_gwKey_pair (visitedGroups o a) k p0 p1 Hk), Hf.
  apply NoDup_listeners.
Qed.

Lemma listener_names_distinct_witness :
  exists routes gateways errs g,
    toHTTPRoutesAndGateways (uniform inOrder) (aggregate [shopIngress; blogIngress])
      = Some (routes, gateways, errs) /\
    g ∈ gateways /\
    (NoDup (l_Name <$> gw_Listeners g)
     <-> NoDup (listenerPrefixOf
                  <$> groupsOfGateway (uniform inOrder) (aggregate [shopIngress; blogIngress]) g)).
Proof.
  destruct (toHTTPRoutesAndGateways (uniform inOrder) (aggregate [shopIngress; blogIngress]))
    as [[[routes [|g gateways]] errs]|] eqn:E; try (vm_compute in E; discriminate E).
  exists routes, (g :: gateways), errs, g. split; [reflexivity|]. split; [left|].
  apply (listener_names_distinct _ _ _ _ _ _ E). left.
Defined.
